(** * epub_ocr: OCR cache, page classifier and chapter-title extraction

    A shallow embedding of the Python scripts of the repository
    ([epub_extractor.py], [extract_epub_enhanced.py], [extract_chapters.py],
    [extract_toc.py], [scan_chapters.py], [parse_epub_ocr.py],
    [parse_epub_ocr_v2.py]) and the properties of the specification that
    are stated about them.

    Python [str] values are sequences of Unicode code points; they are
    modelled as lists of [N].  The regular expressions of the sources are
    kept as syntax trees and run by a backtracking matcher with the
    priorities of Python's [re] module. *)

From Stdlib Require Import DecimalN.
From stdpp Require Import gmap list sorting.

Local Open Scope N_scope.

(** ** Characters and strings *)

Definition char := N.
Definition str := list char.

Module Ch.
Definition nl : char := 10.
Definition cr : char := 13.
Definition space : char := 32.
Definition lparen : char := 40.
Definition rparen : char := 41.
Definition minus : char := 45.
Definition dot : char := 46.
Definition slash : char := 47.
Definition bar : char := 124.
Definition uscore : char := 95.
Definition ellipsis : char := 8230.      (* U+2026 *)
Definition dun : char := 12289.          (* U+3001 *)
Definition di : char := 31532.           (* U+7B2C *)
Definition zhang : char := 31456.        (* U+7AE0 *)
Definition jie : char := 33410.          (* U+8282 *)
Definition pian : char := 31687.         (* U+7BC7 *)
Definition bu : char := 37096.           (* U+90E8 *)
Definition juan : char := 21367.         (* U+5377 *)
Definition hui : char := 22238.          (* U+56DE *)
Definition mu : char := 30446.           (* U+76EE *)
Definition lu : char := 24405.           (* U+5F55 *)
Definition ci : char := 27425.           (* U+6B21 *)
Definition ling : char := 38646.         (* U+96F6 *)
Definition jian : char := 35265.         (* U+89C1 *)
(** the numeral glyphs of the character class used by every script:
    U+4E00 U+4E8C U+4E09 U+56DB U+4E94 U+516D U+4E03 U+516B U+4E5D
    U+5341 U+767E U+5343 *)
Definition numerals : list char :=
  [19968; 20108; 19977; 22235; 20116; 20845; 19971; 20843; 20061;
   21313; 30334; 21315].
Definition units : list char := [zhang; jie; pian; bu; juan; hui].
End Ch.

Definition mem (c : char) (l : list char) : bool := existsb (N.eqb c) l.

(** Code points whose [str.isspace()] is true; the class [\s] of [re] on
    [str] patterns is the same set. *)
Definition spaces : list char :=
  [9; 10; 11; 12; 13; 28; 29; 30; 31; 32; 133; 160; 5760;
   8192; 8193; 8194; 8195; 8196; 8197; 8198; 8199; 8200; 8201; 8202;
   8232; 8233; 8239; 8287; 12288].

Definition is_space (c : char) : bool := mem c spaces.

(** The class [\d] of [re] on [str] patterns: the Unicode decimal digits
    (category Nd).  They come in runs of ten starting at a digit zero;
    the list holds the code point of each zero. *)
Definition digit_zeros : list char :=
  [48; 1632; 1776; 1984; 2406; 2534; 2662; 2790; 2918; 3046; 3174; 3302;
   3430; 3558; 3664; 3792; 3872; 4160; 4240; 6112; 6160; 6470; 6608; 6784;
   6800; 6992; 7088; 7232; 7248; 42528; 43216; 43264; 43472; 43504; 43600;
   44016; 65296; 66720; 68912; 69734; 69872; 69942; 70096; 70384; 70736;
   70864; 71248; 71360; 71472; 71904; 72016; 72784; 73040; 73120; 92768;
   92864; 93008; 120782; 120792; 120802; 120812; 120822; 123200; 123632;
   125264; 130032].

Definition in_run (c z : char) : bool := (z <=? c) && (c <? z + 10).

Definition is_digit (c : char) : bool := existsb (in_run c) digit_zeros.

(** [int(c)] of a single decimal digit. *)
Definition digit_value (c : char) : N :=
  match filter (fun z => in_run c z = true) digit_zeros with
  | z :: _ => c - z
  | [] => 0
  end.

(** [int(s)] for a string of decimal digits. *)
Definition int_of (s : str) : N :=
  fold_left (fun acc c => 10 * acc + digit_value c) s 0.

(** ** The [str] methods used by the scripts *)

Fixpoint lstrip (s : str) : str :=
  match s with
  | c :: s' => if is_space c then lstrip s' else s
  | [] => []
  end.

Definition rstrip (s : str) : str := reverse (lstrip (reverse s)).

Definition strip (s : str) : str := rstrip (lstrip s).

(** [s.split(sep)] for a one-character separator: never the empty list. *)
Fixpoint split (sep : char) (s : str) : list str :=
  match s with
  | [] => [[]]
  | c :: s' =>
      if c =? sep then [] :: split sep s'
      else match split sep s' with
           | l :: ls => (c :: l) :: ls
           | [] => [[c]]
           end
  end.

(** [sep.join(parts)]. *)
Fixpoint join (sep : str) (parts : list str) : str :=
  match parts with
  | [] => []
  | [p] => p
  | p :: ps => p ++ sep ++ join sep ps
  end.

Definition str_eqb (a b : str) : bool := bool_decide (a = b).

Fixpoint starts_with (p s : str) : bool :=
  match p, s with
  | [], _ => true
  | a :: p', b :: s' => (a =? b) && starts_with p' s'
  | _ :: _, [] => false
  end.

(** [p in s] on strings. *)
Fixpoint contains (p s : str) : bool :=
  starts_with p s ||
  match s with
  | [] => false
  | _ :: s' => contains p s'
  end.

(** [x in l] on a list of strings. *)
Definition in_list (x : str) (l : list str) : bool := bool_decide (x ∈ l).

Local Close Scope N_scope.

(** ** Regular expressions

    Every repetition in the patterns of the sources ranges over a
    character class, so [Rep] carries a class. *)

Inductive regex :=
| Eps
| Cls (p : char → bool)
| Rep (greedy : bool) (lo : nat) (hi : option nat) (p : char → bool)
| Seq (r1 r2 : regex)
| Alt (r1 r2 : regex)
| Bos                       (* [^] without MULTILINE *)
| Eos (multiline : bool).   (* [$] *)

(** [$]: at the end, or before the newline that ends the string; with
    MULTILINE before any newline. *)
Definition at_end (ml : bool) (s : str) : bool :=
  match s with
  | [] => true
  | c :: s' => N.eqb c Ch.nl && (ml || match s' with [] => true | _ => false end)
  end.

Definition or_else {A} (a : option A) (b : option A) : option A :=
  match a with Some x => Some x | None => b end.

Definition room (hi : option nat) : bool :=
  match hi with Some 0 => false | _ => true end.

(** The matcher takes the absolute position [pos], the remaining input and
    a continuation; alternatives are tried in the order [re] tries them and
    the first one whose continuation succeeds wins. *)
Fixpoint rep {A} (g : bool) (p : char → bool) (lo : nat) (hi : option nat)
    (pos : nat) (s : str) (k : nat → str → option A) : option A :=
  match s with
  | c :: s' =>
      if p c && room hi then
        if g then
          match rep g p (pred lo) (pred <$> hi) (S pos) s' k with
          | Some x => Some x
          | None => match lo with 0 => k pos s | S _ => None end
          end
        else
          match (match lo with 0 => k pos s | S _ => None end) with
          | Some x => Some x
          | None => rep g p (pred lo) (pred <$> hi) (S pos) s' k
          end
      else match lo with 0 => k pos s | S _ => None end
  | [] => match lo with 0 => k pos s | S _ => None end
  end.

Fixpoint rmatch {A} (r : regex) (pos : nat) (s : str)
    (k : nat → str → option A) : option A :=
  match r with
  | Eps => k pos s
  | Cls p =>
      match s with
      | c :: s' => if p c then k (S pos) s' else None
      | [] => None
      end
  | Rep g lo hi p => rep g p lo hi pos s k
  | Seq r1 r2 => rmatch r1 pos s (fun pos' s' => rmatch r2 pos' s' k)
  | Alt r1 r2 => or_else (rmatch r1 pos s k) (rmatch r2 pos s k)
  | Bos => match pos with 0 => k pos s | S _ => None end
  | Eos ml => if at_end ml s then k pos s else None
  end.

(** End position of the match of [r] that starts at [pos]. *)
Definition match_at (r : regex) (pos : nat) (s : str) : option nat :=
  rmatch r pos s (fun e _ => Some e).

(** [re.match(r, s)]: the matched text. *)
Definition re_match (r : regex) (s : str) : option str :=
  (λ e, take e s) <$> match_at r 0 s.

(** [re.search]: leftmost start, as (characters before the match, matched
    text). *)
Fixpoint search_from (r : regex) (pos : nat) (s : str) : option (nat * str) :=
  match match_at r pos s with
  | Some e => Some (pos, take (e - pos) s)
  | None =>
      match s with
      | [] => None
      | _ :: s' => search_from r (S pos) s'
      end
  end.

Definition re_search (r : regex) (s : str) : option str :=
  snd <$> search_from r 0 s.

(** Left-to-right scan shared by [re.findall] and [re.sub]: the input cut
    into matches and the characters between them.  [skip] counts the
    characters of the current match still to be passed over.  No pattern
    of the sources matches the empty string; an empty match is recorded
    and the scan moves on by one character. *)
Inductive piece :=
| Lit (c : char)
| Hit (w : str).

Fixpoint scan (r : regex) (pos skip : nat) (s : str) : list piece :=
  match skip with
  | S n =>
      match s with
      | [] => []
      | _ :: s' => scan r (S pos) n s'
      end
  | 0 =>
      match match_at r pos s with
      | Some e =>
          Hit (take (e - pos) s) ::
          match s with
          | [] => []
          | c :: s' =>
              (if Nat.eqb e pos then [Lit c] else []) ++
              scan r (S pos) (e - pos - 1) s'
          end
      | None =>
          match s with
          | [] => []
          | c :: s' => Lit c :: scan r (S pos) 0 s'
          end
      end
  end.

Fixpoint hits (ps : list piece) : list str :=
  match ps with
  | [] => []
  | Lit _ :: ps' => hits ps'
  | Hit w :: ps' => w :: hits ps'
  end.

Fixpoint subst (repl : str) (ps : list piece) : str :=
  match ps with
  | [] => []
  | Lit c :: ps' => c :: subst repl ps'
  | Hit _ :: ps' => repl ++ subst repl ps'
  end.

(** [re.findall(r, s)] for a pattern without groups. *)
Definition findall (r : regex) (s : str) : list str := hits (scan r 0 0 s).

(** [re.sub(r, repl, s)] for a literal replacement. *)
Definition re_sub (r : regex) (repl : str) (s : str) : str :=
  subst repl (scan r 0 0 s).

(** *** Pattern building blocks *)

Definition chr (c : char) : regex := Cls (N.eqb c).
Definition plus (p : char → bool) : regex := Rep true 1 None p.
Definition star (p : char → bool) : regex := Rep true 0 None p.
Definition upto (n : nat) (p : char → bool) : regex := Rep true 0 (Some n) p.
Definition opt (p : char → bool) : regex := Rep true 0 (Some 1) p.
Definition any (_ : char) : bool := true.             (* [\s\S] *)
Definition not_nl (c : char) : bool := negb (N.eqb c Ch.nl).  (* [.] and [^\n] *)
Definition not_digit (c : char) : bool := negb (is_digit c).  (* [^\d] *)
Definition dots (c : char) : bool := mem c [Ch.ellipsis; Ch.dot].
Definition numeral (c : char) : bool := mem c Ch.numerals || is_digit c.
Definition unit_word (c : char) : bool := mem c Ch.units.

Fixpoint seqs (rs : list regex) : regex :=
  match rs with
  | [] => Eps
  | [r] => r
  | r :: rs' => Seq r (seqs rs')
  end.

Definition word (w : str) : regex := seqs (chr <$> w).

(** ** Patterns shared by several scripts *)

(** [\s+] *)
Definition ws_run : regex := plus is_space.

(** [[…\.]+.*$] *)
Definition trunc1 : regex := seqs [plus dots; star not_nl; Eos false].

(** [[…\.]{2,}.*$] *)
Definition trunc2 : regex := seqs [Rep true 2 None dots; star not_nl; Eos false].

(** [第[一二三四五六七八九十百千\d]+章] *)
Definition head_zhang : regex := seqs [chr Ch.di; plus numeral; chr Ch.zhang].

(** [第[一二三四五六七八九十百千\d]+[章节篇部卷回]] *)
Definition head_unit : regex := seqs [chr Ch.di; plus numeral; Cls unit_word].

(** The recognition capability ([Image.open] followed by
    [pytesseract.image_to_string]): the outcome of the [n]-th invocation on
    an image path, [None] when it raises. *)
Definition oracle := nat → str → option str.

(** [ocr_image] of [extract_toc.py], [scan_chapters.py], [parse_epub_ocr.py]
    and [parse_epub_ocr_v2.py]: any exception yields the empty string. *)
Definition ocr_image (tess : oracle) (n : nat) (image_path : str) : str :=
  default [] (tess n image_path).

(** The order-preserving removal of duplicates at the end of
    [scan_for_toc] and [find_toc_and_extract_chapters]:
    [seen = set(); unique = []; for ch in all: if ch not in seen: ...]. *)
Definition unique_step (st : gset str * list str) (ch : str) : gset str * list str :=
  if decide (ch ∈ st.1) then st else ({[ch]} ∪ st.1, st.2 ++ [ch]).

Definition unique (all_chapters : list str) : list str :=
  (fold_left unique_step all_chapters (∅, [])).2.

(** ** extract_chapters.py *)
Module ExtractChapters.

(** [第[一二三四五六七八九十百千零\d]+章[^\n\d]{0,30}] *)
Definition pattern : regex :=
  seqs [chr Ch.di;
        plus (λ c, numeral c || N.eqb c Ch.ling);
        chr Ch.zhang;
        upto 30 (λ c, not_nl c && not_digit c)].

Definition clean (m : str) : str :=
  let title := strip m in
  let title := re_sub ws_run [Ch.space] title in
  let title := re_sub trunc1 [] title in
  strip title.

(** One iteration of [for match in matches]. *)
Definition add_match (chapters : list str) (m : str) : list str :=
  let title := clean m in
  if negb (str_eqb title []) && (3 <? length title)%nat
     && negb (in_list title chapters)
  then
    if negb (mem Ch.bar title) && (length title <? 50)%nat
    then chapters ++ [title]
    else chapters
  else chapters.

(** One iteration of [for ocr_file in ocr_files]. *)
Definition add_file (chapters : list str) (text : str) : list str :=
  fold_left add_match (findall pattern text) chapters.

(** [texts] are the contents of the files [page_*.txt] of the OCR
    directory, in the sorted order of their names. *)
Definition extract_chapters_from_ocr (texts : list str) : list str :=
  fold_left add_file texts [].

End ExtractChapters.

(** ** extract_toc.py *)
Module ExtractToc.

(** A literal under [re.IGNORECASE]: the letter in both cases, and for
    [S] also U+017F. *)
Definition ci (up : char) (extra : list char) : regex :=
  Cls (λ c, mem c (up :: (up + 32)%N :: extra)).

(** [目\s*录|目\s*次|CONTENTS] with IGNORECASE. *)
Definition toc_marker : regex :=
  Alt (seqs [chr Ch.mu; star is_space; chr Ch.lu])
      (Alt (seqs [chr Ch.mu; star is_space; chr Ch.ci])
           (seqs [ci 67%N []; ci 79%N []; ci 78%N []; ci 84%N [];
                  ci 69%N []; ci 78%N []; ci 84%N []; ci 83%N [383%N]])).

(** [[^\n]+\d+\s*$] with MULTILINE. *)
Definition numbered_line : regex :=
  seqs [plus not_nl; plus is_digit; star is_space; Eos true].

Definition has_toc_marker (text : str) : bool :=
  bool_decide (is_Some (re_search toc_marker text)).

Definition lines_with_numbers (text : str) : nat :=
  length (findall numbered_line text).

Definition is_toc_page (text : str) : bool :=
  has_toc_marker text || (5 <=? lines_with_numbers text)%nat.

(** Group 1 and the rest of
    [(第[...]+[章节篇部卷回][\s\S]*?)[\.\…]+\s*\(?\d+\)?$]. *)
Definition row_title : regex := Seq head_unit (Rep false 0 None any).
Definition row_tail : regex :=
  seqs [plus dots; star is_space; opt (N.eqb Ch.lparen); plus is_digit;
        opt (N.eqb Ch.rparen); Eos false].

(** [(第[...]+[章节篇部卷回][^\d]{0,30})] *)
Definition plain_title : regex := Seq head_unit (upto 30 not_digit).

(** [re.match(r, line).group(1)] for a pattern [(r1)r2]. *)
Definition match_group1 (r1 r2 : regex) (line : str) : option str :=
  rmatch r1 0 line
    (λ e1 s1, rmatch r2 e1 s1 (λ _ _, Some (take e1 line))).

(** One iteration of [for line in lines]. *)
Definition add_line (entries : list str) (line : str) : list str :=
  let line := strip line in
  if str_eqb line [] then entries
  else
    match match_group1 row_title row_tail line with
    | Some g1 =>
        let title := strip g1 in
        let title := re_sub ws_run [Ch.space] title in
        if negb (str_eqb title []) && negb (in_list title entries)
        then entries ++ [title] else entries
    | None =>
        match re_match plain_title line with
        | Some g1 =>
            let title := strip g1 in
            let title := re_sub trunc1 [] title in
            let title := re_sub ws_run [Ch.space] title in
            if (3 <? length title)%nat && negb (in_list title entries)
            then entries ++ [title] else entries
        | None => entries
        end
    end.

Definition extract_toc_entries (text : str) : list str :=
  fold_left add_line (split Ch.nl text) [].

(** The body of [for i, (page_num, img_path) in enumerate(...)];
    [n] counts the recognition calls made so far. *)
Fixpoint scan_loop (tess : oracle) (n : nat) (pages : list (N * str))
    (all_chapters : list str) : list str :=
  match pages with
  | [] => all_chapters
  | (_, img_path) :: rest =>
      let text := ocr_image tess n img_path in
      let all_chapters :=
        if is_toc_page text then
          match extract_toc_entries text with
          | [] => all_chapters
          | chapters => all_chapters ++ chapters
          end
        else all_chapters in
      scan_loop tess (S n) rest all_chapters
  end.

Definition scan_for_toc (tess : oracle) (n : nat)
    (image_files : list (N * str)) (max_pages : nat) : list str :=
  unique (scan_loop tess n (take max_pages image_files) []).

End ExtractToc.

(** ** scan_chapters.py *)
Module ScanChapters.

(** [第[一二三四五六七八九十百千\d]+章[^\n]{0,30}] *)
Definition pattern : regex := Seq head_zhang (upto 30 not_nl).

Definition first_lines (text : str) : str :=
  join [Ch.space] (take 5 (split Ch.nl (strip text))).

Definition extract_chapter_from_page (text : str) : option str :=
  match re_search pattern (first_lines text) with
  | Some m =>
      let title := strip m in
      let title := re_sub ws_run [Ch.space] title in
      let title := re_sub trunc2 [] title in
      Some (strip title)
  | None => None
  end.

(** [if chapter:] is false for [None] and for the empty string. *)
Definition truthy (chapter : option str) : option str :=
  match chapter with
  | Some [] => None
  | c => c
  end.

Fixpoint scan_all_pages (tess : oracle) (n : nat)
    (image_files : list (N * str)) : list (N * str) :=
  match image_files with
  | [] => []
  | (page_num, img_path) :: rest =>
      let text := ocr_image tess n img_path in
      match truthy (extract_chapter_from_page text) with
      | Some chapter => (page_num, chapter) :: scan_all_pages tess (S n) rest
      | None => scan_all_pages tess (S n) rest
      end
  end.

End ScanChapters.

(** ** parse_epub_ocr_v2.py *)
Module ParseEpubOcrV2.

(** [第[一二三四五六七八九十百千\d]+章[\s\S]{0,50}] *)
Definition pattern : regex := Seq head_zhang (upto 50 any).

(** [\(\d+\)$] *)
Definition page_suffix : regex :=
  seqs [chr Ch.lparen; plus is_digit; chr Ch.rparen; Eos false].

Definition clean (m : str) : str :=
  let clean := strip m in
  let clean := re_sub ws_run [Ch.space] clean in
  let clean := re_sub trunc2 [] clean in
  let clean := re_sub page_suffix [] clean in
  strip clean.

Definition add_match (chapters : list str) (m : str) : list str :=
  let c := clean m in
  if (3 <? length c)%nat && negb (in_list c chapters)
  then chapters ++ [c] else chapters.

Definition extract_chapter_titles_clean (text : str) : list str :=
  fold_left add_match (findall pattern text) [].

(** ['目录' in text or '目 录' in text or '目 次' in text] *)
Definition is_toc (text : str) : bool :=
  contains [Ch.mu; Ch.lu] text
  || contains [Ch.mu; Ch.space; Ch.lu] text
  || contains [Ch.mu; Ch.space; Ch.ci] text.

Fixpoint scan_loop (tess : oracle) (n : nat) (pages : list str)
    (all_chapters : list str) : list str :=
  match pages with
  | [] => all_chapters
  | img_path :: rest =>
      let text := ocr_image tess n img_path in
      let chapters := extract_chapter_titles_clean text in
      scan_loop tess (S n) rest (all_chapters ++ chapters)
  end.

Definition find_toc_and_extract_chapters (tess : oracle) (n : nat)
    (image_files : list str) (max_pages : nat) : list str :=
  unique (scan_loop tess n (take max_pages image_files) []).

End ParseEpubOcrV2.

(** ** Files, paths and the archive *)

(** The file system: path to content.  A file written in text mode holds
    the text as it was given: on output [\n] is replaced by [os.linesep],
    which is [\n] on POSIX. *)
Abbreviation filesystem := (gmap str str).

(** [f.read()] of a file opened in text mode with the default
    [newline=None]: the line ends [\r\n] and [\r] are read as [\n]. *)
Fixpoint read_text (content : str) : str :=
  match content with
  | [] => []
  | c :: rest =>
      if N.eqb c Ch.cr then
        Ch.nl :: match rest with
                 | c2 :: rest' =>
                     if N.eqb c2 Ch.nl then read_text rest' else read_text rest
                 | [] => []
                 end
      else c :: read_text rest
  end.

(** The members of the zip container in [namelist()] order, each with its
    data. *)
Definition archive := list (str * str).

(** [epub.read(name)]: a name that occurs twice denotes the last member. *)
Definition zip_read (epub : archive) (name : str) : str :=
  default [] (snd <$> last (filter (λ m, m.1 = name) epub)).

(** [os.path.join(a, b)] for a relative [b]. *)
Definition path_join (a b : str) : str :=
  match last a with
  | None => b
  | Some c => if N.eqb c Ch.slash then a ++ b else a ++ Ch.slash :: b
  end.

Definition lower (c : char) : char :=
  if (65 <=? c)%N && (c <=? 90)%N then (c + 32)%N else c.

Definition ends_with (suf s : str) : bool :=
  starts_with (reverse suf) (reverse s).

Definition ext_png : str := [46; 112; 110; 103]%N.
Definition ext_jpg : str := [46; 106; 112; 103]%N.
Definition ext_jpeg : str := [46; 106; 112; 101; 103]%N.
Definition ext_txt : str := [46; 116; 120; 116]%N.

(** [name.lower().endswith(('.png', '.jpg', '.jpeg'))].  Only the ASCII
    capitals lower-case to the letters of the three suffixes, so the ASCII
    lowering decides the test as [str.lower] does. *)
Definition is_image_name (name : str) : bool :=
  let l := lower <$> name in
  ends_with ext_png l || ends_with ext_jpg l || ends_with ext_jpeg l.

(** [index-(\d+)] and [page_(\d+)] *)
Definition index_re : regex :=
  Seq (word [105; 110; 100; 101; 120; 45]%N) (plus is_digit).

(** [int(re.search(r'index-(\d+)', name).group(1))] *)
Definition index_number (name : str) : option N :=
  (λ m, int_of (drop 6 m)) <$> re_search index_re name.

Fixpoint rfind (c : char) (s : str) : option nat :=
  match s with
  | [] => None
  | x :: s' =>
      match rfind c s' with
      | Some i => Some (S i)
      | None => if N.eqb x c then Some 0 else None
      end
  end.

(** [Path(name).suffix]: from the last dot of the final component, unless
    that dot is its first or last character. *)
Definition suffix (name : str) : str :=
  let comp := default [] (last (split Ch.slash name)) in
  match rfind Ch.dot comp with
  | Some i => if (0 <? i) && (i <? length comp - 1) then drop i comp else []
  | None => []
  end.

Fixpoint uint_chars (d : Decimal.uint) : str :=
  match d with
  | Decimal.Nil => []
  | Decimal.D0 d => 48%N :: uint_chars d
  | Decimal.D1 d => 49%N :: uint_chars d
  | Decimal.D2 d => 50%N :: uint_chars d
  | Decimal.D3 d => 51%N :: uint_chars d
  | Decimal.D4 d => 52%N :: uint_chars d
  | Decimal.D5 d => 53%N :: uint_chars d
  | Decimal.D6 d => 54%N :: uint_chars d
  | Decimal.D7 d => 55%N :: uint_chars d
  | Decimal.D8 d => 56%N :: uint_chars d
  | Decimal.D9 d => 57%N :: uint_chars d
  end.

(** [f"{n:04d}"] *)
Definition fmt04 (n : N) : str :=
  let ds := uint_chars (N.to_uint n) in
  replicate (4 - length ds) 48%N ++ ds.

(** [f"page_{page_num:04d}{ext}"] *)
Definition page_file (page_num : N) (ext : str) : str :=
  [112; 97; 103; 101; 95]%N ++ fmt04 page_num ++ ext.

(** [image_files.sort(key=lambda x: x[0])]: a stable sort on the page
    number. *)
Fixpoint insert_page {A} (x : N * A) (l : list (N * A)) : list (N * A) :=
  match l with
  | [] => [x]
  | y :: l' => if (y.1 <? x.1)%N then y :: insert_page x l' else x :: l
  end.

Definition sort_pages {A} (l : list (N * A)) : list (N * A) :=
  foldr insert_page [] l.

(** The loop [for name in epub.namelist()] that [extract_all_images] and
    the four copies of [extract_images_from_epub] share: one iteration. *)
Definition extract_member (epub : archive) (output_dir : str)
    (st : filesystem * list (N * str)) (name : str)
    : filesystem * list (N * str) :=
  if is_image_name name then
    match index_number name with
    | Some page_num =>
        let data := zip_read epub name in
        let ext := suffix name in
        let output_path := path_join output_dir (page_file page_num ext) in
        (<[output_path := data]> st.1, st.2 ++ [(page_num, output_path)])
    | None => st
    end
  else st.

(** The files written and the sorted list of [(page_num, output_path)]. *)
Definition extract_images (epub : archive) (output_dir : str)
    (fs : filesystem) : filesystem * list (N * str) :=
  let st := fold_left (extract_member epub output_dir) (epub.*1) (fs, []) in
  (st.1, sort_pages st.2).

(** ** parse_epub_ocr.py *)
Module ParseEpubOcr.

(** Returns [[f[1] for f in image_files]]: the paths only. *)
Definition extract_images_from_epub (epub : archive) (output_dir : str)
    (fs : filesystem) : filesystem * list str :=
  let r := extract_images epub output_dir fs in (r.1, r.2.*2).

Definition patterns : list regex :=
  [ Seq head_unit (upto 30 any);
    seqs [opt (N.eqb Ch.di); plus is_digit;
          Cls (λ c, mem c [Ch.dot; Ch.dun] || is_space c);
          Rep true 2 (Some 20) not_nl];
    Alt (word [21069; 35328]%N) (Alt (word [24207; 35328]%N)
    (Alt (word [24207]%N) (Alt (word [24341; 35328]%N)
    (Alt (word [23548; 35770]%N) (Alt (word [32465; 35770]%N)
    (Alt (word [32467; 35821]%N) (Alt (word [21518; 35760]%N)
    (Alt (word [38468; 24405]%N) (word [30446; 24405]%N)))))))));
    seqs [Cls (λ c, (65 <=? c)%N && (c <=? 90)%N);
          plus (λ c, (97 <=? c)%N && (c <=? 122)%N);
          plus is_space; plus is_digit] ].

(** [match.strip().replace('\n', ' ')] *)
Definition clean (m : str) : str :=
  (λ c, if N.eqb c Ch.nl then Ch.space else c) <$> strip m.

Definition add_match (chapters : list str) (m : str) : list str :=
  let c := clean m in
  if (1 <? length c)%nat && negb (in_list c chapters)
  then chapters ++ [c] else chapters.

Definition extract_chapter_titles (text : str) : list str :=
  fold_left (λ chapters pattern,
               fold_left add_match (findall pattern text) chapters)
            patterns [].

Fixpoint toc_loop (tess : oracle) (n : nat) (pages : list str)
    (toc_chapters : list str) : list str :=
  match pages with
  | [] => toc_chapters
  | img_path :: rest =>
      let text := ocr_image tess n img_path in
      let is_toc := contains [Ch.mu; Ch.lu] text
                    || contains [Ch.mu; Ch.space; Ch.lu] text in
      let chapters := extract_chapter_titles text in
      toc_loop tess (S n) rest
        (if is_toc || (3 <=? length chapters)%nat
         then toc_chapters ++ chapters else toc_chapters)
  end.

Definition find_toc_pages (tess : oracle) (n : nat)
    (image_files : list str) (max_pages : nat) : list str :=
  toc_loop tess n (take max_pages image_files) [].

(** [^[\s]*第[一二三四五六七八九十百千\d]+[章节篇部卷回]] *)
Definition chapter_pattern : regex := seqs [Bos; star is_space; head_unit].

(** [第[...]+[章节篇部卷回][^\n]{0,30}] *)
Definition name_pattern : regex := Seq head_unit (upto 30 not_nl).

Definition first_lines (text : str) : str :=
  join [Ch.space] (take 3 (split Ch.nl (strip text))).

(** The chapter name recorded for a page, if any. *)
Definition chapter_start (text : str) : option str :=
  let fl := first_lines text in
  match re_match chapter_pattern fl with
  | Some _ => strip <$> re_search name_pattern fl
  | None => None
  end.

(** [for i, img_path in enumerate(image_files)]; [i] is the index of the
    iteration and the pair recorded is [(i + 1, chapter_name)]. *)
Fixpoint scan_loop (tess : oracle) (n : nat) (i : N)
    (image_files : list str) : list (N * str) :=
  match image_files with
  | [] => []
  | img_path :: rest =>
      let text := ocr_image tess n img_path in
      match chapter_start text with
      | Some chapter_name =>
          ((i + 1)%N, chapter_name) :: scan_loop tess (S n) (i + 1)%N rest
      | None => scan_loop tess (S n) (i + 1)%N rest
      end
  end.

Definition scan_all_pages_for_chapters (tess : oracle) (n : nat)
    (image_files : list str) : list (N * str) :=
  scan_loop tess n 0%N image_files.

Inductive report :=
| FromToc (toc_chapters : list str)
| FromFullScan (chapters : list (N * str)).

(** [main]: the full scan runs only when [find_toc_pages] returns an
    empty list. *)
Definition main (tess : oracle) (epub : archive) (tmp_dir : str) : report :=
  let image_files := (extract_images_from_epub epub tmp_dir ∅).2 in
  match find_toc_pages tess 0 image_files 20 with
  | [] =>
      let n := length (take 20 image_files) in
      FromFullScan (scan_all_pages_for_chapters tess n image_files)
  | toc_chapters => FromToc toc_chapters
  end.

End ParseEpubOcr.

(** ** The recognition cache *)

Inductive event :=
| OcrFailed                  (* [print(f"OCR失败: {e}")] *)
| PageSkipped (page_num : N)
| PageDone (page_num : N).

Record world := World {
  files : filesystem;
  calls : nat;               (* invocations of the recognition capability *)
  out : list event;          (* what was printed *)
}.

Definition page_txt (ocr_dir : str) (page_num : N) : str :=
  path_join ocr_dir (page_file page_num ext_txt).

(** ** epub_extractor.py *)
Module EpubExtractor.

Definition extract_all_images (epub : archive) (output_dir : str)
    (fs : filesystem) : filesystem * list (N * str) :=
  extract_images epub (path_join output_dir [105; 109; 97; 103; 101; 115]%N) fs.

Definition ocr_single_page (tess : oracle) (image_path ocr_dir : str)
    (page_num : N) (w : world) : str * world :=
  let ocr_file := page_txt ocr_dir page_num in
  match files w !! ocr_file with
  | Some content => (read_text content, w)
  | None =>
      match tess (calls w) image_path with
      | Some text =>
          (text, World (<[ocr_file := text]> (files w)) (S (calls w)) (out w))
      | None =>
          ([], World (files w) (S (calls w)) (out w ++ [OcrFailed]))
      end
  end.

(** Step 2 of [process_pages]: the loop over [image_files]. *)
Fixpoint process_pages (tess : oracle) (image_files : list (N * str))
    (ocr_dir : str) (start_page end_page : N) (w : world) : world :=
  match image_files with
  | [] => w
  | (page_num, img_path) :: rest =>
      if (page_num <? start_page)%N || (end_page <? page_num)%N
      then process_pages tess rest ocr_dir start_page end_page w
      else
        match files w !! page_txt ocr_dir page_num with
        | Some _ =>
            process_pages tess rest ocr_dir start_page end_page
              (World (files w) (calls w) (out w ++ [PageSkipped page_num]))
        | None =>
            let r := ocr_single_page tess img_path ocr_dir page_num w in
            process_pages tess rest ocr_dir start_page end_page
              (World (files r.2) (calls r.2) (out r.2 ++ [PageDone page_num]))
        end
  end.

End EpubExtractor.

(** ** extract_epub_enhanced.py *)
Module ExtractEpubEnhanced.

(** Preprocessing and recognition sit in one [try]; the oracle stands
    for both. *)
Definition ocr_image_enhanced (tess : oracle) (image_path : str)
    (w : world) : str * world :=
  match tess (calls w) image_path with
  | Some text => (text, World (files w) (S (calls w)) (out w))
  | None => ([], World (files w) (S (calls w)) (out w ++ [OcrFailed]))
  end.

(** Step 2 of [process_pages]: the loop over [image_files]. *)
Fixpoint process_pages (tess : oracle) (image_files : list (N * str))
    (ocr_dir : str) (start_page end_page : N) (w : world) : world :=
  match image_files with
  | [] => w
  | (page_num, img_path) :: rest =>
      if (page_num <? start_page)%N || (end_page <? page_num)%N
      then process_pages tess rest ocr_dir start_page end_page w
      else
        let ocr_file := page_txt ocr_dir page_num in
        match files w !! ocr_file with
        | Some _ =>
            process_pages tess rest ocr_dir start_page end_page
              (World (files w) (calls w) (out w ++ [PageSkipped page_num]))
        | None =>
            let r := ocr_image_enhanced tess img_path w in
            process_pages tess rest ocr_dir start_page end_page
              (World (<[ocr_file := r.1]> (files r.2)) (calls r.2)
                     (out r.2 ++ [PageDone page_num]))
        end
  end.

End ExtractEpubEnhanced.

(** ** Specification-level notions *)

(** What a pattern denotes: [matches r pos w rest] when [r] matches exactly
    the text [w] at position [pos], followed by [rest]. *)
Fixpoint matches (r : regex) (pos : nat) (w rest : str) : Prop :=
  match r with
  | Eps => w = []
  | Cls p => ∃ c, w = [c] ∧ p c = true
  | Rep _ lo hi p =>
      forallb p w = true ∧ lo ≤ length w ∧
      match hi with Some h => length w ≤ h | None => True end
  | Seq r1 r2 =>
      ∃ w1 w2, w = w1 ++ w2 ∧ matches r1 pos w1 (w2 ++ rest) ∧
               matches r2 (pos + length w1) w2 rest
  | Alt r1 r2 => matches r1 pos w rest ∨ matches r2 pos w rest
  | Bos => w = [] ∧ pos = 0
  | Eos ml => w = [] ∧ at_end ml rest = true
  end.

(** ** Sample inputs *)
Module Sample.

(** ["第1章..1"]: a TOC row whose title is the bare heading. *)
Definition bare_row : str := [31532; 49; 31456; 46; 46; 49]%N.
Definition bare_heading : str := [31532; 49; 31456]%N.

(** ["第2章 方法 | 第10页"]: a running header. *)
Definition running_header : str :=
  [31532; 50; 31456; 32; 26041; 27861; 32; 124; 32; 31532; 49; 48; 39029]%N.

(** ["第1章 Node.js 入门"] and ["第1章 Node"]. *)
Definition dotted_title : str :=
  [31532; 49; 31456; 32; 78; 111; 100; 101; 46; 106; 115; 32; 20837; 38376]%N.
Definition dotted_title_cut : str := [31532; 49; 31456; 32; 78; 111; 100; 101]%N.

(** ["见第1章"]: a reference to a chapter inside running text. *)
Definition cross_reference : str := [35265; 31532; 49; 31456]%N.

(** ["第1章 总论"] *)
Definition chapter_one : str := [31532; 49; 31456; 32; 24635; 35770]%N.

(** The digit one sixty times between the marker and the unit word. *)
Definition long_heading : str :=
  (31532 :: replicate 60 49 ++ [31456])%N.

Definition tmp_dir : str := [116; 109; 112]%N.
Definition out_dir : str := [111; 117; 116]%N.
Definition ocr_dir : str := [111; 99; 114]%N.
Definition img_path : str := [105; 109; 103; 46; 112; 110; 103]%N.

(** A container whose only page image is [index-5.png]. *)
Definition epub_page5 : archive :=
  [([105; 110; 100; 101; 120; 45; 53; 46; 112; 110; 103]%N, [1]%N)].

(** A container with [a/index-1.png] and [b/index-1.png]. *)
Definition epub_twice : archive :=
  [([97; 47; 105; 110; 100; 101; 120; 45; 49; 46; 112; 110; 103]%N, [1]%N);
   ([98; 47; 105; 110; 100; 101; 120; 45; 49; 46; 112; 110; 103]%N, [2]%N)].

(** A container with [index-1.png] and [index-1.jpg]. *)
Definition epub_two_formats : archive :=
  [([105; 110; 100; 101; 120; 45; 49; 46; 112; 110; 103]%N, [1]%N);
   ([105; 110; 100; 101; 120; 45; 49; 46; 106; 112; 103]%N, [2]%N)].

(** ["out/images/page_0001.png"] and ["out/images/page_0001.jpg"] *)
Definition images_page1_png : str :=
  [111; 117; 116; 47; 105; 109; 97; 103; 101; 115; 47; 112; 97; 103; 101; 95; 48; 48; 48; 49; 46; 112; 110; 103]%N.
Definition images_page1_jpg : str :=
  [111; 117; 116; 47; 105; 109; 97; 103; 101; 115; 47; 112; 97; 103; 101; 95; 48; 48; 48; 49; 46; 106; 112; 103]%N.

(** ["out/page_0001.png"] and ["tmp/page_0005.png"] *)
Definition out_page1 : str :=
  [111; 117; 116; 47; 112; 97; 103; 101; 95; 48; 48; 48; 49; 46; 112; 110; 103]%N.
Definition tmp_page5 : str :=
  [116; 109; 112; 47; 112; 97; 103; 101; 95; 48; 48; 48; 53; 46; 112; 110; 103]%N.

(** ["ocr/page_0001.txt"] *)
Definition ocr_page1 : str :=
  [111; 99; 114; 47; 112; 97; 103; 101; 95; 48; 48; 48; 49; 46; 116; 120; 116]%N.

(** A recognition capability that raises on every call, and one that
    reads the same text on every page. *)
Definition failing : oracle := λ _ _, None.
Definition reading (text : str) : oracle := λ _ _, Some text.

(** A recognition capability that raises on its first call only. *)
Definition flaky (text : str) : oracle :=
  λ n _, match n with 0 => None | S _ => Some text end.

Definition empty_world : world := World ∅ 0 [].

End Sample.

(** What the extraction loop does with one member of the container: the
    page number and output path of an image member, [None] for a member
    that is skipped. *)
Definition member_target (output_dir name : str) : option (N * str) :=
  if is_image_name name then
    (λ page_num, (page_num, path_join output_dir (page_file page_num (suffix name))))
      <$> index_number name
  else None.

(** The files written by the members [names], in order. *)
Definition write_members (epub : archive) (output_dir : str)
    (names : list str) (fs : filesystem) : filesystem :=
  fold_left (λ fs name,
               match member_target output_dir name with
               | Some t => <[t.2 := zip_read epub name]> fs
               | None => fs
               end) names fs.

(** A letter of a word matched without regard to case: the capital, its
    small letter, and for S also the long s (U+017F). *)
Definition same_letter (up c : char) : Prop :=
  c = up ∨ c = (up + 32)%N ∨ (up = 83%N ∧ c = 383%N).

(** A TOC marker token: U+76EE followed by U+5F55 or by U+6B21, with any
    run of whitespace between the two, or the word CONTENTS in any letter
    case. *)
Definition toc_marker_token (w : str) : Prop :=
  (∃ ws, forallb is_space ws = true ∧
         (w = Ch.mu :: ws ++ [Ch.lu] ∨ w = Ch.mu :: ws ++ [Ch.ci])) ∨
  Forall2 same_letter [67; 79; 78; 84; 69; 78; 84; 83]%N w.

Definition contains_toc_marker (text : str) : Prop :=
  ∃ pre w post, text = pre ++ w ++ post ∧ toc_marker_token w.

(** A line ends in a trailing numeric token: once the whitespace at its
    end is dropped, its last character is a digit and at least one more
    character stands before it. *)
Definition ends_in_number (line : str) : bool :=
  let t := rstrip line in
  (2 <=? length t) && from_option is_digit false (last t).

(** The number of lines of a text that end in a trailing numeric token. *)
Definition numbered_lines (text : str) : nat :=
  length (List.filter ends_in_number (split Ch.nl text)).

(** The same count for what follows the end of a line. *)
Definition lines_after (rest : str) : nat :=
  match rest with
  | [] => 0
  | _ :: s => numbered_lines s
  end.

(** ** The examples of the specification *)
Module SpecExample.

(** two rows under the marker U+76EE U+5F55 *)
Definition toc_page : str :=
  [30446; 24405; 10; 31532; 19968; 31456; 32; 24341; 35328; 46; 46; 46; 46;
   46; 46; 46; 46; 46; 46; 32; 49; 10; 31532; 20108; 31456; 32; 26041;
   27861; 46; 46; 46; 46; 46; 46; 46; 46; 46; 46; 32; 49; 48]%N.

(** a page that opens with a chapter heading *)
Definition chapter_page : str :=
  [31532; 51; 31456; 32; 23454; 39564; 32467; 26524; 10; 26412; 31456;
   35752; 35770; 46; 46; 46]%N.

(** running text *)
Definition content_page : str :=
  [36825; 26159; 27491; 25991; 30340; 19968; 37096; 20998; 65292; 27809;
   26377; 26631; 39064; 29305; 24449]%N.

(** a TOC row with two spaces and a run of ellipses *)
Definition raw_row : str :=
  [31532; 19968; 31456; 32; 32; 32490; 35770; 8230; 8230; 8230; 8230; 8230;
   8230; 32; 51]%N.

(** its normalized title *)
Definition clean_row : str :=
  [31532; 19968; 31456; 32; 32490; 35770]%N.

(** the heading of [chapter_page] with the joined second line *)
Definition chapter_page_title : str :=
  [31532; 51; 31456; 32; 23454; 39564; 32467; 26524; 32; 26412; 31456;
   35752; 35770]%N.

End SpecExample.

(** The text up to the first two adjacent ellipsis-or-dot characters. *)
Fixpoint cut_dots (s : str) : str :=
  match s with
  | c1 :: s' =>
      match s' with
      | c2 :: _ => if dots c1 && dots c2 then [] else c1 :: cut_dots s'
      | [] => [c1]
      end
  | [] => []
  end.

(** ** Resuming from images extracted earlier

    Step 1 of [process_pages] in epub_extractor.py and
    extract_epub_enhanced.py, when the image directory already holds
    [page_*.png] or [page_*.jpg] files. *)
Module Resume.

(** [page_(\d+)] *)
Definition page_re : regex :=
  Seq (word [112; 97; 103; 101; 95]%N) (plus is_digit).

(** [int(re.search(r'page_(\d+)', img_path.name).group(1))] *)
Definition page_number (name : str) : option N :=
  (λ m, int_of (drop 5 m)) <$> re_search page_re name.

(** The loop [for img_path in sorted(existing_images)] and the sort that
    follows it.  [existing] holds, in sorted order, [img_path.name] and
    [str(img_path)] of each path found. *)
Definition image_files_of (existing : list (str * str)) : list (N * str) :=
  sort_pages (omap (λ e, (λ page_num, (page_num, e.2)) <$> page_number e.1)
                   existing).

End Resume.

(** A character that is no whitespace, no dot or ellipsis and no opening
    parenthesis: none of the cleaning patterns can start at it. *)
Definition solid (c : char) : bool :=
  negb (is_space c) && negb (dots c) && negb (N.eqb c Ch.lparen).

(** A text that opens with a heading: the ordinal marker U+7B2C, one or
    more numerals (U+96F6 included) and a unit word of the class [unit]. *)
Definition opens_with_heading (unit : char → bool) (t : str) : Prop :=
  ∃ nums u tail,
    t = Ch.di :: nums ++ u :: tail ∧ nums ≠ [] ∧
    forallb (λ c, numeral c || N.eqb c Ch.ling) nums = true ∧ unit u = true.

(** The pages of a list that lie in the range of a run. *)
Definition in_range (start_page end_page : N) (l : list (N * str))
    : list (N * str) :=
  List.filter (λ e, negb ((e.1 <? start_page)%N || (end_page <? e.1)%N)) l.

(** A cleaning step that leaves a prefix of solid characters in place. *)
Definition keeps_prefix (f : str → str) : Prop :=
  ∀ pre s, forallb solid pre = true → ∃ s', f (pre ++ s) = pre ++ s'.

(** The word [index-] that precedes the page number in a member name. *)
Definition index_word : str := [105; 110; 100; 101; 120; 45]%N.

(** A member name with one of the three image suffixes, in any letter
    case. *)
Definition has_image_suffix (name : str) : Prop :=
  ∃ stem e, name = stem ++ e ∧ lower <$> e ∈ [ext_png; ext_jpg; ext_jpeg].

(** A member name that holds [index-] followed by a digit. *)
Definition has_index (name : str) : Prop :=
  ∃ pre d post, name = pre ++ index_word ++ d :: post ∧ is_digit d = true.

(** The text up to the first ellipsis-or-dot character. *)
Fixpoint cut_dot (s : str) : str :=
  match s with
  | c :: s' => if dots c then [] else c :: cut_dot s'
  | [] => []
  end.

(** A text with no two adjacent ellipsis-or-dot characters. *)
Definition no_dot_run (t : str) : Prop :=
  ∀ pre c1 c2 post, t = pre ++ c1 :: c2 :: post → dots c1 && dots c2 = false.

(** ** Page texts on which the scripts disagree *)
Module Pages.

(** ["CONTENTS"], a newline and ["第1章 总论"]. *)
Definition contents : str :=
  [67; 79; 78; 84; 69; 78; 84; 83; 10; 31532; 49; 31456; 32; 24635; 35770]%N.

(** Five lines, each a letter, a space and a digit. *)
Definition numbered : str :=
  [97; 32; 49; 10; 98; 32; 50; 10; 99; 32; 51; 10; 100; 32; 52; 10;
   101; 32; 53]%N.

(** U+76EE U+5F55, a newline and ["第1章 总论"]. *)
Definition toc_one : str :=
  [30446; 24405; 10; 31532; 49; 31456; 32; 24635; 35770]%N.

(** U+76EE U+5F55 *)
Definition toc_word : str := [30446; 24405]%N.

End Pages.

(** * Properties *)

(** ** The matcher finds exactly what the patterns denote *)

Section Matcher.
Context {A : Type}.
Implicit Types (k : nat → str → option A) (s w rest : str).

Lemma rep_sound g p s : ∀ lo hi pos k v,
  rep g p lo hi pos s k = Some v →
  ∃ w rest, s = w ++ rest ∧ forallb p w = true ∧ lo ≤ length w ∧
            match hi with Some h => length w ≤ h | None => True end ∧
            k (pos + length w) rest = Some v.
Proof.
  induction s as [|c s IH]; intros lo hi pos k v H; simpl in H.
  - destruct lo; [|done]. exists [], []. rewrite Nat.add_0_r.
    repeat split; simpl; auto; try lia. by destruct hi; simpl; try lia.
  - assert (Hstop : match lo with 0 => k pos (c :: s) | S _ => None end = Some v →
              ∃ w rest, c :: s = w ++ rest ∧ forallb p w = true ∧ lo ≤ length w ∧
                match hi with Some h => length w ≤ h | None => True end ∧
                k (pos + length w) rest = Some v).
    { intros Hk. destruct lo; [|done]. exists [], (c :: s).
      rewrite Nat.add_0_r. repeat split; simpl; auto.
      by destruct hi; simpl; try lia. }
    assert (Hmore : p c && room hi = true →
              rep g p (pred lo) (pred <$> hi) (S pos) s k = Some v →
              ∃ w rest, c :: s = w ++ rest ∧ forallb p w = true ∧ lo ≤ length w ∧
                match hi with Some h => length w ≤ h | None => True end ∧
                k (pos + length w) rest = Some v).
    { intros Hc Hr. apply andb_true_iff in Hc as [Hpc Hroom].
      apply IH in Hr as (w & rest & -> & Hw & Hlo & Hhi & Hk).
      exists (c :: w), rest. simpl. rewrite Hpc, Hw.
      replace (pos + S (length w)) with (S pos + length w) by lia.
      repeat split; auto; try lia.
      destruct hi as [[|h]|]; simpl in *; try done; lia. }
    destruct (p c && room hi) eqn:Hc; [|by apply Hstop].
    destruct g.
    + destruct (rep true p (pred lo) (pred <$> hi) (S pos) s k) eqn:Hr.
      * inversion H; subst. by apply Hmore.
      * by apply Hstop.
    + destruct (match lo with 0 => k pos (c :: s) | S _ => None end) eqn:Hs.
      * inversion H; subst. by apply Hstop.
      * by apply Hmore.
Qed.

Lemma rep_complete g p w : ∀ rest lo hi pos k,
  forallb p w = true → lo ≤ length w →
  match hi with Some h => length w ≤ h | None => True end →
  is_Some (k (pos + length w) rest) →
  is_Some (rep g p lo hi pos (w ++ rest) k).
Proof.
  induction w as [|c w IH]; intros rest lo hi pos k Hw Hlo Hhi Hk; simpl in *.
  - rewrite Nat.add_0_r in Hk. assert (lo = 0) as -> by lia.
    destruct rest as [|c s]; simpl; [done|].
    destruct (p c && room hi); [|done].
    destruct g.
    + by destruct (rep true p _ _ _ s k).
    + destruct Hk as [x Hx]. by rewrite Hx.
  - apply andb_true_iff in Hw as [Hpc Hw].
    assert (room hi = true) as Hroom
      by (destruct hi as [[|h]|]; simpl in *; auto; lia).
    rewrite Hpc, Hroom. simpl.
    assert (is_Some (rep g p (pred lo) (pred <$> hi) (S pos) (w ++ rest) k)) as [x Hx].
    { apply IH; auto; try lia.
      - destruct hi as [h|]; simpl in *; auto; lia.
      - by replace (S pos + length w) with (pos + S (length w)) by lia. }
    destruct g.
    + by rewrite Hx.
    + destruct (match lo with 0 => _ | S _ => None end); [done|]. by rewrite Hx.
Qed.

Lemma rmatch_sound r : ∀ pos s k v,
  rmatch r pos s k = Some v →
  ∃ w rest, s = w ++ rest ∧ matches r pos w rest ∧
            k (pos + length w) rest = Some v.
Proof.
  induction r as [|p|g lo hi p|r1 IH1 r2 IH2|r1 IH1 r2 IH2| |ml];
    intros pos s k v H; simpl in H.
  - exists [], s. by rewrite Nat.add_0_r.
  - destruct s as [|c s]; [done|]. destruct (p c) eqn:Hp; [|done].
    exists [c], s. simpl. replace (pos + 1) with (S pos) by lia. eauto.
  - apply rep_sound in H as (w & rest & -> & ? & ? & ? & ?).
    exists w, rest. simpl. auto.
  - apply IH1 in H as (w1 & rest1 & -> & H1 & H).
    apply IH2 in H as (w2 & rest & -> & H2 & H).
    exists (w1 ++ w2), rest. rewrite <- app_assoc, length_app, Nat.add_assoc.
    repeat split; auto. simpl. eauto.
  - unfold or_else in H. destruct (rmatch r1 pos s k) eqn:H1.
    + inversion H; subst. apply IH1 in H1 as (w & rest & ? & ? & ?).
      exists w, rest. simpl. auto.
    + apply IH2 in H as (w & rest & ? & ? & ?). exists w, rest. simpl. auto.
  - destruct pos; [|done]. exists [], s. simpl. auto.
  - destruct (at_end ml s) eqn:He; [|done]. exists [], s.
    rewrite Nat.add_0_r. simpl. auto.
Qed.

Lemma rmatch_complete r : ∀ pos w rest k,
  matches r pos w rest → is_Some (k (pos + length w) rest) →
  is_Some (rmatch r pos (w ++ rest) k).
Proof.
  induction r as [|p|g lo hi p|r1 IH1 r2 IH2|r1 IH1 r2 IH2| |ml];
    intros pos w rest k Hm Hk; simpl in Hm.
  - subst. simpl in *. by rewrite Nat.add_0_r in Hk.
  - destruct Hm as (c & -> & Hp). simpl in *. rewrite Hp.
    by replace (pos + 1) with (S pos) in Hk by lia.
  - destruct Hm as (? & ? & ?). simpl. by apply rep_complete.
  - destruct Hm as (w1 & w2 & -> & H1 & H2). simpl. rewrite <- app_assoc.
    apply IH1; [done|]. apply IH2; [done|].
    by rewrite length_app, Nat.add_assoc in Hk.
  - simpl. unfold or_else. destruct Hm as [H1|H2].
    + destruct (IH1 _ _ _ _ H1 Hk) as [x ->]. done.
    + destruct (rmatch r1 pos (w ++ rest) k); [done|]. by apply IH2.
  - destruct Hm as [-> ->]. simpl in *. done.
  - destruct Hm as [-> He]. simpl in *. rewrite He.
    by rewrite Nat.add_0_r in Hk.
Qed.

End Matcher.

Lemma match_at_sound r pos s e :
  match_at r pos s = Some e →
  ∃ w rest, s = w ++ rest ∧ matches r pos w rest ∧ e = pos + length w.
Proof.
  intros H. apply rmatch_sound in H as (w & rest & ? & ? & [= <-]). eauto.
Qed.

Lemma match_at_complete r pos w rest :
  matches r pos w rest → is_Some (match_at r pos (w ++ rest)).
Proof. intros H. by apply rmatch_complete. Qed.

Lemma match_at_none r pos s :
  match_at r pos s = None →
  ∀ w rest, s = w ++ rest → ¬ matches r pos w rest.
Proof.
  intros H w rest -> Hm. apply (match_at_complete r pos w rest) in Hm as [e He].
  congruence.
Qed.

(** [re.search] succeeds exactly when the pattern matches somewhere. *)
Lemma search_from_some r s : ∀ pos,
  is_Some (search_from r pos s) ↔
  ∃ pre w rest, s = pre ++ w ++ rest ∧ matches r (pos + length pre) w rest.
Proof.
  induction s as [|c s IH]; intros pos; simpl.
  - destruct (match_at r pos []) eqn:Hm.
    + split; [|by eauto]. intros _.
      apply match_at_sound in Hm as (w & rest & -> & Hw & _).
      exists [], w, rest. simpl. by rewrite Nat.add_0_r.
    + split; [by intros [? ?]|]. intros (pre & w & rest & Heq & Hw).
      destruct pre; [|done]. simpl in *. rewrite Nat.add_0_r in Hw.
      by apply (match_at_none _ _ _ Hm w rest) in Hw.
  - destruct (match_at r pos (c :: s)) eqn:Hm.
    + split; [|by eauto]. intros _.
      apply match_at_sound in Hm as (w & rest & -> & Hw & _).
      exists [], w, rest. simpl. by rewrite Nat.add_0_r.
    + rewrite IH. split.
      * intros (pre & w & rest & -> & Hw). exists (c :: pre), w, rest.
        simpl. by replace (pos + S (length pre)) with (S pos + length pre) by lia.
      * intros (pre & w & rest & Heq & Hw). destruct pre as [|c' pre].
        -- simpl in *. rewrite Nat.add_0_r in Hw.
           by apply (match_at_none _ _ _ Hm w rest) in Hw.
        -- simpl in Heq. injection Heq as -> ->. exists pre, w, rest.
           split; [done|]. simpl in Hw.
           by replace (S pos + length pre) with (pos + S (length pre)) by lia.
Qed.

(** ** Order-preserving removal of duplicates *)

Lemma unique_fold l : ∀ seen acc,
  (∀ x, x ∈ seen ↔ x ∈ acc) → NoDup acc →
  let r := fold_left unique_step l (seen, acc) in
  (∀ x, x ∈ r.1 ↔ x ∈ r.2) ∧ NoDup r.2 ∧
  (∀ x, x ∈ r.2 ↔ x ∈ acc ∨ x ∈ l) ∧ ∃ ext, r.2 = acc ++ ext.
Proof.
  induction l as [|a l IH]; intros seen acc Hseen Hnd; simpl.
  - split; [done|]. split; [done|]. split.
    + intros x. rewrite elem_of_nil. tauto.
    + exists []. by rewrite app_nil_r.
  - assert (Hstep : unique_step (seen, acc) a =
              if decide (a ∈ seen) then (seen, acc)
              else ({[a]} ∪ seen, acc ++ [a])) by done.
    rewrite Hstep. clear Hstep. destruct (decide (a ∈ seen)) as [Hin|Hin].
    + destruct (IH seen acc Hseen Hnd) as (H1 & H2 & H3 & H4).
      split; [done|]. split; [done|]. split; [|done].
      intros x. rewrite H3, elem_of_cons. split; [tauto|].
      intros [H|[->|H]]; auto. left. by apply Hseen.
    + assert (Hseen' : ∀ x, x ∈ ({[a]} ∪ seen : gset str) ↔ x ∈ acc ++ [a]).
      { intros x. rewrite elem_of_union, elem_of_singleton, elem_of_app,
          list_elem_of_singleton, Hseen. tauto. }
      assert (Hnd' : NoDup (acc ++ [a])).
      { apply NoDup_app. split; [done|]. split; [|apply NoDup_singleton].
        intros x Hx Hx'. apply list_elem_of_singleton in Hx' as ->.
        by apply Hin, Hseen. }
      destruct (IH _ _ Hseen' Hnd') as (H1 & H2 & H3 & ext & H4).
      split; [done|]. split; [done|]. split.
      * intros x. rewrite H3, elem_of_app, list_elem_of_singleton, elem_of_cons.
        tauto.
      * exists (a :: ext). by rewrite H4, <- app_assoc.
Qed.

Lemma unique_NoDup l : NoDup (unique l).
Proof.
  apply (unique_fold l ∅ []); [|constructor].
  intros x. split; intros H; [by apply elem_of_empty in H|by apply elem_of_nil in H].
Qed.

Lemma unique_elem l x : x ∈ unique l ↔ x ∈ l.
Proof.
  destruct (unique_fold l ∅ []) as (_ & _ & H & _); [|constructor|].
  - intros y. split; intros Hy; [by apply elem_of_empty in Hy|by apply elem_of_nil in Hy].
  - unfold unique. rewrite H. split; [|auto]. intros [Hx|Hx]; [|done].
    by apply elem_of_nil in Hx.
Qed.

(** The first occurrence of a title fixes its place: it comes right after
    the distinct titles produced before it, whatever follows. *)
Lemma unique_first_occurrence pre x post :
  x ∉ pre → ∃ rest, unique (pre ++ x :: post) = unique pre ++ x :: rest.
Proof.
  intros Hx. unfold unique. rewrite fold_left_app. simpl.
  destruct (unique_fold pre ∅ []) as (H1 & H2 & H3 & _); [|constructor|].
  { intros y. split; intros Hy; [by apply elem_of_empty in Hy|by apply elem_of_nil in Hy]. }
  set (st := fold_left unique_step pre (∅, [])) in *. simpl in *.
  assert (x ∉ st.1) as Hst.
  { intros Hin. apply H1, H3 in Hin as [Hin|Hin]; [by apply elem_of_nil in Hin|done]. }
  unfold unique_step at 2. destruct (decide (x ∈ st.1)); [done|].
  destruct (unique_fold post ({[x]} ∪ st.1) (st.2 ++ [x])) as (_ & _ & _ & ext & H4).
  - intros y. rewrite elem_of_union, elem_of_singleton, elem_of_app,
      list_elem_of_singleton, H1. tauto.
  - apply NoDup_app. repeat split; auto.
    + intros y Hy Hy'. apply list_elem_of_singleton in Hy' as ->. by apply Hst, H1.
    + apply NoDup_singleton.
  - exists ext. simpl in H4. by rewrite H4, <- app_assoc.
Qed.

(** The two scans that end with the seen-set loop, [scan_for_toc] of
    extract_toc.py and [find_toc_and_extract_chapters] of
    parse_epub_ocr_v2.py, return a list that holds no title twice, holds
    exactly the titles produced during the scan, and keeps a title produced
    more than once at the place of its first occurrence in scan order:
    right after the distinct titles produced before it. *)
Theorem scan_result_deduplicated (tess : oracle) (n : nat)
    (image_files : list (N * str)) (paths : list str) (max_pages : nat) :
  let all1 := ExtractToc.scan_loop tess n (take max_pages image_files) [] in
  let all2 := ParseEpubOcrV2.scan_loop tess n (take max_pages paths) [] in
  let r1 := ExtractToc.scan_for_toc tess n image_files max_pages in
  let r2 := ParseEpubOcrV2.find_toc_and_extract_chapters tess n paths max_pages in
  (NoDup r1 ∧ NoDup r2) ∧
  (∀ x, (x ∈ r1 ↔ x ∈ all1) ∧ (x ∈ r2 ↔ x ∈ all2)) ∧
  (∀ pre x post, all1 = pre ++ x :: post → x ∉ pre →
     ∃ rest, r1 = unique pre ++ x :: rest) ∧
  (∀ pre x post, all2 = pre ++ x :: post → x ∉ pre →
     ∃ rest, r2 = unique pre ++ x :: rest).
Proof.
  simpl. unfold ExtractToc.scan_for_toc, ParseEpubOcrV2.find_toc_and_extract_chapters.
  repeat split; try apply unique_NoDup; try apply unique_elem.
  - intros pre x post -> Hx. by apply unique_first_occurrence.
  - intros pre x post -> Hx. by apply unique_first_occurrence.
Qed.


(** C5.  The other scans have no such loop.  When two pages are
    recognised as the same TOC text, [find_toc_pages] of parse_epub_ocr.py
    returns each title of that text twice, where [scan_for_toc] and
    [find_toc_and_extract_chapters] return it once; and when two pages
    open with the same heading, both full scans record that title twice. *)
Theorem scan_repeats_title :
  let toc := Sample.reading Pages.toc_one in
  let chapter := Sample.reading Sample.chapter_one in
  let paths := [Sample.out_page1; Sample.tmp_page5] in
  let pages := [(1%N, Sample.out_page1); (5%N, Sample.tmp_page5)] in
  ParseEpubOcr.find_toc_pages toc 0 paths 20
    = [Sample.chapter_one; Pages.toc_word; Sample.chapter_one; Pages.toc_word] ∧
  ¬ NoDup (ParseEpubOcr.find_toc_pages toc 0 paths 20) ∧
  ExtractToc.scan_for_toc toc 0 pages 30 = [Sample.chapter_one] ∧
  ParseEpubOcrV2.find_toc_and_extract_chapters toc 0 paths 25
    = [Sample.chapter_one] ∧
  ScanChapters.scan_all_pages chapter 0 pages
    = [(1%N, Sample.chapter_one); (5%N, Sample.chapter_one)] ∧
  ParseEpubOcr.scan_all_pages_for_chapters chapter 0 paths
    = [(1%N, Sample.chapter_one); (2%N, Sample.chapter_one)].
Proof.
  assert (H : ParseEpubOcr.find_toc_pages (Sample.reading Pages.toc_one) 0
                [Sample.out_page1; Sample.tmp_page5] 20
              = [Sample.chapter_one; Pages.toc_word;
                 Sample.chapter_one; Pages.toc_word]) by (by vm_compute).
  cbv zeta. split; [exact H|]. split.
  - rewrite H. intros Hnd. apply NoDup_cons in Hnd as [Hnd _].
    apply Hnd. right. by left.
  - split; [by vm_compute|]. split; [by vm_compute|].
    split; by vm_compute.
Qed.

(** ** The recognition cache *)

(** A persisted result is read back and nothing is recognised. *)
Lemma ocr_single_page_hit tess image_path ocr_dir page_num w content :
  files w !! page_txt ocr_dir page_num = Some content →
  EpubExtractor.ocr_single_page tess image_path ocr_dir page_num w
    = (read_text content, w).
Proof. intros H. unfold EpubExtractor.ocr_single_page. by rewrite H. Qed.

(** After a successful recognition the text is persisted, and the next
    request is a hit: the text read back, no further invocation. *)
Lemma ocr_single_page_success_twice tess image_path ocr_dir page_num w text :
  files w !! page_txt ocr_dir page_num = None →
  tess (calls w) image_path = Some text →
  let r1 := EpubExtractor.ocr_single_page tess image_path ocr_dir page_num w in
  let r2 := EpubExtractor.ocr_single_page tess image_path ocr_dir page_num r1.2 in
  r1.1 = text ∧ r2.1 = read_text text ∧ calls r2.2 = S (calls w) ∧
  files r2.2 !! page_txt ocr_dir page_num = Some text.
Proof.
  intros Hnone Hsome. simpl. unfold EpubExtractor.ocr_single_page.
  rewrite Hnone, Hsome. simpl. rewrite lookup_insert_eq. simpl.
  by rewrite lookup_insert_eq.
Qed.

(** When recognition raises, [ocr_single_page] leaves the cache as it was:
    nothing is persisted for the page. *)
Lemma ocr_single_page_failure tess image_path ocr_dir page_num w :
  files w !! page_txt ocr_dir page_num = None →
  tess (calls w) image_path = None →
  EpubExtractor.ocr_single_page tess image_path ocr_dir page_num w =
    ([], World (files w) (S (calls w)) (out w ++ [OcrFailed])).
Proof.
  intros Hnone Hfail. unfold EpubExtractor.ocr_single_page.
  by rewrite Hnone, Hfail.
Qed.

(** C1.  On a page whose recognition raises, two successive calls of
    [epub_extractor.ocr_single_page] invoke the recognition capability
    twice: the failed result is not persisted, so the second call is no
    cache hit.  Both calls return the empty string when the capability
    raises again, and different texts when its second attempt succeeds. *)
Theorem recognize_twice_after_failure :
  let r1 := EpubExtractor.ocr_single_page Sample.failing Sample.img_path
              Sample.ocr_dir 1 Sample.empty_world in
  let r2 := EpubExtractor.ocr_single_page Sample.failing Sample.img_path
              Sample.ocr_dir 1 r1.2 in
  let f1 := EpubExtractor.ocr_single_page (Sample.flaky Sample.chapter_one)
              Sample.img_path Sample.ocr_dir 1 Sample.empty_world in
  let f2 := EpubExtractor.ocr_single_page (Sample.flaky Sample.chapter_one)
              Sample.img_path Sample.ocr_dir 1 f1.2 in
  (r1.1 = [] ∧ r2.1 = [] ∧ calls r1.2 = 1 ∧ calls r2.2 = 2) ∧
  (f1.1 = [] ∧ f2.1 = Sample.chapter_one ∧ calls f2.2 = 2).
Proof. by vm_compute. Qed.

(** C2.  On a page whose recognition raises, [epub_extractor.ocr_single_page]
    returns the empty string and prints the warning, but persists nothing
    under the page's number, whereas the loop of
    [extract_epub_enhanced.process_pages] persists the empty string. *)
Theorem failure_not_persisted :
  let r := EpubExtractor.ocr_single_page Sample.failing Sample.img_path
             Sample.ocr_dir 1 Sample.empty_world in
  let w := ExtractEpubEnhanced.process_pages Sample.failing
             [(1%N, Sample.img_path)] Sample.ocr_dir 1 20 Sample.empty_world in
  r.1 = [] ∧ out r.2 = [OcrFailed] ∧
  files r.2 !! Sample.ocr_page1 = None ∧
  page_txt Sample.ocr_dir 1 = Sample.ocr_page1 ∧
  files w !! Sample.ocr_page1 = Some [] ∧ out w = [OcrFailed; PageDone 1].
Proof. by vm_compute. Qed.

(** ** Titles kept by extract_chapters.py *)

Lemma fold_left_Forall {A B} (P : A → Prop) (f : list A → B → list A) bs :
  (∀ acc b, Forall P acc → Forall P (f acc b)) →
  ∀ acc, Forall P acc → Forall P (fold_left f bs acc).
Proof.
  intros Hf. induction bs as [|b bs IH]; intros acc Hacc; simpl; [done|].
  apply IH, Hf, Hacc.
Qed.

Lemma add_match_kept chapters m :
  let P := λ t : str, 3 < length t < 50 ∧ mem Ch.bar t = false in
  Forall P chapters → Forall P (ExtractChapters.add_match chapters m).
Proof.
  intros P H. unfold ExtractChapters.add_match.
  destruct (negb (str_eqb _ []) && (3 <? _) && negb (in_list _ chapters)) eqn:E1;
    [|done].
  destruct (negb (mem Ch.bar _) && (_ <? 50)) eqn:E2; [|done].
  apply Forall_app. split; [done|]. apply Forall_singleton.
  apply andb_true_iff in E1 as [E1 _]. apply andb_true_iff in E1 as [_ E1].
  apply andb_true_iff in E2 as [E2 E3].
  apply Nat.ltb_lt in E1. apply Nat.ltb_lt in E3. apply negb_true_iff in E2.
  by repeat split.
Qed.

Lemma extract_chapters_kept texts :
  Forall (λ t : str, 3 < length t < 50 ∧ mem Ch.bar t = false)
         (ExtractChapters.extract_chapters_from_ocr texts).
Proof.
  unfold ExtractChapters.extract_chapters_from_ocr.
  apply fold_left_Forall; [|constructor]. intros acc text Hacc.
  unfold ExtractChapters.add_file. apply fold_left_Forall; [|done].
  intros acc' m. apply add_match_kept.
Qed.

Lemma mem_false_not_elem c (s : str) : mem c s = false → c ∉ s.
Proof.
  unfold mem. induction s as [|x s IH]; simpl; intros H Hin.
  - by apply elem_of_nil in Hin.
  - apply orb_false_iff in H as [Hx Hs]. apply elem_of_cons in Hin as [->|Hin].
    + by rewrite N.eqb_refl in Hx.
    + by apply IH.
Qed.

(** C10.  Every title kept by [extract_chapters_from_ocr] is shorter than
    50 characters, and a match whose cleaned form has 50 characters or
    more is dropped. *)
Theorem kept_titles_below_50 :
  (∀ texts t, t ∈ ExtractChapters.extract_chapters_from_ocr texts →
              length t < 50) ∧
  (∀ chapters m, 50 ≤ length (ExtractChapters.clean m) →
                 ExtractChapters.add_match chapters m = chapters).
Proof.
  split.
  - intros texts t Ht.
    pose proof (extract_chapters_kept texts) as H.
    rewrite Forall_forall in H. apply H in Ht. lia.
  - intros chapters m Hlen. unfold ExtractChapters.add_match.
    destruct (negb (str_eqb _ []) && (3 <? _) && negb (in_list _ chapters));
      [|done].
    assert ((length (ExtractChapters.clean m) <? 50) = false) as ->
      by (apply Nat.ltb_ge; lia).
    by rewrite andb_false_r.
Qed.

(** The bound is not vacuous: a heading with sixty digits is matched by
    the pattern whole, and dropped for its length. *)
Lemma long_heading_matched :
  findall ExtractChapters.pattern Sample.long_heading = [Sample.long_heading].
Proof. by vm_compute. Qed.

Lemma kept_titles_below_50_witness :
  50 ≤ length (ExtractChapters.clean Sample.long_heading) ∧
  ExtractChapters.add_match [] Sample.long_heading = [].
Proof.
  assert (H : 50 ≤ length (ExtractChapters.clean Sample.long_heading))
    by (vm_compute; lia).
  split; [exact H|].
  exact (proj2 kept_titles_below_50 [] Sample.long_heading H).
Defined.

(** The titles kept by [extract_chapters_from_ocr] also have at least four
    characters and no vertical bar. *)
Lemma extract_chapters_floor_and_bar texts t :
  t ∈ ExtractChapters.extract_chapters_from_ocr texts →
  4 ≤ length t ∧ Ch.bar ∉ t.
Proof.
  intros Ht. pose proof (extract_chapters_kept texts) as H.
  rewrite Forall_forall in H. apply H in Ht as [? ?].
  split; [lia|]. by apply mem_false_not_elem.
Qed.

(** C7.  [extract_toc_entries] emits the three-character title of a TOC
    row that holds a bare heading, and [extract_chapter_titles_clean] emits
    a title that contains a vertical bar. *)
Theorem short_and_barred_titles_emitted :
  ExtractToc.extract_toc_entries Sample.bare_row = [Sample.bare_heading] ∧
  length Sample.bare_heading = 3 ∧
  ParseEpubOcrV2.extract_chapter_titles_clean Sample.running_header
    = [Sample.running_header] ∧
  Ch.bar ∈ Sample.running_header.
Proof.
  split; [by vm_compute|]. split; [done|]. split; [by vm_compute|].
  unfold Sample.running_header, Ch.bar. set_solver.
Qed.

(** C6.  [extract_chapters_from_ocr] and [extract_toc_entries] cut a title
    at a single dot; [extract_chapter_titles_clean] keeps it whole. *)
Theorem single_dot_truncates :
  ExtractChapters.extract_chapters_from_ocr [Sample.dotted_title]
    = [Sample.dotted_title_cut] ∧
  ExtractToc.extract_toc_entries Sample.dotted_title
    = [Sample.dotted_title_cut] ∧
  ParseEpubOcrV2.extract_chapter_titles_clean Sample.dotted_title
    = [Sample.dotted_title].
Proof. by vm_compute. Qed.

(** C3.  [extract_chapter_from_page] of scan_chapters.py reports a chapter
    start for a page that opens with a reference to a chapter, the marker
    not being at the start of the joined first lines; the full scan of
    parse_epub_ocr.py does not. *)
Theorem unanchored_chapter_start :
  ScanChapters.first_lines Sample.cross_reference = Sample.cross_reference ∧
  ScanChapters.truthy (ScanChapters.extract_chapter_from_page Sample.cross_reference)
    = Some Sample.bare_heading ∧
  ParseEpubOcr.chapter_start Sample.cross_reference = None.
Proof. by vm_compute. Qed.

(** C8.  For a store whose only page has number 5, the fallback scan of
    parse_epub_ocr.py records the chapter under 1, the position of the page
    in the iteration; [scan_all_pages] of scan_chapters.py records it under
    5. *)
Theorem full_scan_records_position :
  let tess := Sample.reading Sample.chapter_one in
  (extract_images Sample.epub_page5 Sample.tmp_dir ∅).2
    = [(5%N, Sample.tmp_page5)] ∧
  ParseEpubOcr.main tess Sample.epub_page5 Sample.tmp_dir
    = ParseEpubOcr.FromFullScan [(1%N, Sample.chapter_one)] ∧
  ScanChapters.scan_all_pages tess 0 [(5%N, Sample.tmp_page5)]
    = [(5%N, Sample.chapter_one)].
Proof. by vm_compute. Qed.

(** ** The page store built from a container *)

Lemma extract_member_target epub output_dir st name :
  extract_member epub output_dir st name =
    match member_target output_dir name with
    | Some t => (<[t.2 := zip_read epub name]> st.1, st.2 ++ [t])
    | None => st
    end.
Proof.
  unfold extract_member, member_target.
  destruct (is_image_name name); [|done]. by destruct (index_number name).
Qed.

Lemma extract_fold epub output_dir names : ∀ fs acc,
  fold_left (extract_member epub output_dir) names (fs, acc) =
    (write_members epub output_dir names fs,
     acc ++ omap (member_target output_dir) names).
Proof.
  unfold write_members.
  induction names as [|name names IH]; intros fs acc; simpl.
  - by rewrite app_nil_r.
  - rewrite extract_member_target. simpl.
    destruct (member_target output_dir name) as [t|]; rewrite IH; [|done].
    by rewrite <- app_assoc.
Qed.

Lemma write_members_untouched epub output_dir names : ∀ fs p,
  (∀ name t, name ∈ names → member_target output_dir name = Some t → t.2 ≠ p) →
  write_members epub output_dir names fs !! p = fs !! p.
Proof.
  unfold write_members.
  induction names as [|name names IH]; intros fs p H; simpl; [done|].
  rewrite IH.
  - destruct (member_target output_dir name) as [t|] eqn:Ht; [|done].
    apply lookup_insert_ne. apply (H name); [by left|done].
  - intros name' t' Hin. apply H. by right.
Qed.

Lemma write_members_app epub output_dir l1 l2 fs :
  write_members epub output_dir (l1 ++ l2) fs
    = write_members epub output_dir l2 (write_members epub output_dir l1 fs).
Proof. unfold write_members. apply fold_left_app. Qed.

Lemma write_members_last epub output_dir l1 name l2 fs t :
  member_target output_dir name = Some t →
  (∀ name' t', name' ∈ l2 → member_target output_dir name' = Some t' → t'.2 ≠ t.2) →
  write_members epub output_dir (l1 ++ name :: l2) fs !! t.2
    = Some (zip_read epub name).
Proof.
  intros Ht Hlater.
  change (name :: l2) with ([name] ++ l2). rewrite !write_members_app.
  rewrite write_members_untouched; [|done].
  unfold write_members at 1. simpl. rewrite Ht. apply lookup_insert_eq.
Qed.

Lemma insert_page_perm {A} (x : N * A) l : insert_page x l ≡ₚ x :: l.
Proof.
  induction l as [|y l IH]; simpl; [done|].
  destruct (y.1 <? x.1)%N; [|done]. rewrite IH. apply Permutation_swap.
Qed.

Lemma sort_pages_perm {A} (l : list (N * A)) : sort_pages l ≡ₚ l.
Proof.
  induction l as [|x l IH]; simpl; [done|].
  unfold sort_pages in *. simpl. by rewrite insert_page_perm, IH.
Qed.

Lemma insert_page_sorted {A} (x : N * A) l :
  Sorted (λ a b, (a.1 ≤ b.1)%N) l →
  Sorted (λ a b, (a.1 ≤ b.1)%N) (insert_page x l).
Proof.
  induction 1 as [|y l Hs IH Hhd]; simpl.
  - by repeat constructor.
  - destruct (y.1 <? x.1)%N eqn:E.
    + apply N.ltb_lt in E. constructor; [done|].
      destruct l as [|z l]; simpl in *.
      * constructor. lia.
      * destruct (z.1 <? x.1)%N; constructor; [|lia].
        by inversion Hhd.
    + apply N.ltb_ge in E. constructor; [by constructor|]. by constructor.
Qed.

Lemma sort_pages_sorted {A} (l : list (N * A)) :
  Sorted (λ a b, (a.1 ≤ b.1)%N) (sort_pages l).
Proof.
  induction l as [|x l IH]; [constructor|]. by apply insert_page_sorted.
Qed.

(** C9 as stated fails: two members with the same embedded page number
    and different suffixes leave two files and two list entries for that
    number. *)
Lemma page_number_listed_twice :
  (EpubExtractor.extract_all_images Sample.epub_two_formats Sample.out_dir ∅).2
    = [(1%N, Sample.images_page1_png); (1%N, Sample.images_page1_jpg)] ∧
  (EpubExtractor.extract_all_images Sample.epub_two_formats Sample.out_dir ∅).1
    !! Sample.images_page1_png = Some [1%N] ∧
  (EpubExtractor.extract_all_images Sample.epub_two_formats Sample.out_dir ∅).1
    !! Sample.images_page1_jpg = Some [2%N] ∧
  ¬ NoDup (EpubExtractor.extract_all_images Sample.epub_two_formats
             Sample.out_dir ∅).2.*1.
Proof.
  assert (H : (EpubExtractor.extract_all_images Sample.epub_two_formats
                 Sample.out_dir ∅).2
              = [(1%N, Sample.images_page1_png); (1%N, Sample.images_page1_jpg)])
    by (by vm_compute).
  split; [done|]. split; [by vm_compute|]. split; [by vm_compute|].
  rewrite H. simpl. intros Hnd. apply NoDup_cons in Hnd as [Hnd _].
  apply Hnd. by left.
Qed.

(** With the same suffix the file is overwritten, and the list still holds
    the page number twice. *)
Lemma page_listed_twice_one_file :
  (EpubExtractor.extract_all_images Sample.epub_twice Sample.out_dir ∅).2
    = [(1%N, Sample.images_page1_png); (1%N, Sample.images_page1_png)] ∧
  (EpubExtractor.extract_all_images Sample.epub_twice Sample.out_dir ∅).1
    = {[Sample.images_page1_png := [2%N]]}.
Proof. split; [by vm_compute|]. apply map_eq. intros k. by vm_compute. Qed.

(** C9, amended.  In the image directory the later extraction of an
    output path overwrites the earlier one: the file holds the data of the
    last member written to that path, and paths no member is written to are
    untouched.  The returned list holds one pair per extracted member, in
    ascending order of page number. *)
Theorem store_overwrites_by_path (epub : archive) (output_dir : str)
    (fs : filesystem) :
  let r := extract_images epub output_dir fs in
  (∀ l1 name l2 t,
     epub.*1 = l1 ++ name :: l2 →
     member_target output_dir name = Some t →
     (∀ name' t', name' ∈ l2 → member_target output_dir name' = Some t' →
                  t'.2 ≠ t.2) →
     r.1 !! t.2 = Some (zip_read epub name)) ∧
  (∀ p, (∀ name t, name ∈ epub.*1 → member_target output_dir name = Some t →
                   t.2 ≠ p) →
        r.1 !! p = fs !! p) ∧
  r.2 ≡ₚ omap (member_target output_dir) epub.*1 ∧
  Sorted (λ a b, (a.1 ≤ b.1)%N) r.2.
Proof.
  unfold extract_images. rewrite extract_fold. simpl.
  split; [|split; [|split]].
  - intros l1 name l2 t -> Ht Hlater. by apply write_members_last.
  - intros p Hp. by apply write_members_untouched.
  - apply sort_pages_perm.
  - apply sort_pages_sorted.
Qed.

(** At the container with [a/index-1.png] and [b/index-1.png] the file of
    page 1 holds the data of the second member. *)
Lemma store_overwrites_by_path_witness :
  (extract_images Sample.epub_twice Sample.out_dir ∅).1 !! Sample.out_page1
    = Some [2%N].
Proof.
  pose proof (proj1 (store_overwrites_by_path Sample.epub_twice Sample.out_dir ∅)
                [Sample.epub_twice.*1 !!! 0%nat] (Sample.epub_twice.*1 !!! 1%nat) []
                (1%N, Sample.out_page1)) as H.
  apply H.
  - reflexivity.
  - by vm_compute.
  - intros name' t' Hin. by apply elem_of_nil in Hin.
Defined.

(** ** Character classes, stripping and splitting *)

Lemma space_not_digit c : is_space c = true → is_digit c = false.
Proof.
  unfold is_space, mem. intros H. apply existsb_exists in H as (x & Hin & Heq).
  apply N.eqb_eq in Heq. subst x. unfold spaces in Hin. simpl in Hin.
  repeat (destruct Hin as [<-|Hin]; [by vm_compute|]). done.
Qed.

Lemma digit_not_space c : is_digit c = true → is_space c = false.
Proof.
  intros Hd. destruct (is_space c) eqn:Hs; [|done].
  apply space_not_digit in Hs. congruence.
Qed.

Lemma digit_not_nl c : is_digit c = true → not_nl c = true.
Proof.
  intros Hd. unfold not_nl. destruct (N.eqb c Ch.nl) eqn:E; [|done].
  apply N.eqb_eq in E. subst c. by vm_compute in Hd.
Qed.

Lemma digits_not_nl d : forallb is_digit d = true → forallb not_nl d = true.
Proof.
  induction d as [|c d IH]; simpl; [done|]. intros H.
  apply andb_true_iff in H as [H1 H2]. by rewrite digit_not_nl, IH.
Qed.

Lemma at_end_true rest :
  at_end true rest = true ↔ rest = [] ∨ ∃ s, rest = Ch.nl :: s.
Proof.
  destruct rest as [|c s]; simpl.
  - split; auto.
  - rewrite andb_true_r. split.
    + intros H. apply N.eqb_eq in H. subst. right. eauto.
    + intros [H|[s' H]]; [done|]. injection H as -> _. apply N.eqb_refl.
Qed.

Lemma lstrip_spec s :
  ∃ sp, s = sp ++ lstrip s ∧ forallb is_space sp = true ∧
        from_option is_space false (head (lstrip s)) = false.
Proof.
  induction s as [|c s (sp & Heq & Hsp & Hhd)]; simpl.
  - by exists [].
  - destruct (is_space c) eqn:E.
    + exists (c :: sp). simpl. rewrite E, Hsp. by rewrite <- Heq.
    + exists []. simpl. by rewrite E.
Qed.

Lemma forallb_reverse {A} (p : A → bool) l :
  forallb p (reverse l) = forallb p l.
Proof.
  induction l as [|x l IH]; [done|].
  rewrite reverse_cons, forallb_app, IH. simpl. rewrite andb_true_r.
  apply andb_comm.
Qed.

Lemma rstrip_spec s :
  ∃ sp, s = rstrip s ++ sp ∧ forallb is_space sp = true ∧
        from_option is_space false (last (rstrip s)) = false.
Proof.
  unfold rstrip. destruct (lstrip_spec (reverse s)) as (sp & Heq & Hsp & Hhd).
  exists (reverse sp). split; [|split].
  - rewrite <- reverse_app, <- Heq. by rewrite reverse_involutive.
  - by rewrite forallb_reverse.
  - by rewrite last_reverse.
Qed.

Lemma forallb_app_true {A} (p : A → bool) l1 l2 :
  forallb p (l1 ++ l2) = true ↔ forallb p l1 = true ∧ forallb p l2 = true.
Proof. rewrite forallb_app. apply andb_true_iff. Qed.

(** The trailing whitespace of a text is determined: what remains ends in
    a character that is no whitespace. *)
Lemma rstrip_unique t sp c :
  forallb is_space sp = true → is_space c = false →
  rstrip ((t ++ [c]) ++ sp) = t ++ [c].
Proof.
  intros Hsp Hc. unfold rstrip. rewrite reverse_app, reverse_app. simpl.
  assert (H : ∀ l rest, forallb is_space l = true →
              lstrip (l ++ c :: rest) = c :: rest).
  { induction l as [|x l IH]; intros rest Hl; simpl.
    - by rewrite Hc.
    - simpl in Hl. apply andb_true_iff in Hl as [Hx Hl]. rewrite Hx. by apply IH. }
  rewrite H.
  - change (c :: reverse t) with ([c] ++ reverse t).
    rewrite reverse_app, reverse_involutive. done.
  - by rewrite forallb_reverse.
Qed.

Lemma ends_in_number_spec line :
  ends_in_number line = true ↔
  ∃ x d sp, line = x ++ d ++ sp ∧ x ≠ [] ∧ d ≠ [] ∧
            forallb is_digit d = true ∧ forallb is_space sp = true.
Proof.
  unfold ends_in_number. split.
  - intros H. apply andb_true_iff in H as [Hlen Hlast].
    apply Nat.leb_le in Hlen.
    destruct (rstrip_spec line) as (sp & Heq & Hsp & _).
    destruct (rstrip line) as [|a t] eqn:Ht using rev_ind; [simpl in Hlen; lia|].
    clear IHt. rewrite last_snoc in Hlast. simpl in Hlast.
    rewrite length_app in Hlen. simpl in Hlen.
    exists t, [a], sp. rewrite Heq, <- app_assoc. simpl. rewrite Hlast.
    repeat split; auto. intros ->. simpl in Hlen. lia.
  - intros (x & d & sp & -> & Hx & Hd & Hdig & Hsp).
    destruct d as [|c d _] using rev_ind; [done|].
    apply forallb_app_true in Hdig as [Hdig Hc]. simpl in Hc.
    rewrite andb_true_r in Hc.
    replace (x ++ (d ++ [c]) ++ sp) with (((x ++ d) ++ [c]) ++ sp)
      by (by rewrite <- !app_assoc).
    rewrite rstrip_unique; [|done|by apply digit_not_space].
    rewrite last_snoc. apply andb_true_iff. split; [|exact Hc].
    apply Nat.leb_le. rewrite !length_app. simpl.
    destruct x; [done|]. simpl. lia.
Qed.

Lemma split_no_nl l :
  forallb not_nl l = true → split Ch.nl l = [l].
Proof.
  induction l as [|c l IH]; simpl; [done|]. intros H.
  apply andb_true_iff in H as [Hc Hl]. unfold not_nl in Hc.
  apply negb_true_iff in Hc. rewrite Hc. by rewrite IH.
Qed.

Lemma split_app_nl l s :
  forallb not_nl l = true → split Ch.nl (l ++ Ch.nl :: s) = l :: split Ch.nl s.
Proof.
  induction l as [|c l IH]; simpl; [done|]. intros H.
  apply andb_true_iff in H as [Hc Hl]. unfold not_nl in Hc.
  apply negb_true_iff in Hc. rewrite Hc. by rewrite IH.
Qed.

Lemma first_line s :
  ∃ l rest, s = l ++ rest ∧ forallb not_nl l = true ∧ at_end true rest = true.
Proof.
  induction s as [|c s (l & rest & -> & Hl & Hrest)].
  - by exists [], [].
  - destruct (not_nl c) eqn:E.
    + exists (c :: l), rest. simpl. by rewrite E, Hl.
    + exists [], (c :: l ++ rest). simpl. unfold not_nl in E.
      apply negb_false_iff in E. by rewrite E.
Qed.

Lemma numbered_lines_line l rest :
  forallb not_nl l = true → at_end true rest = true →
  numbered_lines (l ++ rest)
    = (if ends_in_number l then 1 else 0) + lines_after rest.
Proof.
  intros Hl Hrest. apply at_end_true in Hrest as [->|[s ->]].
  - rewrite app_nil_r. unfold numbered_lines. rewrite split_no_nl by done.
    simpl. by destruct (ends_in_number l).
  - unfold numbered_lines. rewrite split_app_nl by done. simpl.
    by destruct (ends_in_number l).
Qed.

(** ** Lines that end in a number: the pattern of [is_toc_page] *)

Lemma numbered_line_matches pos w rest :
  matches ExtractToc.numbered_line pos w rest ↔
  ∃ x d sp, w = x ++ d ++ sp ∧ x ≠ [] ∧ d ≠ [] ∧
            forallb not_nl x = true ∧ forallb is_digit d = true ∧
            forallb is_space sp = true ∧ at_end true rest = true.
Proof.
  unfold ExtractToc.numbered_line, plus, star. simpl. split.
  - intros (x & w1 & -> & (Hx & Hxl & _) & d & w2 & -> & (Hd & Hdl & _)
            & sp & w3 & -> & (Hsp & _ & _) & -> & He).
    exists x, d, sp. rewrite app_nil_r. repeat split; auto.
    + intros ->. simpl in Hxl. lia.
    + intros ->. simpl in Hdl. lia.
  - intros (x & d & sp & -> & Hx & Hd & Hxn & Hdd & Hsp & He).
    exists x, (d ++ sp). repeat split; auto.
    { destruct x; [done|]. simpl. lia. }
    exists d, sp. repeat split; auto.
    { destruct d; [done|]. simpl. lia. }
    exists sp, []. rewrite app_nil_r. repeat split; auto. lia.
Qed.

(** A match that starts inside a line covers the rest of the line and
    then only whitespace. *)
Lemma match_in_line l rest x d sp rest' :
  l ++ rest = (x ++ d ++ sp) ++ rest' →
  forallb not_nl l = true → at_end true rest = true →
  forallb not_nl x = true → forallb is_digit d = true →
  forallb is_space sp = true → at_end true rest' = true →
  ∃ sp1 sp2, sp = sp1 ++ sp2 ∧ l = x ++ d ++ sp1 ∧ rest = sp2 ++ rest'.
Proof.
  intros Heq Hl Hrest Hx Hd Hsp Hrest'.
  assert (Hxd : forallb not_nl (x ++ d) = true).
  { apply forallb_app_true. split; [done|]. by apply digits_not_nl. }
  replace ((x ++ d ++ sp) ++ rest') with ((x ++ d) ++ sp ++ rest') in Heq
    by (by rewrite <- !app_assoc).
  apply app_eq_app in Heq as [m [[H1 H2]|[H1 H2]]].
  - (* the digits end inside the line *)
    apply app_eq_app in H2 as [k [[H3 H4]|[H3 H4]]].
    + (* the line ends inside the whitespace *)
      exists m, k. subst. by rewrite <- app_assoc.
    + destruct k as [|c k].
      * exists m, []. rewrite app_nil_r in H3. subst. simpl.
        split; [by rewrite app_nil_r|]. split; [by rewrite <- app_assoc|done].
      * exfalso. subst. apply at_end_true in Hrest' as [?|[s Hs]]; [done|].
        simpl in Hs. injection Hs as -> _.
        apply forallb_app_true in Hl as [_ Hl].
        apply forallb_app_true in Hl as [_ Hl]. simpl in Hl. done.
  - destruct m as [|c m].
    + rewrite app_nil_r in H1. simpl in H2. exists [], sp.
      split; [done|]. split; [|done]. by rewrite <- H1, !app_nil_r.
    + exfalso. subst. apply at_end_true in Hrest as [?|[s Hs]]; [done|].
      simpl in Hs. injection Hs as -> _. rewrite H1 in Hxd.
      apply forallb_app_true in Hxd as [_ Hxd]. simpl in Hxd. done.
Qed.

Lemma scan_skip r : ∀ skip pos s,
  skip ≤ length s → scan r pos skip s = scan r (pos + skip) 0 (drop skip s).
Proof.
  induction skip as [|n IH]; intros pos s Hlen.
  - by rewrite Nat.add_0_r, drop_0.
  - destruct s as [|c s]; [simpl in Hlen; lia|].
    change (scan r pos (S n) (c :: s)) with (scan r (S pos) n s).
    rewrite IH by (simpl in Hlen; lia). simpl.
    by replace (pos + S n) with (S pos + n) by lia.
Qed.

Lemma scan_no_match r pos c s :
  match_at r pos (c :: s) = None →
  scan r pos 0 (c :: s) = Lit c :: scan r (S pos) 0 s.
Proof. intros H. simpl. by rewrite H. Qed.

Lemma scan_nil r pos : match_at r pos [] = None → scan r pos 0 [] = [].
Proof. intros H. simpl. by rewrite H. Qed.

Lemma scan_match r pos c s e :
  match_at r pos (c :: s) = Some e → pos < e → e - pos ≤ S (length s) →
  scan r pos 0 (c :: s) =
    Hit (take (e - pos) (c :: s)) :: scan r e 0 (drop (e - pos) (c :: s)).
Proof.
  intros H Hlt Hlen. simpl scan. rewrite H.
  assert (Nat.eqb e pos = false) as -> by (apply Nat.eqb_neq; lia).
  simpl app. rewrite scan_skip by lia.
  replace (S pos + (e - pos - 1)) with e by lia.
  do 2 f_equal. destruct (e - pos) as [|n] eqn:E; [lia|].
  simpl. by rewrite Nat.sub_0_r.
Qed.

(** No match starts at the end of a line. *)
Lemma no_match_at_line_end pos rest :
  at_end true rest = true → match_at ExtractToc.numbered_line pos rest = None.
Proof.
  intros Hrest. destruct (match_at _ pos rest) as [e|] eqn:Hm; [|done].
  exfalso. apply match_at_sound in Hm as (w & rest' & -> & Hw & _).
  apply numbered_line_matches in Hw
    as (x & d & sp & -> & Hx & _ & Hxn & _).
  destruct x as [|c x]; [done|]. simpl in Hxn.
  apply andb_true_iff in Hxn as [Hc _].
  apply at_end_true in Hrest as [?|[s Hs]]; [done|].
  simpl in Hs. injection Hs as -> _. done.
Qed.

(** A line that does not end in a number holds no match. *)
Lemma scan_plain_line l : ∀ pos rest,
  forallb not_nl l = true → at_end true rest = true →
  ends_in_number l = false →
  hits (scan ExtractToc.numbered_line pos 0 (l ++ rest))
    = hits (scan ExtractToc.numbered_line (pos + length l) 0 rest).
Proof.
  induction l as [|c l IH]; intros pos rest Hl Hrest Hend.
  - simpl. by rewrite Nat.add_0_r.
  - simpl in Hl. apply andb_true_iff in Hl as [Hc Hl].
    assert (Hnone : match_at ExtractToc.numbered_line pos ((c :: l) ++ rest) = None).
    { destruct (match_at _ pos _) as [e|] eqn:Hm; [|done]. exfalso.
      apply match_at_sound in Hm as (w & rest' & Heq & Hw & _).
      apply numbered_line_matches in Hw
        as (x & d & sp & -> & Hx & Hd & Hxn & Hdd & Hsp & He).
      destruct (match_in_line (c :: l) rest x d sp rest')
        as (sp1 & sp2 & -> & Hline & _); auto.
      { simpl. by rewrite Hc, Hl. }
      assert (ends_in_number (c :: l) = true); [|congruence].
      apply ends_in_number_spec. exists x, d, sp1.
      apply forallb_app_true in Hsp as [Hsp1 _]. auto. }
    change ((c :: l) ++ rest) with (c :: (l ++ rest)) in *.
    rewrite scan_no_match by done. simpl hits.
    rewrite IH; auto.
    + simpl. by replace (pos + S (length l)) with (S pos + length l) by lia.
    + destruct (ends_in_number l) eqn:El; [|done].
      apply ends_in_number_spec in El as (x & d & sp & -> & Hx & Hd & Hdd & Hsp).
      assert (ends_in_number (c :: x ++ d ++ sp) = true); [|congruence].
      apply ends_in_number_spec. exists (c :: x), d, sp. auto.
Qed.

(** A line that ends in a number holds one match; it runs to the end of
    the line and over the whitespace-only lines that follow. *)
Lemma scan_numbered_line l pos rest :
  forallb not_nl l = true → at_end true rest = true →
  ends_in_number l = true →
  ∃ sp2 rest' w, rest = sp2 ++ rest' ∧ forallb is_space sp2 = true ∧
    at_end true rest' = true ∧
    scan ExtractToc.numbered_line pos 0 (l ++ rest)
      = Hit w :: scan ExtractToc.numbered_line
                   (pos + length l + length sp2) 0 rest'.
Proof.
  intros Hl Hrest Hend.
  apply ends_in_number_spec in Hend as (x & d & sp & Hline & Hx & Hd & Hdd & Hsp).
  assert (Hxn : forallb not_nl x = true).
  { rewrite Hline in Hl. by apply forallb_app_true in Hl as [? _]. }
  destruct (match_at_complete ExtractToc.numbered_line pos l rest) as [e He].
  { apply numbered_line_matches. exists x, d, sp. auto 10. }
  pose proof He as Hm.
  apply match_at_sound in Hm as (w & rest' & Heq & Hw & ->).
  apply numbered_line_matches in Hw
    as (x' & d' & sp' & -> & Hx' & Hd' & Hxn' & Hdd' & Hsp' & He').
  destruct (match_in_line l rest x' d' sp' rest')
    as (sp1 & sp2 & -> & Hline' & Hrest'); auto.
  apply forallb_app_true in Hsp' as [Hsp1 Hsp2].
  exists sp2, rest', (x' ++ d' ++ sp1 ++ sp2). split; [done|]. split; [done|].
  split; [done|].
  assert (Hlen : length (x' ++ d' ++ sp1 ++ sp2) = length l + length sp2).
  { rewrite Hline'. rewrite !length_app. lia. }
  rewrite Hlen in He.
  destruct l as [|c l].
  { destruct x'; [done|]. by destruct x'. }
  change ((c :: l) ++ rest) with (c :: (l ++ rest)) in *.
  rewrite (scan_match _ _ _ _ _ He).
  - replace (pos + (length (c :: l) + length sp2) - pos)
      with (length (c :: l) + length sp2) by lia.
    rewrite Heq, <- Hlen, take_app_length, drop_app_length.
    by rewrite Hlen, Nat.add_assoc.
  - simpl. lia.
  - rewrite Hrest'. simpl. rewrite !length_app. lia.
Qed.

Lemma whitespace_not_numbered a :
  forallb is_space a = true → ends_in_number a = false.
Proof.
  intros Ha. destruct (ends_in_number a) eqn:E; [|done]. exfalso.
  apply ends_in_number_spec in E as (x & d & sp & -> & _ & Hd & Hdd & _).
  destruct d as [|c d]; [done|].
  apply forallb_app_true in Ha as [_ Ha]. simpl in Ha, Hdd.
  apply andb_true_iff in Ha as [Ha _]. apply andb_true_iff in Hdd as [Hdd _].
  apply space_not_digit in Ha. congruence.
Qed.

(** Whitespace-only lines swallowed by a match count for nothing. *)
Lemma lines_after_spaces n : ∀ sp2 rest',
  length sp2 ≤ n → forallb is_space sp2 = true →
  at_end true rest' = true → at_end true (sp2 ++ rest') = true →
  lines_after (sp2 ++ rest') = lines_after rest'.
Proof.
  induction n as [|n IH]; intros sp2 rest' Hlen Hsp Hrest' Hrest.
  - destruct sp2; [done|]. simpl in Hlen. lia.
  - destruct sp2 as [|c sp3]; [done|]. simpl in Hsp.
    apply andb_true_iff in Hsp as [_ Hsp]. simpl lines_after.
    destruct (first_line sp3) as (a & b & -> & Ha & Hb).
    apply forallb_app_true in Hsp as [Hsa Hsb].
    rewrite <- app_assoc.
    pose proof Hb as Hb'. apply at_end_true in Hb' as [->|[b' ->]].
    + simpl. rewrite numbered_lines_line by done.
      by rewrite whitespace_not_numbered.
    + rewrite numbered_lines_line; [|done|done].
      rewrite whitespace_not_numbered by done.
      change (0 + lines_after ((Ch.nl :: b') ++ rest'))
        with (lines_after ((Ch.nl :: b') ++ rest')).
      apply IH; auto.
      simpl in Hlen. rewrite length_app in Hlen. simpl in Hlen. simpl. lia.
Qed.

Lemma count_hits n : ∀ s pos,
  length s < n →
  length (hits (scan ExtractToc.numbered_line pos 0 s)) = numbered_lines s.
Proof.
  induction n as [|n IH]; intros s pos Hlen; [lia|].
  assert (Hend : ∀ rest pos', at_end true rest = true → length rest ≤ length s →
            length (hits (scan ExtractToc.numbered_line pos' 0 rest))
              = lines_after rest).
  { intros rest pos' Hrest Hle.
    pose proof (no_match_at_line_end pos' rest Hrest) as Hnone.
    apply at_end_true in Hrest as [->|[s' ->]].
    - by rewrite scan_nil.
    - rewrite scan_no_match by done. simpl. apply IH. simpl in Hle. lia. }
  destruct (first_line s) as (l & rest & -> & Hl & Hrest).
  rewrite numbered_lines_line by done.
  destruct (ends_in_number l) eqn:El.
  - destruct (scan_numbered_line l pos rest Hl Hrest El)
      as (sp2 & rest' & w & -> & Hsp2 & Hrest' & ->).
    simpl. f_equal. rewrite Hend; [|done|rewrite !length_app; lia].
    symmetry. apply (lines_after_spaces (length sp2)); auto.
  - rewrite scan_plain_line by done. simpl.
    apply Hend; [done|]. rewrite length_app. lia.
Qed.

(** The count of [is_toc_page] is the number of lines that end in a
    trailing numeric token. *)
Lemma lines_with_numbers_spec text :
  ExtractToc.lines_with_numbers text = numbered_lines text.
Proof.
  unfold ExtractToc.lines_with_numbers, findall.
  apply (count_hits (S (length text))). lia.
Qed.

(** ** The TOC marker *)

Local Arguments N.eqb : simpl never.

Lemma cls_seq_matches p r pos w rest :
  matches (Seq (Cls p) r) pos w rest ↔
  ∃ c w', w = c :: w' ∧ p c = true ∧ matches r (pos + 1) w' rest.
Proof.
  simpl. split.
  - intros (w1 & w2 & -> & (c & -> & Hp) & Hr). exists c, w2. auto.
  - intros (c & w' & -> & Hp & Hr). exists [c], w'. split; [done|]. eauto.
Qed.

Lemma mu_seq_matches last pos w rest :
  matches (seqs [chr Ch.mu; star is_space; chr last]) pos w rest ↔
  ∃ ws, forallb is_space ws = true ∧ w = Ch.mu :: ws ++ [last].
Proof.
  unfold seqs, chr, star. rewrite cls_seq_matches. simpl. split.
  - intros (c & w' & -> & Hc & ws & w2 & -> & (Hws & _) & c' & -> & Hc').
    apply N.eqb_eq in Hc, Hc'. subst. eauto.
  - intros (ws & Hws & ->). exists Ch.mu, (ws ++ [last]).
    split; [done|]. split; [apply N.eqb_refl|].
    exists ws, [last]. split; [done|]. split; [split; [done|split; [lia|done]]|].
    exists last. split; [done|]. apply N.eqb_refl.
Qed.

Lemma same_letter_plain up c :
  up ≠ 83%N → mem c [up; (up + 32)%N] = true ↔ same_letter up c.
Proof.
  intros Hup. unfold mem, same_letter. simpl.
  rewrite !orb_true_iff, !N.eqb_eq. intuition congruence.
Qed.

Lemma same_letter_s c :
  mem c [83; (83 + 32); 383]%N = true ↔ same_letter 83%N c.
Proof.
  unfold mem, same_letter. simpl.
  rewrite !orb_true_iff, !N.eqb_eq. intuition congruence.
Qed.

Lemma contents_matches pos w rest :
  matches (seqs [ExtractToc.ci 67%N []; ExtractToc.ci 79%N [];
                 ExtractToc.ci 78%N []; ExtractToc.ci 84%N [];
                 ExtractToc.ci 69%N []; ExtractToc.ci 78%N [];
                 ExtractToc.ci 84%N []; ExtractToc.ci 83%N [383%N]]) pos w rest ↔
  Forall2 same_letter [67; 79; 78; 84; 69; 78; 84; 83]%N w.
Proof.
  unfold seqs, ExtractToc.ci. rewrite !cls_seq_matches. split.
  - intros (c1 & w1 & -> & H1 & H). apply cls_seq_matches in H
      as (c2 & w2 & -> & H2 & H). apply cls_seq_matches in H
      as (c3 & w3 & -> & H3 & H). apply cls_seq_matches in H
      as (c4 & w4 & -> & H4 & H). apply cls_seq_matches in H
      as (c5 & w5 & -> & H5 & H). apply cls_seq_matches in H
      as (c6 & w6 & -> & H6 & H). apply cls_seq_matches in H
      as (c7 & w7 & -> & H7 & H). destruct H as (c8 & -> & H8).
    cbv beta in H8.
    apply same_letter_plain in H1, H2, H3, H4, H5, H6, H7; try done.
    apply same_letter_s in H8.
    repeat (constructor; [assumption|]). constructor.
  - intros H.
    apply Forall2_cons_inv_l in H as (c1 & w1 & H1 & H & ->).
    apply Forall2_cons_inv_l in H as (c2 & w2 & H2 & H & ->).
    apply Forall2_cons_inv_l in H as (c3 & w3 & H3 & H & ->).
    apply Forall2_cons_inv_l in H as (c4 & w4 & H4 & H & ->).
    apply Forall2_cons_inv_l in H as (c5 & w5 & H5 & H & ->).
    apply Forall2_cons_inv_l in H as (c6 & w6 & H6 & H & ->).
    apply Forall2_cons_inv_l in H as (c7 & w7 & H7 & H & ->).
    apply Forall2_cons_inv_l in H as (c8 & w8 & H8 & H & ->).
    apply Forall2_nil_inv_l in H as ->.
    apply same_letter_plain in H1, H2, H3, H4, H5, H6, H7; try done.
    apply same_letter_s in H8.
    exists c1, [c2; c3; c4; c5; c6; c7; c8]. do 2 (split; [done|]).
    apply cls_seq_matches. exists c2, [c3; c4; c5; c6; c7; c8].
    do 2 (split; [done|]).
    apply cls_seq_matches. exists c3, [c4; c5; c6; c7; c8].
    do 2 (split; [done|]).
    apply cls_seq_matches. exists c4, [c5; c6; c7; c8].
    do 2 (split; [done|]).
    apply cls_seq_matches. exists c5, [c6; c7; c8]. do 2 (split; [done|]).
    apply cls_seq_matches. exists c6, [c7; c8]. do 2 (split; [done|]).
    apply cls_seq_matches. exists c7, [c8]. do 2 (split; [done|]).
    exists c8. split; [done|]. exact H8.
Qed.

Lemma toc_marker_matches pos w rest :
  matches ExtractToc.toc_marker pos w rest ↔ toc_marker_token w.
Proof.
  unfold ExtractToc.toc_marker, toc_marker_token.
  change (matches (Alt ?a (Alt ?b ?c)) pos w rest)
    with (matches a pos w rest ∨ matches b pos w rest ∨ matches c pos w rest).
  rewrite !mu_seq_matches, contents_matches. split.
  - intros [(ws & ? & ?)|[(ws & ? & ?)|?]];
      [left; exists ws; auto|left; exists ws; auto|by right].
  - intros [(ws & ? & [?|?])|?];
      [left; eauto|right; left; eauto|right; by right].
Qed.

(** [has_toc_marker] holds exactly for the texts that contain a marker
    token. *)
Lemma has_toc_marker_spec text :
  ExtractToc.has_toc_marker text = true ↔ contains_toc_marker text.
Proof.
  unfold ExtractToc.has_toc_marker, re_search, contains_toc_marker.
  rewrite bool_decide_eq_true, fmap_is_Some, search_from_some.
  split; intros (pre & w & post & -> & H); exists pre, w, post;
    (split; [done|]); by apply (toc_marker_matches (0 + length pre) w post).
Qed.

(** [is_toc_page] of extract_toc.py labels a text as a table of contents
    exactly when it contains a TOC marker token or at least five of its
    lines end in a trailing numeric token (digits that follow at least one
    other character of the line, whitespace after them being ignored);
    either condition is enough on its own. *)
Theorem toc_page_marker_or_numbered_lines (text : str) :
  ExtractToc.is_toc_page text = true ↔
  contains_toc_marker text ∨ 5 ≤ numbered_lines text.
Proof.
  unfold ExtractToc.is_toc_page.
  rewrite orb_true_iff, has_toc_marker_spec, lines_with_numbers_spec.
  by rewrite Nat.leb_le.
Qed.

(** C4.  The inline tests of parse_epub_ocr_v2.py and parse_epub_ocr.py
    look for the literal markers only.  A page that holds the marker
    CONTENTS, and a page with five lines that end in a number, are tables
    of contents by the rule and for [is_toc_page], but not for the test of
    [find_toc_and_extract_chapters]; [find_toc_pages] passes over the
    CONTENTS page whose entry [scan_for_toc] returns. *)
Theorem literal_test_misses_toc_pages :
  (contains_toc_marker Pages.contents ∧
   ExtractToc.is_toc_page Pages.contents = true ∧
   ParseEpubOcrV2.is_toc Pages.contents = false) ∧
  (5 ≤ numbered_lines Pages.numbered ∧
   ExtractToc.is_toc_page Pages.numbered = true ∧
   ParseEpubOcrV2.is_toc Pages.numbered = false) ∧
  (ExtractToc.scan_for_toc (Sample.reading Pages.contents) 0
     [(1%N, Sample.out_page1)] 30 = [Sample.chapter_one] ∧
   ParseEpubOcr.find_toc_pages (Sample.reading Pages.contents) 0
     [Sample.out_page1] 20 = []).
Proof.
  split; [|split].
  - split; [apply has_toc_marker_spec; by vm_compute|]. by vm_compute.
  - split; [vm_compute; lia|]. by vm_compute.
  - by vm_compute.
Qed.

(** ** The classifier and extractor examples of the specification *)

Example toc_page_is_toc :
  ExtractToc.is_toc_page SpecExample.toc_page = true.
Proof. by vm_compute. Qed.

Example chapter_page_is_chapter_start :
  ScanChapters.extract_chapter_from_page SpecExample.chapter_page
    = Some SpecExample.chapter_page_title ∧
  is_Some (ParseEpubOcr.chapter_start SpecExample.chapter_page) ∧
  ExtractToc.is_toc_page SpecExample.chapter_page = false.
Proof. split; [by vm_compute|]. split; [by vm_compute; eauto|by vm_compute]. Qed.

Example content_page_is_content :
  ExtractToc.is_toc_page SpecExample.content_page = false ∧
  ScanChapters.extract_chapter_from_page SpecExample.content_page = None ∧
  ParseEpubOcr.chapter_start SpecExample.content_page = None.
Proof. by vm_compute. Qed.

Example raw_row_normalized :
  ParseEpubOcrV2.clean SpecExample.raw_row = SpecExample.clean_row ∧
  ExtractChapters.clean SpecExample.raw_row = SpecExample.clean_row.
Proof. by vm_compute. Qed.

(** A page whose recognition failed reads as the empty string: it is no
    TOC page, no chapter start, and yields no title. *)
Example empty_page_is_content :
  ExtractToc.is_toc_page [] = false ∧
  ScanChapters.extract_chapter_from_page [] = None ∧
  ParseEpubOcr.chapter_start [] = None ∧
  ParseEpubOcrV2.extract_chapter_titles_clean [] = [] ∧
  ExtractToc.extract_toc_entries [] = [].
Proof. by vm_compute. Qed.

(** ** Chapter starts *)

(** The full scan of parse_epub_ocr.py reports a chapter only when the
    joined first lines open, after whitespace at most, with the ordinal
    marker, numerals and a unit word. *)
Lemma chapter_start_anchored text name :
  ParseEpubOcr.chapter_start text = Some name →
  ∃ ws nums unit tail,
    ParseEpubOcr.first_lines text = ws ++ Ch.di :: nums ++ unit :: tail ∧
    forallb is_space ws = true ∧ nums ≠ [] ∧
    forallb numeral nums = true ∧ unit_word unit = true.
Proof.
  unfold ParseEpubOcr.chapter_start, re_match.
  destruct (match_at ParseEpubOcr.chapter_pattern 0 _) as [e|] eqn:Hm; [|done].
  intros _. apply match_at_sound in Hm as (w & rest & Heq & Hw & _).
  unfold ParseEpubOcr.chapter_pattern, head_unit, seqs, star, plus, chr in Hw.
  destruct Hw as (w0 & w1 & -> & [-> _] & ws & w2 & -> & (Hws & _) & Hw).
  apply cls_seq_matches in Hw as (c & w3 & -> & Hc & nums & w4 & -> &
    (Hnums & Hlen & _) & unit & -> & Hunit).
  apply N.eqb_eq in Hc. subst c.
  exists ws, nums, unit, rest. rewrite Heq. simpl. rewrite <- !app_assoc.
  split; [f_equal; simpl; f_equal; by rewrite <- app_assoc|].
  split; [done|]. split; [|done].
  intros ->. simpl in Hlen. lia.
Qed.

(** ** The full scan *)

(** [scan_all_pages] of scan_chapters.py records each chapter under the
    page number of the store, in the order of the store. *)
Lemma scan_all_pages_store_numbers tess image_files : ∀ n,
  sublist (ScanChapters.scan_all_pages tess n image_files).*1 image_files.*1.
Proof.
  induction image_files as [|[page_num img_path] rest IH]; intros n; simpl.
  - constructor.
  - destruct (ScanChapters.truthy _) as [chapter|]; simpl.
    + apply sublist_skip, IH.
    + apply sublist_cons, IH.
Qed.

(** The full scan of parse_epub_ocr.py records each chapter under the
    position of the page in the iteration. *)
Lemma scan_loop_positions tess image_files : ∀ n i k name,
  (k, name) ∈ ParseEpubOcr.scan_loop tess n i image_files →
  (i < k ≤ i + N.of_nat (length image_files))%N.
Proof.
  induction image_files as [|img_path rest IH]; intros n i k name Hin; simpl in *.
  - by apply elem_of_nil in Hin.
  - destruct (ParseEpubOcr.chapter_start _) as [chapter_name|].
    + apply elem_of_cons in Hin as [[= -> ->]|Hin]; [lia|].
      apply IH in Hin. lia.
    + apply IH in Hin. lia.
Qed.

(** The pages are visited in ascending order of page number. *)
Lemma extract_images_sorted epub output_dir fs :
  Sorted (λ a b, (a.1 ≤ b.1)%N) (extract_images epub output_dir fs).2.
Proof. unfold extract_images. simpl. apply sort_pages_sorted. Qed.

(** [main] of parse_epub_ocr.py runs the full scan only when the TOC scan
    found nothing. *)
Lemma full_scan_only_as_fallback tess epub tmp_dir chapters :
  ParseEpubOcr.main tess epub tmp_dir = ParseEpubOcr.FromFullScan chapters →
  ParseEpubOcr.find_toc_pages tess 0
    (ParseEpubOcr.extract_images_from_epub epub tmp_dir ∅).2 20 = [].
Proof.
  unfold ParseEpubOcr.main.
  by destruct (ParseEpubOcr.find_toc_pages _ _ _ _).
Qed.

(** ** The cache of extract_epub_enhanced.py *)

Lemma ocr_image_enhanced_world tess image_path w :
  let r := ExtractEpubEnhanced.ocr_image_enhanced tess image_path w in
  files r.2 = files w ∧ calls r.2 = S (calls w).
Proof.
  unfold ExtractEpubEnhanced.ocr_image_enhanced.
  by destruct (tess (calls w) image_path).
Qed.

(** A persisted result is never overwritten. *)
Lemma enhanced_keeps_files tess l ocr_dir a b : ∀ w f t,
  files w !! f = Some t →
  files (ExtractEpubEnhanced.process_pages tess l ocr_dir a b w) !! f = Some t.
Proof.
  induction l as [|[page_num img_path] l IH]; intros w f t Hf; simpl; [done|].
  destruct ((page_num <? a)%N || (b <? page_num)%N); [by apply IH|].
  destruct (files w !! page_txt ocr_dir page_num) eqn:Hp; apply IH; simpl.
  - done.
  - destruct (ocr_image_enhanced_world tess img_path w) as [-> _].
    rewrite lookup_insert_ne; [done|]. intros <-. congruence.
Qed.

(** After a run every page of the range has a persisted result. *)
Lemma enhanced_covers tess l ocr_dir a b : ∀ w page_num img_path,
  (page_num, img_path) ∈ l → (a ≤ page_num ≤ b)%N →
  is_Some (files (ExtractEpubEnhanced.process_pages tess l ocr_dir a b w)
             !! page_txt ocr_dir page_num).
Proof.
  induction l as [|[p img] l IH]; intros w page_num img_path Hin Hr.
  - by apply elem_of_nil in Hin.
  - apply elem_of_cons in Hin as [[= <- <-]|Hin].
    + simpl.
      assert ((page_num <? a)%N || (b <? page_num)%N = false) as ->.
      { apply orb_false_iff. split; apply N.ltb_ge; lia. }
      destruct (files w !! page_txt ocr_dir page_num) as [t|] eqn:Hp.
      * exists t. by apply enhanced_keeps_files.
      * eexists. apply enhanced_keeps_files. simpl. apply lookup_insert_eq.
    + simpl. destruct ((p <? a)%N || (b <? p)%N); [by eapply IH|].
      destruct (files w !! page_txt ocr_dir p); by eapply IH.
Qed.

(** A run over pages that all have a persisted result recognises nothing
    and writes nothing. *)
Lemma enhanced_noop tess l ocr_dir a b : ∀ w,
  (∀ page_num img_path, (page_num, img_path) ∈ l → (a ≤ page_num ≤ b)%N →
                        is_Some (files w !! page_txt ocr_dir page_num)) →
  let w' := ExtractEpubEnhanced.process_pages tess l ocr_dir a b w in
  files w' = files w ∧ calls w' = calls w.
Proof.
  induction l as [|[p img] l IH]; intros w Hall; simpl; [done|].
  destruct ((p <? a)%N || (b <? p)%N) eqn:Hr.
  - apply IH. intros q i Hin. apply (Hall q i). by right.
  - apply orb_false_iff in Hr as [H1 H2]. apply N.ltb_ge in H1, H2.
    destruct (Hall p img) as [t Ht]; [by left|lia|]. rewrite Ht.
    apply (IH (World (files w) (calls w) (out w ++ [PageSkipped p]))).
    intros q i Hin. simpl. apply (Hall q i). by right.
Qed.

(** Running the loop again, even with another recognition capability,
    invokes it for no page and leaves the cache as it was. *)
Lemma enhanced_rerun tess tess' l ocr_dir a b w :
  let w1 := ExtractEpubEnhanced.process_pages tess l ocr_dir a b w in
  let w2 := ExtractEpubEnhanced.process_pages tess' l ocr_dir a b w1 in
  files w2 = files w1 ∧ calls w2 = calls w1.
Proof.
  simpl. apply enhanced_noop. intros page_num img_path Hin Hr.
  by eapply enhanced_covers.
Qed.

(** On a failure the loop persists the empty string and the warning is
    printed. *)
Lemma enhanced_failure_persisted tess page_num img_path ocr_dir a b w :
  (a ≤ page_num ≤ b)%N →
  files w !! page_txt ocr_dir page_num = None →
  tess (calls w) img_path = None →
  let w' := ExtractEpubEnhanced.process_pages tess [(page_num, img_path)]
              ocr_dir a b w in
  files w' !! page_txt ocr_dir page_num = Some [] ∧
  out w' = out w ++ [OcrFailed; PageDone page_num].
Proof.
  intros Hr Hnone Hfail. simpl.
  assert ((page_num <? a)%N || (b <? page_num)%N = false) as ->.
  { apply orb_false_iff. split; apply N.ltb_ge; lia. }
  rewrite Hnone. unfold ExtractEpubEnhanced.ocr_image_enhanced.
  rewrite Hfail. simpl. rewrite lookup_insert_eq. by rewrite <- app_assoc.
Qed.

(** ** Truncation at a run of dots *)

Lemma at_end_false rest :
  at_end false rest = true ↔ rest = [] ∨ rest = [Ch.nl].
Proof.
  destruct rest as [|c [|c' s]]; simpl.
  - split; auto.
  - rewrite andb_true_r. split.
    + intros H. apply N.eqb_eq in H. subst. by right.
    + intros [H|H]; [done|]. injection H as ->. done.
  - rewrite andb_false_r. split; [done|]. by intros [H|H].
Qed.

Lemma trunc2_matches pos w rest :
  matches trunc2 pos w rest ↔
  ∃ dd tail, w = dd ++ tail ∧ forallb dots dd = true ∧ 2 ≤ length dd ∧
             forallb not_nl tail = true ∧ at_end false rest = true.
Proof.
  unfold trunc2, seqs, star. simpl. split.
  - intros (dd & w1 & -> & (Hdd & Hlen & _) & tail & w2 & -> & (Htail & _)
            & -> & He).
    exists dd, tail. by rewrite app_nil_r.
  - intros (dd & tail & -> & Hdd & Hlen & Htail & He).
    exists dd, tail. split; [done|]. split; [done|].
    exists tail, []. rewrite app_nil_r. split; [done|].
    split; [split; [done|split; [lia|done]]|done].
Qed.

Lemma not_nl_no_nl s : forallb not_nl s = true → Ch.nl ∉ s.
Proof.
  induction s as [|c s IH]; simpl; intros H Hin.
  - by apply elem_of_nil in Hin.
  - apply andb_true_iff in H as [Hc Hs].
    apply elem_of_cons in Hin as [<-|Hin]; [done|]. by apply IH.
Qed.

(** On a text without newline, [re.sub(r'[…\.]{2,}.*$', '', s)] keeps the
    text up to the first two adjacent ellipsis-or-dot characters. *)
Lemma trunc2_cuts s : ∀ pos,
  forallb not_nl s = true → subst [] (scan trunc2 pos 0 s) = cut_dots s.
Proof.
  assert (Hnil : ∀ pos, match_at trunc2 pos [] = None).
  { intros pos. destruct (match_at trunc2 pos []) eqn:Hm; [|done]. exfalso.
    apply match_at_sound in Hm as (w & rest & Heq & Hw & _).
    apply trunc2_matches in Hw as (dd & tail & -> & _ & Hlen & _).
    symmetry in Heq. apply app_eq_nil in Heq as [Heq _].
    apply app_eq_nil in Heq as [-> _]. simpl in Hlen. lia. }
  induction s as [|c s IH]; intros pos Hs.
  - by rewrite scan_nil.
  - pose proof Hs as Hs'. simpl in Hs'. apply andb_true_iff in Hs' as [Hc Hs'].
    destruct (match_at trunc2 pos (c :: s)) as [e|] eqn:Hm.
    + pose proof Hm as Hm'.
      apply match_at_sound in Hm' as (w & rest & Heq & Hw & ->).
      apply trunc2_matches in Hw as (dd & tail & -> & Hdd & Hlen & Htail & He).
      assert (rest = []) as ->.
      { apply at_end_false in He as [-> | ->]; [done|]. exfalso.
        apply (not_nl_no_nl _ Hs). rewrite Heq. apply elem_of_app. right.
        by left. }
      rewrite app_nil_r in Heq.
      rewrite (scan_match _ _ _ _ _ Hm).
      * replace (pos + length (dd ++ tail) - pos) with (length (c :: s))
          by (rewrite Heq; lia).
        rewrite drop_all, scan_nil by done. simpl.
        destruct dd as [|d1 [|d2 dd]]; [simpl in Hlen; lia..|].
        simpl in Heq. injection Heq as -> ->. simpl in Hdd.
        apply andb_true_iff in Hdd as [H1 Hdd].
        apply andb_true_iff in Hdd as [H2 _]. by rewrite H1, H2.
      * rewrite length_app. lia.
      * rewrite <- Heq. simpl. lia.
    + rewrite scan_no_match by done. simpl subst. rewrite IH by done.
      destruct s as [|c2 s]; [done|]. simpl.
      destruct (dots c && dots c2) eqn:Hd; [|done]. exfalso.
      apply andb_true_iff in Hd as [H1 H2].
      apply (match_at_none _ _ _ Hm (c :: c2 :: s) []); [by rewrite app_nil_r|].
      apply trunc2_matches. exists [c; c2], s. simpl. rewrite H1, H2.
      simpl in Hs'. apply andb_true_iff in Hs' as [_ Hs'].
      split; [done|]. split; [done|]. split; [lia|]. by split.
Qed.

(** A single isolated dot or ellipsis character cuts nothing. *)
Lemma cut_dots_isolated s :
  (∀ pre c1 c2 post, s = pre ++ c1 :: c2 :: post → dots c1 && dots c2 = false) →
  cut_dots s = s.
Proof.
  induction s as [|c s IH]; intros H; [done|].
  destruct s as [|c2 s]; [done|].
  change (cut_dots (c :: c2 :: s))
    with (if dots c && dots c2 then [] else c :: cut_dots (c2 :: s)).
  rewrite (H [] c c2 s) by done. f_equal. apply IH.
  intros pre c1 c3 post Heq. apply (H (c :: pre) c1 c3 post). by rewrite Heq.
Qed.

(** Whatever is cut starts with two adjacent dots. *)
Lemma cut_dots_prefix s :
  ∃ post, s = cut_dots s ++ post ∧
    (post = [] ∨ ∃ c1 c2 t, post = c1 :: c2 :: t ∧
                            dots c1 = true ∧ dots c2 = true).
Proof.
  induction s as [|c s (post & Heq & Hpost)]; [by exists []; auto|].
  destruct s as [|c2 s]; [by exists []; auto|].
  change (cut_dots (c :: c2 :: s))
    with (if dots c && dots c2 then [] else c :: cut_dots (c2 :: s)).
  destruct (dots c && dots c2) eqn:Hd.
  - apply andb_true_iff in Hd as [H1 H2]. exists (c :: c2 :: s).
    split; [done|]. right. by exists c, c2, s.
  - exists post. split; [|done]. rewrite <- app_comm_cons. by f_equal.
Qed.

(** After [re.sub(r'\s+', ' ', s)] no newline is left. *)
Lemma ws_collapse_pieces s : ∀ pos skip,
  Forall (λ p, match p with Lit c => is_space c = false | Hit _ => True end)
         (scan ws_run pos skip s).
Proof.
  induction s as [|c s IH]; intros pos skip.
  - destruct skip; simpl; [|constructor].
    destruct (match_at ws_run pos []); repeat constructor.
  - destruct skip as [|n]; [|apply IH]. simpl.
    destruct (match_at ws_run pos (c :: s)) as [e|] eqn:Hm.
    + constructor; [done|]. apply Forall_app. split; [|apply IH].
      destruct (Nat.eqb e pos) eqn:E; [|constructor]. exfalso.
      apply Nat.eqb_eq in E. subst e.
      apply match_at_sound in Hm as (w & rest & _ & (_ & Hw & _) & He).
      destruct w; simpl in *; lia.
    + constructor; [|apply IH]. destruct (is_space c) eqn:Hc; [|done]. exfalso.
      apply (match_at_none _ _ _ Hm [c] s); [done|]. simpl.
      rewrite Hc. split; [done|]. split; [lia|done].
Qed.

Lemma ws_collapse_no_nl s :
  forallb not_nl (re_sub ws_run [Ch.space] s) = true.
Proof.
  unfold re_sub. pose proof (ws_collapse_pieces s 0 0) as H.
  induction H as [|p ps Hp Hps IH]; [done|].
  destruct p as [c|w]; simpl; [|done]. rewrite IH, andb_true_r.
  unfold not_nl. destruct (N.eqb c Ch.nl) eqn:E; [|done].
  apply N.eqb_eq in E. subst c. by vm_compute in Hp.
Qed.

(** The truncation step of [extract_chapter_titles_clean] cuts at the first
    run of two or more dots and nowhere else. *)
Lemma v2_clean_truncates m :
  let t := re_sub ws_run [Ch.space] (strip m) in
  re_sub trunc2 [] t = cut_dots t.
Proof. simpl. apply trunc2_cuts, ws_collapse_no_nl. Qed.

(** * Further properties of the scripts *)

(** ** Page numbers in file names *)

Lemma int_of_app a b :
  int_of (a ++ b) =
    fold_left (λ acc c, (10 * acc + digit_value c)%N) b (int_of a).
Proof. unfold int_of. apply fold_left_app. Qed.

Lemma int_of_uint_acc d : ∀ acc,
  fold_left (λ acc c, (10 * acc + digit_value c)%N) (uint_chars d) (N.pos acc)
    = N.pos (Pos.of_uint_acc d acc).
Proof.
  induction d; intros acc; simpl; [done|..];
    rewrite <- IHd; f_equal;
    match goal with
    | |- context [digit_value ?c] =>
        let v := eval vm_compute in (digit_value c) in
        change (digit_value c) with v
    end; lia.
Qed.

Lemma int_of_uint d : int_of (uint_chars d) = Pos.of_uint d.
Proof.
  unfold int_of. induction d; simpl; [done|exact IHd|..];
    match goal with
    | |- context [digit_value ?c] =>
        let v := eval vm_compute in (digit_value c) in
        change (digit_value c) with v
    end; refine (int_of_uint_acc d _).
Qed.

Lemma uint_chars_digits d : forallb is_digit (uint_chars d) = true.
Proof.
  induction d; simpl; [done|..]; rewrite IHd; by vm_compute.
Qed.

Lemma int_of_zeros k s : int_of (replicate k 48%N ++ s) = int_of s.
Proof.
  rewrite int_of_app. unfold int_of at 2.
  assert (int_of (replicate k 48%N) = 0%N) as ->; [|done].
  induction k as [|k IH]; [done|].
  change (replicate (S k) 48%N) with ([48%N] ++ replicate k 48%N).
  rewrite int_of_app. change (int_of [48%N]) with 0%N. exact IH.
Qed.

Lemma fmt04_reads_back n : int_of (fmt04 n) = n.
Proof.
  unfold fmt04. rewrite int_of_zeros, int_of_uint.
  apply DecimalN.Unsigned.of_to.
Qed.

Lemma fmt04_digits n : forallb is_digit (fmt04 n) = true.
Proof.
  unfold fmt04. rewrite forallb_app, uint_chars_digits, andb_true_r.
  induction (4 - length _) as [|k IH]; [done|]. simpl. by rewrite IH.
Qed.

Lemma fmt04_length n : 4 ≤ length (fmt04 n).
Proof.
  unfold fmt04. cbv zeta. rewrite length_app, length_replicate.
  unfold str, char. lia.
Qed.

Lemma fmt04_inj n m : fmt04 n = fmt04 m → n = m.
Proof.
  intros H. rewrite <- (fmt04_reads_back n), <- (fmt04_reads_back m).
  by rewrite H.
Qed.

Lemma path_join_inj a b b' : path_join a b = path_join a b' → b = b'.
Proof.
  unfold path_join. destruct (last a) as [c|]; [|done].
  destruct (N.eqb c Ch.slash); intros H; apply app_inv_head in H; congruence.
Qed.

(** A greedy repetition with nothing after it takes the whole run. *)
Lemma rep_greedy_run p d : ∀ rest lo pos,
  forallb p d = true → from_option p false (head rest) = false →
  lo ≤ length d →
  rep true p lo None pos (d ++ rest) (λ e _, Some e) = Some (pos + length d).
Proof.
  induction d as [|c d IH]; intros rest lo pos Hd Hrest Hlo; simpl in *.
  - assert (lo = 0) as -> by lia. rewrite Nat.add_0_r.
    destruct rest as [|c rest]; simpl in *; [done|]. by rewrite Hrest.
  - apply andb_true_iff in Hd as [Hc Hd]. rewrite Hc. simpl.
    rewrite IH by (auto; lia). f_equal. lia.
Qed.

Lemma page_number_of_page_file n ext :
  from_option is_digit false (head ext) = false →
  Resume.page_number (page_file n ext) = Some n.
Proof.
  intros Hext. unfold Resume.page_number, re_search, page_file.
  assert (Hm : match_at Resume.page_re 0
                 ([112; 97; 103; 101; 95]%N ++ fmt04 n ++ ext)
               = Some (5 + length (fmt04 n))).
  { unfold match_at, Resume.page_re, word, plus. simpl.
    rewrite rep_greedy_run; [done|apply fmt04_digits|done|].
    pose proof (fmt04_length n). lia. }
  simpl app in *. simpl search_from. rewrite Hm.
  rewrite Nat.sub_0_r. change (5 + length (fmt04 n)) with (S (S (S (S (S (length (fmt04 n))))))).
  cbn [fmap option_fmap option_map snd take drop].
  rewrite take_app_length, drop_0. by rewrite fmt04_reads_back.
Qed.

Lemma rfind_lookup c s i : rfind c s = Some i → s !! i = Some c.
Proof.
  revert i. induction s as [|x s IH]; intros i; simpl; [done|].
  destruct (rfind c s) as [j|].
  - intros [= <-]. simpl. by apply IH.
  - destruct (N.eqb x c) eqn:E; [|done]. intros [= <-].
    apply N.eqb_eq in E. by subst.
Qed.

Lemma suffix_head name :
  from_option is_digit false (head (suffix name)) = false.
Proof.
  unfold suffix. cbv zeta.
  set (comp := default [] (last (split Ch.slash name))).
  destruct (rfind Ch.dot comp) as [i|] eqn:Hr; [|done].
  destruct ((0 <? i) && (i <? _)); [|done].
  apply rfind_lookup in Hr. rewrite head_lookup, lookup_drop, Nat.add_0_r.
  clearbody comp. unfold str, char in *. by rewrite Hr.
Qed.

Lemma member_target_path output_dir name t :
  member_target output_dir name = Some t →
  t.2 = path_join output_dir (page_file t.1 (suffix name)).
Proof.
  unfold member_target. destruct (is_image_name name); [|done].
  destruct (index_number name); [|done]. by intros [= <-].
Qed.

Lemma extracted_from_member epub output_dir fs t :
  t ∈ (extract_images epub output_dir fs).2 →
  ∃ name, name ∈ epub.*1 ∧ member_target output_dir name = Some t.
Proof.
  unfold extract_images. rewrite extract_fold. simpl.
  rewrite sort_pages_perm. intros H. by apply list_elem_of_omap in H.
Qed.

(** X1.  The file name under which a page image is written reads back as
    its page number: on the name of every listed path, [page_(\d+)] and
    [int] give the number the image was extracted under; zero padding and
    the suffix of the member do not disturb the pattern.  Which of the
    written files a resumed run finds is decided by its two glob patterns
    and is no part of this statement. *)
Theorem extracted_names_read_back (epub : archive) (output_dir : str)
    (fs : filesystem) (page_num : N) (path : str) :
  (page_num, path) ∈ (extract_images epub output_dir fs).2 →
  ∃ file_name, path = path_join output_dir file_name ∧
               Resume.page_number file_name = Some page_num.
Proof.
  intros H. apply extracted_from_member in H as (name & _ & Ht).
  apply member_target_path in Ht. simpl in Ht.
  exists (page_file page_num (suffix name)). split; [done|].
  apply page_number_of_page_file, suffix_head.
Qed.

Lemma extracted_names_read_back_witness :
  ∃ file_name, Sample.tmp_page5 = path_join Sample.tmp_dir file_name ∧
               Resume.page_number file_name = Some 5%N.
Proof.
  apply (extracted_names_read_back Sample.epub_page5 Sample.tmp_dir ∅).
  vm_compute. by left.
Defined.

(** X2.  [f"{n:04d}"] has at least four characters, all of them digits,
    and reads back as [n]; so two page numbers never share a cache file:
    [page_NNNN.txt] of one directory names one page. *)
Theorem cache_file_names_one_page (ocr_dir : str) (n m : N) :
  (4 ≤ length (fmt04 n) ∧ forallb is_digit (fmt04 n) = true ∧
   int_of (fmt04 n) = n) ∧
  (page_txt ocr_dir n = page_txt ocr_dir m → n = m).
Proof.
  split; [split; [apply fmt04_length|split; [apply fmt04_digits|apply fmt04_reads_back]]|].
  unfold page_txt, page_file. intros H. apply path_join_inj in H.
  apply app_inv_head, app_inv_tail in H. by apply fmt04_inj.
Qed.

(** ** More on the recognition cache *)

(** X3.  [ocr_single_page] changes at most the cache entry of its own
    page, and only when there was none: every other path, and every entry
    that exists, reads after the call as it did before.  In particular the
    entry of another page number is never touched. *)
Theorem ocr_single_page_touches_own_entry (tess : oracle)
    (image_path ocr_dir : str) (page_num : N) (w : world) :
  let w' := (EpubExtractor.ocr_single_page tess image_path ocr_dir page_num w).2 in
  (∀ f, files w' !! f ≠ files w !! f →
        f = page_txt ocr_dir page_num ∧ files w !! f = None) ∧
  (∀ other, other ≠ page_num →
            files w' !! page_txt ocr_dir other = files w !! page_txt ocr_dir other).
Proof.
  assert (H : ∀ f, files (EpubExtractor.ocr_single_page tess image_path ocr_dir
                            page_num w).2 !! f ≠ files w !! f →
                   f = page_txt ocr_dir page_num ∧ files w !! f = None).
  { intros f. unfold EpubExtractor.ocr_single_page.
    destruct (files w !! page_txt ocr_dir page_num) eqn:Hp; [done|].
    destruct (tess (calls w) image_path); [|done]. simpl. intros Hne.
    destruct (decide (f = page_txt ocr_dir page_num)) as [->|Hf]; [done|].
    by rewrite lookup_insert_ne in Hne. }
  split; [exact H|]. intros other Hother.
  destruct (decide (files (EpubExtractor.ocr_single_page tess image_path ocr_dir
                             page_num w).2 !! page_txt ocr_dir other
                    = files w !! page_txt ocr_dir other)) as [|Hne]; [done|].
  apply H in Hne as [Heq _]. exfalso. apply Hother.
  unfold page_txt, page_file in Heq. apply path_join_inj in Heq.
  apply app_inv_head, app_inv_tail in Heq. by apply fmt04_inj.
Qed.

Lemma ocr_single_page_touches_own_entry_witness :
  files (EpubExtractor.ocr_single_page (Sample.reading Sample.chapter_one)
           Sample.img_path Sample.ocr_dir 1 Sample.empty_world).2
    !! page_txt Sample.ocr_dir 2
  = files Sample.empty_world !! page_txt Sample.ocr_dir 2.
Proof.
  apply (proj2 (ocr_single_page_touches_own_entry
                  (Sample.reading Sample.chapter_one) Sample.img_path
                  Sample.ocr_dir 1 Sample.empty_world) 2%N).
  discriminate.
Defined.

Lemma read_text_no_cr content : Ch.cr ∉ content → read_text content = content.
Proof.
  induction content as [|c rest IH]; [done|]. intros Hcr. simpl.
  destruct (N.eqb c Ch.cr) eqn:E.
  - apply N.eqb_eq in E. subst c. exfalso. apply Hcr. by left.
  - f_equal. apply IH. intros Hin. apply Hcr. by right.
Qed.

Lemma read_text_cr_free content : Ch.cr ∉ read_text content.
Proof.
  assert (H : ∀ n content, length content ≤ n → Ch.cr ∉ read_text content).
  { clear content. induction n as [|n IH]; intros [|c rest] Hlen; simpl in *;
      try (by intros H; apply elem_of_nil in H); [lia|].
    destruct (N.eqb c Ch.cr) eqn:E.
    - intros Hin. apply elem_of_cons in Hin as [Hin|Hin]; [done|].
      destruct rest as [|c2 rest']; [by apply elem_of_nil in Hin|].
      simpl in Hlen. destruct (N.eqb c2 Ch.nl).
      + apply (IH rest'); [lia|done].
      + apply (IH (c2 :: rest')); [simpl; lia|done].
    - intros Hin. apply elem_of_cons in Hin as [Hin|Hin].
      + apply N.eqb_neq in E. congruence.
      + apply (IH rest); [lia|done]. }
  by apply (H (length content)).
Qed.

(** [\r\n] and a lone [\r] both come back as [\n]. *)
Example read_text_line_ends :
  read_text [97; 13; 10; 98; 13; 99; 10; 13]%N = [97; 10; 98; 10; 99; 10; 10]%N.
Proof. by vm_compute. Qed.

(** X4.  Once a recognition has succeeded for a page, every later request
    for that page number is a cache hit: it invokes nothing and changes
    nothing, whatever the image path given and whatever the recognition
    capability would now return.  What it returns is the persisted text as
    a text-mode read gives it, with [\r\n] and [\r] turned into [\n]: the
    text recognised first if that holds no carriage return, and a text
    without carriage return in any case. *)
Theorem recognised_text_is_read_back (tess tess' : oracle)
    (image_path image_path' ocr_dir : str) (page_num : N) (w : world)
    (text : str) :
  files w !! page_txt ocr_dir page_num = None →
  tess (calls w) image_path = Some text →
  let r1 := EpubExtractor.ocr_single_page tess image_path ocr_dir page_num w in
  let r2 := EpubExtractor.ocr_single_page tess' image_path' ocr_dir page_num r1.2 in
  r1.1 = text ∧ calls r1.2 = S (calls w) ∧
  r2 = (read_text text, r1.2) ∧
  (Ch.cr ∉ r2.1) ∧ (Ch.cr ∉ text → r2.1 = text).
Proof.
  intros Hnone Hsome. simpl. unfold EpubExtractor.ocr_single_page.
  rewrite Hnone, Hsome. simpl. rewrite lookup_insert_eq. simpl.
  split; [done|]. split; [done|]. split; [done|].
  split; [apply read_text_cr_free|apply read_text_no_cr].
Qed.

Lemma recognised_text_is_read_back_witness :
  (EpubExtractor.ocr_single_page Sample.failing Sample.tmp_dir Sample.ocr_dir 1
     (EpubExtractor.ocr_single_page (Sample.reading Sample.chapter_one)
        Sample.img_path Sample.ocr_dir 1 Sample.empty_world).2).1
  = Sample.chapter_one.
Proof.
  pose proof (recognised_text_is_read_back (Sample.reading Sample.chapter_one)
                Sample.failing Sample.img_path Sample.tmp_dir Sample.ocr_dir 1
                Sample.empty_world Sample.chapter_one) as H.
  simpl in H. destruct H as (_ & _ & _ & _ & H); [by vm_compute|done|].
  apply H. vm_compute. intros Hin.
  repeat (apply elem_of_cons in Hin as [Hin|Hin]; [discriminate|]).
  by apply elem_of_nil in Hin.
Defined.

(** X5.  The loops of epub_extractor.py and extract_epub_enhanced.py
    differ only in what they do when a recognition fails: given the same
    cache directory and the same recognition outcomes, none of them a
    failure, they leave the same cache files, invoke the recognition the
    same number of times and skip and process the same pages in the same
    order. *)
Theorem loops_agree_without_failure (tess : oracle)
    (image_files : list (N * str)) (ocr_dir : str) (start_page end_page : N) :
  (∀ k image_path, is_Some (tess k image_path)) →
  ∀ w, EpubExtractor.process_pages tess image_files ocr_dir start_page end_page w
       = ExtractEpubEnhanced.process_pages tess image_files ocr_dir
           start_page end_page w.
Proof.
  intros Hok. induction image_files as [|[page_num img_path] l IH]; intros w;
    simpl; [done|].
  destruct ((page_num <? start_page)%N || (end_page <? page_num)%N); [apply IH|].
  destruct (files w !! page_txt ocr_dir page_num) eqn:Hp; [apply IH|].
  unfold EpubExtractor.ocr_single_page, ExtractEpubEnhanced.ocr_image_enhanced.
  rewrite Hp. destruct (Hok (calls w) img_path) as [text ->]. simpl. apply IH.
Qed.

Lemma loops_agree_without_failure_witness :
  EpubExtractor.process_pages (Sample.reading Sample.chapter_one)
    [(1%N, Sample.img_path)] Sample.ocr_dir 1 20 Sample.empty_world
  = ExtractEpubEnhanced.process_pages (Sample.reading Sample.chapter_one)
      [(1%N, Sample.img_path)] Sample.ocr_dir 1 20 Sample.empty_world.
Proof.
  apply loops_agree_without_failure. intros k image_path. by eexists.
Defined.

Local Arguments in_range : simpl never.

Lemma in_range_cons_out a b (e : N * str) l :
  (e.1 <? a)%N || (b <? e.1)%N = true → in_range a b (e :: l) = in_range a b l.
Proof. intros H. unfold in_range. simpl. by rewrite H. Qed.

Lemma in_range_cons_in a b (e : N * str) l :
  (e.1 <? a)%N || (b <? e.1)%N = false →
  in_range a b (e :: l) = e :: in_range a b l.
Proof. intros H. unfold in_range. simpl. by rewrite H. Qed.

(** X6.  A run of the loop of extract_epub_enhanced.py leaves every page
    of the range that occurs in the list with a persisted result, keeps
    every result that was persisted before, and invokes the recognition
    capability at most once per listed page of the range. *)
Theorem enhanced_run_effect (tess : oracle) (image_files : list (N * str))
    (ocr_dir : str) (start_page end_page : N) (w : world) :
  let w' := ExtractEpubEnhanced.process_pages tess image_files ocr_dir
              start_page end_page w in
  (∀ page_num img_path, (page_num, img_path) ∈ image_files →
     (start_page ≤ page_num ≤ end_page)%N →
     is_Some (files w' !! page_txt ocr_dir page_num)) ∧
  (∀ f t, files w !! f = Some t → files w' !! f = Some t) ∧
  calls w ≤ calls w' ≤ calls w + length (in_range start_page end_page image_files).
Proof.
  simpl. split; [|split].
  - intros page_num img_path. apply enhanced_covers.
  - intros f t. apply enhanced_keeps_files.
  - revert w. induction image_files as [|[p img] l IH]; intros w; simpl; [lia|].
    destruct ((p <? start_page)%N || (end_page <? p)%N) eqn:Hr.
    + rewrite in_range_cons_out by done. apply IH.
    + rewrite in_range_cons_in by done. simpl.
      destruct (files w !! page_txt ocr_dir p).
      * specialize (IH (World (files w) (calls w) (out w ++ [PageSkipped p]))).
        simpl in IH. lia.
      * destruct (ocr_image_enhanced_world tess img w) as [_ Hc].
        match goal with
        | |- context [ExtractEpubEnhanced.process_pages _ _ _ _ _ ?w0] =>
            specialize (IH w0)
        end.
        simpl in IH. lia.
Qed.

Lemma enhanced_noop_out tess l ocr_dir a b : ∀ w,
  (∀ page_num img_path, (page_num, img_path) ∈ l → (a ≤ page_num ≤ b)%N →
                        is_Some (files w !! page_txt ocr_dir page_num)) →
  out (ExtractEpubEnhanced.process_pages tess l ocr_dir a b w)
    = out w ++ (PageSkipped <$> (in_range a b l).*1).
Proof.
  induction l as [|[p img] l IH]; intros w Hall; simpl.
  - by rewrite app_nil_r.
  - destruct ((p <? a)%N || (b <? p)%N) eqn:Hr.
    + rewrite in_range_cons_out by done. apply IH.
      intros q i Hin. apply (Hall q i). by right.
    + rewrite in_range_cons_in by done.
      pose proof Hr as Hr'. apply orb_false_iff in Hr' as [H1 H2].
      apply N.ltb_ge in H1, H2.
      destruct (Hall p img) as [t Ht]; [by left|lia|]. rewrite Ht.
      rewrite IH; simpl.
      * by rewrite <- app_assoc.
      * intros q i Hin. apply (Hall q i). by right.
Qed.

(** X7.  Running the loop of extract_epub_enhanced.py a second time over
    the same list, even with a recognition capability that answers
    differently, recognises nothing and writes nothing: every listed page
    of the range is reported as skipped. *)
Theorem enhanced_second_run_skips (tess tess' : oracle)
    (image_files : list (N * str)) (ocr_dir : str) (start_page end_page : N)
    (w : world) :
  let w1 := ExtractEpubEnhanced.process_pages tess image_files ocr_dir
              start_page end_page w in
  let w2 := ExtractEpubEnhanced.process_pages tess' image_files ocr_dir
              start_page end_page w1 in
  files w2 = files w1 ∧ calls w2 = calls w1 ∧
  out w2 = out w1 ++ (PageSkipped <$> (in_range start_page end_page image_files).*1).
Proof.
  simpl.
  assert (Hall : ∀ page_num img_path, (page_num, img_path) ∈ image_files →
            (start_page ≤ page_num ≤ end_page)%N →
            is_Some (files (ExtractEpubEnhanced.process_pages tess image_files
                              ocr_dir start_page end_page w)
                       !! page_txt ocr_dir page_num)).
  { intros page_num img_path. apply enhanced_covers. }
  destruct (enhanced_noop tess' image_files ocr_dir start_page end_page _ Hall)
    as [Hf Hc].
  split; [done|]. split; [done|]. by apply enhanced_noop_out.
Qed.

(** X8.  A run of the loop of epub_extractor.py keeps every result that
    was persisted before and invokes the recognition capability at most
    once per listed page of the range; a list with no page in the range
    leaves cache and invocation count as they were. *)
Theorem extractor_run_effect (tess : oracle) (image_files : list (N * str))
    (ocr_dir : str) (start_page end_page : N) (w : world) :
  let w' := EpubExtractor.process_pages tess image_files ocr_dir
              start_page end_page w in
  (∀ f t, files w !! f = Some t → files w' !! f = Some t) ∧
  calls w ≤ calls w' ≤ calls w + length (in_range start_page end_page image_files) ∧
  (in_range start_page end_page image_files = [] →
   files w' = files w ∧ calls w' = calls w).
Proof.
  simpl. revert w.
  induction image_files as [|[p img] l IH]; intros w; simpl.
  - split; [done|]. split; [lia|done].
  - destruct ((p <? start_page)%N || (end_page <? p)%N) eqn:Hr.
    + rewrite in_range_cons_out by done. apply IH.
    + rewrite in_range_cons_in by done.
      destruct (files w !! page_txt ocr_dir p) eqn:Hp.
      * destruct (IH (World (files w) (calls w) (out w ++ [PageSkipped p])))
          as (H1 & H2 & _).
        simpl in *. split; [done|]. split; [lia|done].
      * unfold EpubExtractor.ocr_single_page. rewrite Hp.
        destruct (tess (calls w) img) as [text|]; simpl.
        -- destruct (IH (World (<[page_txt ocr_dir p:=text]> (files w))
                           (S (calls w)) (out w ++ [PageDone p])))
             as (H1 & H2 & _).
           simpl in *. split; [|split; [lia|done]].
           intros f t Hf. apply H1. rewrite lookup_insert_ne; [done|].
           intros <-. congruence.
        -- destruct (IH (World (files w) (S (calls w))
                           ((out w ++ [OcrFailed]) ++ [PageDone p])))
             as (H1 & H2 & _).
           simpl in *. split; [done|]. split; [lia|done].
Qed.

(** ** What a search and a scan find *)

Lemma search_from_sound r s : ∀ pos p w,
  search_from r pos s = Some (p, w) →
  ∃ pre rest, s = pre ++ w ++ rest ∧ p = pos + length pre ∧ matches r p w rest.
Proof.
  induction s as [|c s IH]; intros pos p w; simpl.
  - destruct (match_at r pos []) as [e|] eqn:Hm; [|done].
    intros [= <- <-]. apply match_at_sound in Hm as (w & rest & Heq & Hw & ->).
    symmetry in Heq. apply app_eq_nil in Heq as [-> ->].
    exists [], []. simpl. rewrite Nat.add_0_r in *. by rewrite take_nil.
  - destruct (match_at r pos (c :: s)) as [e|] eqn:Hm.
    + intros [= <- <-]. apply match_at_sound in Hm as (w & rest & Heq & Hw & ->).
      exists [], rest. rewrite Heq. simpl.
      replace (pos + length w - pos) with (length w) by lia.
      rewrite take_app_length, Nat.add_0_r. done.
    + intros H. apply IH in H as (pre & rest & -> & -> & Hw).
      exists (c :: pre), rest. simpl. split; [done|]. split; [lia|].
      by replace (pos + S (length pre)) with (S pos + length pre) by lia.
Qed.

Lemma re_search_sound r s w :
  re_search r s = Some w →
  ∃ pre rest, s = pre ++ w ++ rest ∧ matches r (length pre) w rest.
Proof.
  unfold re_search. destruct (search_from r 0 s) as [[p w']|] eqn:H; [|done].
  intros [= <-]. apply search_from_sound in H as (pre & rest & -> & -> & Hw).
  by exists pre, rest.
Qed.

Lemma hits_app ps qs : hits (ps ++ qs) = hits ps ++ hits qs.
Proof.
  induction ps as [|[c|w] ps IH]; simpl; [done|done|by rewrite IH].
Qed.

Lemma scan_hits_sound r s : ∀ pos skip w,
  w ∈ hits (scan r pos skip s) → ∃ p rest, matches r p w rest.
Proof.
  induction s as [|c s IH]; intros pos skip w.
  - destruct skip; simpl; [|by intros H; apply elem_of_nil in H].
    destruct (match_at r pos []) as [e|] eqn:Hm; simpl;
      [|by intros H; apply elem_of_nil in H].
    intros H. apply list_elem_of_singleton in H. subst w.
    apply match_at_sound in Hm as (w & rest & Heq & Hw & ->).
    symmetry in Heq. apply app_eq_nil in Heq as [-> ->].
    rewrite take_nil. by exists pos, [].
  - destruct skip as [|n]; [|apply IH]. simpl.
    destruct (match_at r pos (c :: s)) as [e|] eqn:Hm.
    + simpl. rewrite hits_app. intros H.
      apply elem_of_cons in H as [->|H].
      * apply match_at_sound in Hm as (w & rest & Heq & Hw & ->).
        rewrite Heq.
        replace (pos + length w - pos) with (length w) by lia.
        rewrite take_app_length. by exists pos, rest.
      * apply elem_of_app in H as [H|H]; [|by apply IH in H].
        destruct (Nat.eqb e pos); simpl in H; by apply elem_of_nil in H.
    + simpl. apply IH.
Qed.

Lemma findall_sound r s w :
  w ∈ findall r s → ∃ p rest, matches r p w rest.
Proof. apply scan_hits_sound. Qed.

(** ** Cleaning keeps the heading *)

Lemma mem_true_elem c (l : list char) : mem c l = true → c ∈ l.
Proof.
  unfold mem. intros H. apply existsb_exists in H as (x & Hin & Heq).
  apply N.eqb_eq in Heq. subst x. by apply list_elem_of_In.
Qed.

Lemma digit_solid c : is_digit c = true → solid c = true.
Proof.
  intros Hd. unfold solid. rewrite (digit_not_space c Hd). simpl.
  destruct (dots c) eqn:Hdots.
  { apply mem_true_elem in Hdots.
    repeat (apply elem_of_cons in Hdots as [->|Hdots]; [by vm_compute in Hd|]).
    by apply elem_of_nil in Hdots. }
  simpl. destruct (N.eqb c Ch.lparen) eqn:E; [|done].
  apply N.eqb_eq in E. subst c. by vm_compute in Hd.
Qed.

Lemma numeral_solid c :
  numeral c || N.eqb c Ch.ling = true → solid c = true.
Proof.
  intros H. apply orb_true_iff in H as [H|H].
  - apply orb_true_iff in H as [H|H]; [|by apply digit_solid].
    apply mem_true_elem in H. unfold Ch.numerals in H.
    repeat (apply elem_of_cons in H as [->|H]; [by vm_compute|]).
    by apply elem_of_nil in H.
  - apply N.eqb_eq in H. subst c. by vm_compute.
Qed.

Lemma unit_solid c : unit_word c = true → solid c = true.
Proof.
  intros H. apply mem_true_elem in H. unfold Ch.units in H.
  repeat (apply elem_of_cons in H as [->|H]; [by vm_compute|]).
  by apply elem_of_nil in H.
Qed.

Lemma heading_solid nums u :
  forallb (λ c, numeral c || N.eqb c Ch.ling) nums = true →
  unit_word u = true →
  forallb solid (Ch.di :: nums ++ [u]) = true.
Proof.
  intros Hn Hu. change (forallb solid (Ch.di :: nums ++ [u]))
    with (solid Ch.di && forallb solid (nums ++ [u])).
  rewrite forallb_app. simpl. rewrite (unit_solid u Hu).
  assert (forallb solid nums = true) as ->; [|by vm_compute].
  induction nums as [|c nums IH]; [done|]. simpl in *.
  apply andb_true_iff in Hn as [Hc Hn]. by rewrite numeral_solid, IH.
Qed.

Lemma scan_solid_prefix r pre :
  (∀ c s pos, solid c = true → match_at r pos (c :: s) = None) →
  forallb solid pre = true →
  ∀ pos s, scan r pos 0 (pre ++ s)
           = (Lit <$> pre) ++ scan r (pos + length pre) 0 s.
Proof.
  intros Hr. induction pre as [|c pre IH]; intros Hpre pos s.
  - simpl. by rewrite Nat.add_0_r.
  - simpl in Hpre. apply andb_true_iff in Hpre as [Hc Hpre].
    change ((c :: pre) ++ s) with (c :: pre ++ s).
    rewrite scan_no_match by by apply Hr.
    rewrite IH by done. simpl.
    by replace (pos + S (length pre)) with (S (pos + length pre)) by lia.
Qed.

Lemma subst_lits repl pre ps :
  subst repl ((Lit <$> pre) ++ ps) = pre ++ subst repl ps.
Proof. induction pre as [|c pre IH]; [done|]. simpl. f_equal. exact IH. Qed.

Lemma re_sub_solid_prefix r repl pre s :
  (∀ c s pos, solid c = true → match_at r pos (c :: s) = None) →
  forallb solid pre = true →
  ∃ s', re_sub r repl (pre ++ s) = pre ++ s'.
Proof.
  intros Hr Hpre. unfold re_sub. rewrite scan_solid_prefix by done.
  rewrite subst_lits. eauto.
Qed.

Lemma solid_parts c :
  solid c = true →
  is_space c = false ∧ dots c = false ∧ N.eqb c Ch.lparen = false.
Proof.
  unfold solid. intros H. apply andb_true_iff in H as [H H3].
  apply andb_true_iff in H as [H1 H2].
  by rewrite !negb_true_iff in *.
Qed.

Lemma ws_run_not_solid c s pos :
  solid c = true → match_at ws_run pos (c :: s) = None.
Proof.
  intros Hc. apply solid_parts in Hc as (Hs & _ & _).
  destruct (match_at ws_run pos (c :: s)) as [e|] eqn:Hm; [|done]. exfalso.
  apply match_at_sound in Hm as (w & rest & Heq & (Hw & Hlen & _) & _).
  destruct w as [|c' w]; simpl in *; [lia|]. injection Heq as <- _.
  by rewrite Hs in Hw.
Qed.

Lemma dots_run_not_solid lo r c s pos :
  0 < lo → solid c = true →
  match_at (Seq (Rep true lo None dots) r) pos (c :: s) = None.
Proof.
  intros Hlo Hc. apply solid_parts in Hc as (_ & Hd & _).
  destruct (match_at _ pos (c :: s)) as [e|] eqn:Hm; [|done]. exfalso.
  apply match_at_sound in Hm as (w & rest & Heq & Hw & _).
  destruct Hw as (w1 & w2 & -> & (Hw & Hlen & _) & _).
  destruct w1 as [|c' w1]; simpl in *; [lia|]. injection Heq as <- _.
  by rewrite Hd in Hw.
Qed.

Lemma trunc1_not_solid c s pos :
  solid c = true → match_at trunc1 pos (c :: s) = None.
Proof. apply dots_run_not_solid. lia. Qed.

Lemma trunc2_not_solid c s pos :
  solid c = true → match_at trunc2 pos (c :: s) = None.
Proof. apply dots_run_not_solid. lia. Qed.

Lemma page_suffix_not_solid c s pos :
  solid c = true → match_at ParseEpubOcrV2.page_suffix pos (c :: s) = None.
Proof.
  intros Hc. apply solid_parts in Hc as (_ & _ & Hp).
  destruct (match_at _ pos (c :: s)) as [e|] eqn:Hm; [|done]. exfalso.
  apply match_at_sound in Hm as (w & rest & Heq & Hw & _).
  apply cls_seq_matches in Hw as (c' & w' & -> & Hc' & _).
  injection Heq as <- _. apply N.eqb_eq in Hc'. subst c. by vm_compute in Hp.
Qed.

Lemma rstrip_solid_prefix pre s :
  forallb solid pre = true → ∃ s', rstrip (pre ++ s) = pre ++ s'.
Proof.
  intros Hpre. destruct (rstrip_spec (pre ++ s)) as (sp & Heq & Hsp & _).
  apply app_eq_inv in Heq as [(k & Hk & Hs)|(k & Hk & Hs)]; [|eauto].
  destruct k as [|c k].
  - exists []. rewrite app_nil_r in *. done.
  - exfalso. rewrite Hs in Hsp. simpl in Hsp.
    apply andb_true_iff in Hsp as [Hc _].
    rewrite Hk in Hpre. apply forallb_app_true in Hpre as [_ Hpre].
    simpl in Hpre. apply andb_true_iff in Hpre as [Hc' _].
    apply solid_parts in Hc' as (Hc' & _). congruence.
Qed.

Lemma strip_solid_prefix pre s :
  forallb solid pre = true → ∃ s', strip (pre ++ s) = pre ++ s'.
Proof.
  intros Hpre. unfold strip. destruct pre as [|c pre].
  - simpl. eauto.
  - pose proof Hpre as Hpre'. simpl in Hpre'.
    apply andb_true_iff in Hpre' as [Hc _].
    apply solid_parts in Hc as (Hc & _).
    change ((c :: pre) ++ s) with (c :: pre ++ s). simpl lstrip. rewrite Hc.
    by apply (rstrip_solid_prefix (c :: pre) s).
Qed.

Lemma keeps_strip : keeps_prefix strip.
Proof. intros pre s. apply strip_solid_prefix. Qed.

Lemma keeps_re_sub r repl :
  (∀ c s pos, solid c = true → match_at r pos (c :: s) = None) →
  keeps_prefix (re_sub r repl).
Proof. intros Hr pre s. by apply re_sub_solid_prefix. Qed.

Lemma keeps_compose f g :
  keeps_prefix f → keeps_prefix g → keeps_prefix (λ s, g (f s)).
Proof.
  intros Hf Hg pre s Hpre. destruct (Hf pre s Hpre) as [s1 ->].
  by apply Hg.
Qed.

Lemma keeps_heading f unit t :
  keeps_prefix f → (∀ u, unit u = true → unit_word u = true) →
  opens_with_heading unit t → opens_with_heading unit (f t).
Proof.
  intros Hf Hunit (nums & u & tail & -> & Hne & Hnums & Hu).
  destruct (Hf (Ch.di :: nums ++ [u]) tail) as [s' Hs'].
  { apply heading_solid; auto. }
  exists nums, u, s'. split; [|done].
  replace (Ch.di :: nums ++ u :: tail) with ((Ch.di :: nums ++ [u]) ++ tail)
    by (simpl; by rewrite <- app_assoc).
  rewrite Hs'. simpl. by rewrite <- app_assoc.
Qed.

Lemma zhang_unit u : N.eqb Ch.zhang u = true → unit_word u = true.
Proof. intros H. apply N.eqb_eq in H. by subst u. Qed.

Lemma numeral_or_ling nums :
  forallb numeral nums = true →
  forallb (λ c, numeral c || N.eqb c Ch.ling) nums = true.
Proof.
  induction nums as [|c nums IH]; [done|]. simpl. intros H.
  apply andb_true_iff in H as [-> H]. by rewrite IH.
Qed.

(** A match of a pattern that starts with the ordinal marker, numerals and
    a unit word opens with a heading. *)
Lemma head_then_matches numcls last r pos w rest :
  (∀ c, numcls c = true → numeral c || N.eqb c Ch.ling = true) →
  matches (Seq (chr Ch.di) (Seq (plus numcls) (Seq (Cls last) r))) pos w rest →
  opens_with_heading last w.
Proof.
  intros Hcls Hw.
  apply cls_seq_matches in Hw as (c & w1 & -> & Hc & nums & w2 & -> &
    (Hnums & Hlen & _) & Hw).
  apply cls_seq_matches in Hw as (u & tail & -> & Hu & _).
  apply N.eqb_eq in Hc. subst c. exists nums, u, tail.
  split; [done|]. split; [intros ->; simpl in Hlen; lia|]. split; [|done].
  clear Hlen. induction nums as [|c nums IH]; [done|]. simpl in *.
  apply andb_true_iff in Hnums as [Hc Hnums]. by rewrite Hcls, IH.
Qed.

Lemma head_matches last r pos w rest :
  matches (Seq (seqs [chr Ch.di; plus numeral; Cls last]) r) pos w rest →
  opens_with_heading last w.
Proof.
  intros (w1 & tail & -> & Hw & _).
  unfold seqs in Hw.
  apply cls_seq_matches in Hw as (c & w2 & -> & Hc & nums & w3 & -> &
    (Hnums & Hlen & _) & u & -> & Hu).
  apply N.eqb_eq in Hc. subst c. exists nums, u, tail.
  split; [simpl; by rewrite <- app_assoc|].
  split; [intros ->; simpl in Hlen; lia|]. split; [|done].
  by apply numeral_or_ling.
Qed.

Lemma fold_left_inv {A B} (I : A → Prop) (f : A → B → A) bs :
  (∀ a b, b ∈ bs → I a → I (f a b)) → ∀ a, I a → I (fold_left f bs a).
Proof.
  induction bs as [|b bs IH]; intros Hf a Ha; simpl; [done|].
  apply IH.
  - intros a' b' Hb'. apply Hf. by right.
  - apply Hf; [by left|done].
Qed.

Lemma keeps_extract_chapters_clean : keeps_prefix ExtractChapters.clean.
Proof.
  unfold ExtractChapters.clean.
  apply (keeps_compose (λ s, re_sub trunc1 [] (re_sub ws_run [Ch.space] (strip s)))
           strip); [|apply keeps_strip].
  apply (keeps_compose (λ s, re_sub ws_run [Ch.space] (strip s))
           (re_sub trunc1 [])); [|apply keeps_re_sub, trunc1_not_solid].
  apply (keeps_compose strip (re_sub ws_run [Ch.space]));
    [apply keeps_strip|apply keeps_re_sub, ws_run_not_solid].
Qed.

Lemma keeps_v2_clean : keeps_prefix ParseEpubOcrV2.clean.
Proof.
  unfold ParseEpubOcrV2.clean.
  apply (keeps_compose
           (λ s, re_sub ParseEpubOcrV2.page_suffix []
                   (re_sub trunc2 [] (re_sub ws_run [Ch.space] (strip s))))
           strip); [|apply keeps_strip].
  apply (keeps_compose
           (λ s, re_sub trunc2 [] (re_sub ws_run [Ch.space] (strip s)))
           (re_sub ParseEpubOcrV2.page_suffix []));
    [|apply keeps_re_sub, page_suffix_not_solid].
  apply (keeps_compose (λ s, re_sub ws_run [Ch.space] (strip s))
           (re_sub trunc2 [])); [|apply keeps_re_sub, trunc2_not_solid].
  apply (keeps_compose strip (re_sub ws_run [Ch.space]));
    [apply keeps_strip|apply keeps_re_sub, ws_run_not_solid].
Qed.

(** ** Titles of extract_chapters.py *)

Lemma extract_chapters_add_match chapters m :
  let I := λ l : list str,
    NoDup l ∧ Forall (opens_with_heading (N.eqb Ch.zhang)) l in
  opens_with_heading (N.eqb Ch.zhang) m →
  I chapters → I (ExtractChapters.add_match chapters m).
Proof.
  intros I Hm [Hnd Hall]. unfold ExtractChapters.add_match.
  destruct (negb (str_eqb _ []) && (3 <? _) && negb (in_list _ chapters)) eqn:E1;
    [|done].
  destruct (negb (mem Ch.bar _) && (_ <? 50)) eqn:E2; [|done].
  apply andb_true_iff in E1 as [_ E1]. apply negb_true_iff in E1.
  unfold in_list in E1. apply bool_decide_eq_false in E1.
  split.
  - apply NoDup_app. split; [done|]. split; [|apply NoDup_singleton].
    intros x Hx Hx'. apply list_elem_of_singleton in Hx'. by subst x.
  - apply Forall_app. split; [done|]. apply Forall_singleton.
    apply keeps_heading; [apply keeps_extract_chapters_clean|apply zhang_unit|done].
Qed.

(** X9.  The titles returned by [extract_chapters_from_ocr] are pairwise
    different, and each opens with a chapter heading -- the ordinal marker,
    one or more numerals and the unit word U+7AE0 -- untouched by the
    cleaning steps; each has at least four characters and no vertical
    bar. *)
Theorem extract_chapters_titles (texts : list str) :
  NoDup (ExtractChapters.extract_chapters_from_ocr texts) ∧
  ∀ t, t ∈ ExtractChapters.extract_chapters_from_ocr texts →
       opens_with_heading (N.eqb Ch.zhang) t ∧ 4 ≤ length t ∧ Ch.bar ∉ t.
Proof.
  assert (H : NoDup (ExtractChapters.extract_chapters_from_ocr texts) ∧
              Forall (opens_with_heading (N.eqb Ch.zhang))
                     (ExtractChapters.extract_chapters_from_ocr texts)).
  { unfold ExtractChapters.extract_chapters_from_ocr.
    apply (fold_left_inv (λ l, NoDup l ∧ Forall _ l));
      [|split; constructor].
    intros acc text _ Hacc. unfold ExtractChapters.add_file.
    apply (fold_left_inv (λ l, NoDup l ∧ Forall _ l)); [|done].
    intros acc' m Hm Hacc'. apply extract_chapters_add_match; [|done].
    apply findall_sound in Hm as (p & rest & Hm).
    apply (head_then_matches _ _ _ _ _ _ (λ c H, H) Hm). }
  destruct H as [Hnd Hall]. split; [done|]. intros t Ht.
  split; [by apply (proj1 (Forall_forall _ _) Hall)|].
  pose proof (extract_chapters_kept texts) as H.
  rewrite Forall_forall in H. apply H in Ht as [? ?].
  split; [lia|]. by apply mem_false_not_elem.
Qed.

(** ** Titles of parse_epub_ocr_v2.py *)

Lemma v2_titles_of_page text :
  Forall (λ t, opens_with_heading (N.eqb Ch.zhang) t ∧ 4 ≤ length t)
         (ParseEpubOcrV2.extract_chapter_titles_clean text).
Proof.
  unfold ParseEpubOcrV2.extract_chapter_titles_clean.
  apply (fold_left_inv (Forall _)); [|constructor].
  intros acc m Hm Hacc. unfold ParseEpubOcrV2.add_match.
  destruct ((3 <? _) && negb (in_list _ acc)) eqn:E; [|done].
  apply andb_true_iff in E as [E _]. apply Nat.ltb_lt in E.
  apply Forall_app. split; [done|]. apply Forall_singleton. split; [|lia].
  apply keeps_heading; [apply keeps_v2_clean|apply zhang_unit|].
  apply findall_sound in Hm as (p & rest & Hm).
  by apply head_matches in Hm.
Qed.

Lemma v2_scan_loop_titles tess pages : ∀ n acc,
  Forall (λ t, opens_with_heading (N.eqb Ch.zhang) t ∧ 4 ≤ length t) acc →
  Forall (λ t, opens_with_heading (N.eqb Ch.zhang) t ∧ 4 ≤ length t)
         (ParseEpubOcrV2.scan_loop tess n pages acc).
Proof.
  induction pages as [|img_path rest IH]; intros n acc Hacc; simpl; [done|].
  apply IH, Forall_app. split; [done|]. apply v2_titles_of_page.
Qed.

(** X10.  Every title returned by [find_toc_and_extract_chapters] opens
    with a chapter heading (ordinal marker, numerals, U+7AE0), which the
    cleaning steps leave as matched, and has at least four characters. *)
Theorem v2_titles_open_with_heading (tess : oracle) (n : nat)
    (image_files : list str) (max_pages : nat) (t : str) :
  t ∈ ParseEpubOcrV2.find_toc_and_extract_chapters tess n image_files max_pages →
  opens_with_heading (N.eqb Ch.zhang) t ∧ 4 ≤ length t.
Proof.
  unfold ParseEpubOcrV2.find_toc_and_extract_chapters. intros Ht.
  apply (proj1 (unique_elem _ _)) in Ht.
  pose proof (v2_scan_loop_titles tess (take max_pages image_files) n []
                (Forall_nil_2 _)) as H.
  rewrite Forall_forall in H. by apply H.
Qed.

Lemma v2_titles_open_with_heading_witness :
  opens_with_heading (N.eqb Ch.zhang) Sample.chapter_one ∧
  4 ≤ length Sample.chapter_one.
Proof.
  apply (v2_titles_open_with_heading (Sample.reading Sample.chapter_one) 0
           [Sample.img_path] 20).
  unfold ParseEpubOcrV2.find_toc_and_extract_chapters.
  apply (proj2 (unique_elem _ _)). vm_compute. by left.
Defined.

(** ** Entries of extract_toc.py *)

Lemma match_group1_sound r1 r2 line g1 :
  ExtractToc.match_group1 r1 r2 line = Some g1 →
  ∃ rest, line = g1 ++ rest ∧ matches r1 0 g1 rest.
Proof.
  unfold ExtractToc.match_group1. intros H.
  apply rmatch_sound in H as (w & rest & Heq & Hw & Hk).
  apply rmatch_sound in Hk as (w' & rest' & _ & _ & Hk).
  subst line. simpl in Hk. rewrite take_app_length in Hk.
  injection Hk as <-. by exists rest.
Qed.

Lemma re_match_sound r line g1 :
  re_match r line = Some g1 → ∃ rest, line = g1 ++ rest ∧ matches r 0 g1 rest.
Proof.
  unfold re_match. destruct (match_at r 0 line) as [e|] eqn:Hm; [|done].
  intros [= <-]. apply match_at_sound in Hm as (w & rest & -> & Hw & ->).
  exists rest. simpl. by rewrite take_app_length.
Qed.

Lemma keeps_row_clean :
  keeps_prefix (λ s, re_sub ws_run [Ch.space] (strip s)).
Proof.
  apply (keeps_compose strip (re_sub ws_run [Ch.space]));
    [apply keeps_strip|apply keeps_re_sub, ws_run_not_solid].
Qed.

Lemma keeps_plain_clean :
  keeps_prefix (λ s, re_sub ws_run [Ch.space] (re_sub trunc1 [] (strip s))).
Proof.
  apply (keeps_compose (λ s, re_sub trunc1 [] (strip s))
           (re_sub ws_run [Ch.space])); [|apply keeps_re_sub, ws_run_not_solid].
  apply (keeps_compose strip (re_sub trunc1 []));
    [apply keeps_strip|apply keeps_re_sub, trunc1_not_solid].
Qed.

Lemma add_line_inv entries line :
  let I := λ l : list str, NoDup l ∧ Forall (opens_with_heading unit_word) l in
  I entries → I (ExtractToc.add_line entries line).
Proof.
  intros I [Hnd Hall]. unfold ExtractToc.add_line.
  destruct (str_eqb (strip line) []); [done|].
  destruct (ExtractToc.match_group1 _ _ _) as [g1|] eqn:Hrow.
  - destruct (negb (str_eqb _ []) && negb (in_list _ entries)) eqn:E; [|done].
    apply andb_true_iff in E as [_ E]. apply negb_true_iff in E.
    unfold in_list in E. apply bool_decide_eq_false in E.
    apply match_group1_sound in Hrow as (rest & _ & Hw).
    apply head_matches in Hw.
    split.
    + apply NoDup_app. split; [done|]. split; [|apply NoDup_singleton].
      intros x Hx Hx'. apply list_elem_of_singleton in Hx'. by subst x.
    + apply Forall_app. split; [done|]. apply Forall_singleton.
      by apply (keeps_heading _ _ _ keeps_row_clean).
  - destruct (re_match ExtractToc.plain_title _) as [g1|] eqn:Hplain; [|done].
    destruct ((3 <? _) && negb (in_list _ entries)) eqn:E; [|done].
    apply andb_true_iff in E as [_ E]. apply negb_true_iff in E.
    unfold in_list in E. apply bool_decide_eq_false in E.
    apply re_match_sound in Hplain as (rest & _ & Hw).
    apply head_matches in Hw.
    split.
    + apply NoDup_app. split; [done|]. split; [|apply NoDup_singleton].
      intros x Hx Hx'. apply list_elem_of_singleton in Hx'. by subst x.
    + apply Forall_app. split; [done|]. apply Forall_singleton.
      by apply (keeps_heading _ _ _ keeps_plain_clean).
Qed.

(** X11.  The entries [extract_toc_entries] returns for a page are
    pairwise different, and each opens with a heading: the ordinal marker,
    one or more numerals and one of the six unit words, with the page
    number and the leader dots after it cleaned away or not. *)
Theorem toc_entries_open_with_heading (text : str) :
  NoDup (ExtractToc.extract_toc_entries text) ∧
  ∀ t, t ∈ ExtractToc.extract_toc_entries text →
       opens_with_heading unit_word t.
Proof.
  assert (H : NoDup (ExtractToc.extract_toc_entries text) ∧
              Forall (opens_with_heading unit_word)
                     (ExtractToc.extract_toc_entries text)).
  { unfold ExtractToc.extract_toc_entries.
    apply (fold_left_inv (λ l, NoDup l ∧ Forall _ l)); [|split; constructor].
    intros acc line _. apply add_line_inv. }
  destruct H as [Hnd Hall]. split; [done|].
  by apply Forall_forall.
Qed.

Lemma toc_scan_loop_elem tess pages t : ∀ n acc,
  t ∈ ExtractToc.scan_loop tess n pages acc ↔
  t ∈ acc ∨ ∃ i page_num img_path,
    pages !! i = Some (page_num, img_path) ∧
    ExtractToc.is_toc_page (ocr_image tess (n + i) img_path) = true ∧
    t ∈ ExtractToc.extract_toc_entries (ocr_image tess (n + i) img_path).
Proof.
  induction pages as [|[page_num img_path] rest IH]; intros n acc; simpl.
  - split; [by left|]. intros [H|(i & p & img & H & _)]; done.
  - rewrite IH. clear IH. split.
    + intros [H|(i & p & img & Hi & Htoc & Ht)].
      * destruct (ExtractToc.is_toc_page _) eqn:Htoc; [|by left].
        destruct (ExtractToc.extract_toc_entries _) as [|e es] eqn:He; [by left|].
        apply elem_of_app in H as [H|H]; [by left|]. right.
        exists 0, page_num, img_path. rewrite Nat.add_0_r, He. done.
      * right. exists (S i), p, img.
        by replace (n + S i) with (S n + i) by lia.
    + intros [H|(i & p & img & Hi & Htoc & Ht)].
      * left. destruct (ExtractToc.is_toc_page _); [|done].
        destruct (ExtractToc.extract_toc_entries _); [done|].
        apply elem_of_app. by left.
      * destruct i as [|i]; simpl in Hi.
        -- injection Hi as -> ->. rewrite Nat.add_0_r in *. left.
           rewrite Htoc.
           destruct (ExtractToc.extract_toc_entries _) as [|e es];
             [by apply elem_of_nil in Ht|].
           apply elem_of_app. by right.
        -- right. exists i, p, img.
           by replace (S n + i) with (n + S i) by lia.
Qed.

(** X12.  [scan_for_toc] returns exactly the entries of the pages it
    classifies as TOC pages among the first [max_pages] images: a title is
    in the result if and only if [extract_toc_entries] finds it on such a
    page; the text of a page that is not classified as a TOC page
    contributes nothing, and images past [max_pages] are not looked at. *)
Theorem scan_for_toc_entries (tess : oracle) (n : nat)
    (image_files : list (N * str)) (max_pages : nat) (t : str) :
  t ∈ ExtractToc.scan_for_toc tess n image_files max_pages ↔
  ∃ i page_num img_path,
    i < max_pages ∧ image_files !! i = Some (page_num, img_path) ∧
    ExtractToc.is_toc_page (ocr_image tess (n + i) img_path) = true ∧
    t ∈ ExtractToc.extract_toc_entries (ocr_image tess (n + i) img_path).
Proof.
  unfold ExtractToc.scan_for_toc. rewrite unique_elem, toc_scan_loop_elem.
  split.
  - intros [H|(i & p & img & Hi & H)]; [by apply elem_of_nil in H|].
    apply lookup_take_Some in Hi as [Hi Hlt]. by exists i, p, img.
  - intros (i & p & img & Hlt & Hi & H). right. exists i, p, img.
    split; [|done]. by apply lookup_take_Some.
Qed.

(** ** Chapters recorded by the full scans *)

Lemma keeps_scan_clean :
  keeps_prefix (λ s, strip (re_sub trunc2 [] (re_sub ws_run [Ch.space] (strip s)))).
Proof.
  apply (keeps_compose
           (λ s, re_sub trunc2 [] (re_sub ws_run [Ch.space] (strip s)))
           strip); [|apply keeps_strip].
  apply (keeps_compose (λ s, re_sub ws_run [Ch.space] (strip s))
           (re_sub trunc2 [])); [|apply keeps_re_sub, trunc2_not_solid].
  apply keeps_row_clean.
Qed.

Lemma extract_chapter_from_page_heading text title :
  ScanChapters.extract_chapter_from_page text = Some title →
  opens_with_heading (N.eqb Ch.zhang) title.
Proof.
  unfold ScanChapters.extract_chapter_from_page.
  destruct (re_search ScanChapters.pattern _) as [m|] eqn:Hm; [|done].
  intros [= <-]. apply re_search_sound in Hm as (pre & rest & _ & Hm).
  apply head_matches in Hm.
  by apply (keeps_heading _ _ _ keeps_scan_clean zhang_unit).
Qed.

Lemma scan_all_pages_origin tess image_files : ∀ n page_num title,
  (page_num, title) ∈ ScanChapters.scan_all_pages tess n image_files →
  ∃ i img_path,
    image_files !! i = Some (page_num, img_path) ∧
    ScanChapters.extract_chapter_from_page (ocr_image tess (n + i) img_path)
      = Some title.
Proof.
  induction image_files as [|[p img] rest IH]; intros n page_num title; simpl.
  - intros H. by apply elem_of_nil in H.
  - destruct (ScanChapters.extract_chapter_from_page (ocr_image tess n img))
      as [[|c chapter]|] eqn:He; simpl.
    + intros H. apply IH in H as (i & img' & Hi & H). exists (S i), img'.
      by replace (n + S i) with (S n + i) by lia.
    + intros H. apply elem_of_cons in H as [[= -> ->]|H].
      * exists 0, img. by rewrite Nat.add_0_r.
      * apply IH in H as (i & img' & Hi & H). exists (S i), img'.
        by replace (n + S i) with (S n + i) by lia.
    + intros H. apply IH in H as (i & img' & Hi & H). exists (S i), img'.
      by replace (n + S i) with (S n + i) by lia.
Qed.

(** X13.  [scan_all_pages] of scan_chapters.py records a chapter under the
    page number the store holds for the image whose text it was found in,
    in the order of the store; the recorded title is what
    [extract_chapter_from_page] returns for that text, and it opens with a
    chapter heading. *)
Theorem scan_all_pages_records (tess : oracle) (n : nat)
    (image_files : list (N * str)) :
  sublist (ScanChapters.scan_all_pages tess n image_files).*1 image_files.*1 ∧
  ∀ page_num title,
    (page_num, title) ∈ ScanChapters.scan_all_pages tess n image_files →
    opens_with_heading (N.eqb Ch.zhang) title ∧
    ∃ i img_path,
      image_files !! i = Some (page_num, img_path) ∧
      ScanChapters.extract_chapter_from_page (ocr_image tess (n + i) img_path)
        = Some title.
Proof.
  split; [apply scan_all_pages_store_numbers|].
  intros page_num title H.
  apply scan_all_pages_origin in H as (i & img & Hi & H).
  split; [by apply extract_chapter_from_page_heading in H|by exists i, img].
Qed.

Lemma scan_loop_origin tess image_files : ∀ n i k name,
  (k, name) ∈ ParseEpubOcr.scan_loop tess n i image_files →
  ∃ j img_path,
    image_files !! j = Some img_path ∧ k = (i + N.of_nat (S j))%N ∧
    ParseEpubOcr.chapter_start (ocr_image tess (n + j) img_path) = Some name.
Proof.
  induction image_files as [|img rest IH]; intros n i k name; simpl.
  - intros H. by apply elem_of_nil in H.
  - destruct (ParseEpubOcr.chapter_start (ocr_image tess n img))
      as [chapter_name|] eqn:He.
    + intros H. apply elem_of_cons in H as [[= -> ->]|H].
      * exists 0, img. rewrite Nat.add_0_r. split; [done|]. split; [lia|done].
      * apply IH in H as (j & img' & Hj & -> & H). exists (S j), img'.
        split; [done|]. split; [lia|].
        by replace (n + S j) with (S n + j) by lia.
    + intros H. apply IH in H as (j & img' & Hj & -> & H). exists (S j), img'.
      split; [done|]. split; [lia|].
      by replace (n + S j) with (S n + j) by lia.
Qed.

Lemma chapter_start_heading text name :
  ParseEpubOcr.chapter_start text = Some name →
  opens_with_heading unit_word name.
Proof.
  unfold ParseEpubOcr.chapter_start.
  destruct (re_match ParseEpubOcr.chapter_pattern _); [|done].
  destruct (re_search ParseEpubOcr.name_pattern _) as [m|] eqn:Hm; [|done].
  intros [= <-]. apply re_search_sound in Hm as (pre & rest & _ & Hm).
  apply head_matches in Hm.
  by apply (keeps_heading _ _ _ keeps_strip).
Qed.

(** X14.  [scan_all_pages_for_chapters] of parse_epub_ocr.py records a
    chapter under the one-based position of the image in the list it is
    given: the pair [(j + 1, name)] stands for the image at index [j],
    whose text, trimmed and cut to its first three lines, opens after
    whitespace at most with a heading; [name] itself opens with a
    heading. *)
Theorem full_scan_records (tess : oracle) (n : nat) (image_files : list str)
    (k : N) (name : str) :
  (k, name) ∈ ParseEpubOcr.scan_all_pages_for_chapters tess n image_files →
  opens_with_heading unit_word name ∧
  ∃ j img_path,
    image_files !! j = Some img_path ∧ k = N.of_nat (S j) ∧
    ParseEpubOcr.chapter_start (ocr_image tess (n + j) img_path) = Some name ∧
    ∃ ws nums unit tail,
      ParseEpubOcr.first_lines (ocr_image tess (n + j) img_path)
        = ws ++ Ch.di :: nums ++ unit :: tail ∧
      forallb is_space ws = true ∧ nums ≠ [] ∧
      forallb numeral nums = true ∧ unit_word unit = true.
Proof.
  unfold ParseEpubOcr.scan_all_pages_for_chapters. intros H.
  apply scan_loop_origin in H as (j & img & Hj & -> & H).
  split; [by apply chapter_start_heading in H|].
  exists j, img. split; [done|]. split; [lia|]. split; [done|].
  by apply chapter_start_anchored in H.
Qed.

Lemma full_scan_records_witness :
  opens_with_heading unit_word Sample.chapter_one.
Proof.
  apply (proj1 (full_scan_records (Sample.reading Sample.chapter_one) 0
                  [Sample.img_path] 1 Sample.chapter_one
                  ltac:(vm_compute; by left))).
Defined.

(** ** Titles of parse_epub_ocr.py *)

Lemma not_nl_clean m : Ch.nl ∉ ParseEpubOcr.clean m.
Proof.
  unfold ParseEpubOcr.clean. intros H.
  apply list_elem_of_fmap in H as (c & Heq & _).
  destruct (N.eqb c Ch.nl) eqn:E; [done|].
  apply N.eqb_neq in E. congruence.
Qed.

(** X15.  The titles [extract_chapter_titles] of parse_epub_ocr.py returns
    for a page are pairwise different, each has at least two characters,
    and none holds a newline. *)
Theorem extract_chapter_titles_shape (text : str) :
  NoDup (ParseEpubOcr.extract_chapter_titles text) ∧
  ∀ t, t ∈ ParseEpubOcr.extract_chapter_titles text →
       2 ≤ length t ∧ Ch.nl ∉ t.
Proof.
  assert (H : NoDup (ParseEpubOcr.extract_chapter_titles text) ∧
              Forall (λ t : str, 2 ≤ length t ∧ Ch.nl ∉ t)
                     (ParseEpubOcr.extract_chapter_titles text)).
  { unfold ParseEpubOcr.extract_chapter_titles.
    apply (fold_left_inv (λ l, NoDup l ∧ Forall _ l)); [|split; constructor].
    intros acc pattern _ Hacc.
    apply (fold_left_inv (λ l, NoDup l ∧ Forall _ l)); [|done].
    intros acc' m _ [Hnd Hall]. unfold ParseEpubOcr.add_match.
    destruct ((1 <? _) && negb (in_list _ acc')) eqn:E; [|done].
    apply andb_true_iff in E as [E1 E2]. apply Nat.ltb_lt in E1.
    apply negb_true_iff in E2. unfold in_list in E2.
    apply bool_decide_eq_false in E2. split.
    - apply NoDup_app. split; [done|]. split; [|apply NoDup_singleton].
      intros x Hx Hx'. apply list_elem_of_singleton in Hx'. by subst x.
    - apply Forall_app. split; [done|]. apply Forall_singleton.
      split; [lia|apply not_nl_clean]. }
  destruct H as [Hnd Hall]. split; [done|]. by apply Forall_forall.
Qed.

(** ** Recognition that fails *)

Lemma ocr_image_failed tess n image_path :
  tess n image_path = None → ocr_image tess n image_path = [].
Proof. unfold ocr_image. by intros ->. Qed.

(** X16.  A recognition that raises is read as an empty page by the four
    scanning scripts, and an empty page is no TOC page and no chapter
    start: when every call fails, each scan ends without an error and
    reports no title. *)
Theorem failed_recognition_finds_nothing (tess : oracle) :
  (∀ k image_path, tess k image_path = None) →
  (∀ n image_files max_pages,
     ExtractToc.scan_for_toc tess n image_files max_pages = []) ∧
  (∀ n image_files, ScanChapters.scan_all_pages tess n image_files = []) ∧
  (∀ n image_files max_pages,
     ParseEpubOcrV2.find_toc_and_extract_chapters tess n image_files max_pages
       = []) ∧
  (∀ n image_files max_pages,
     ParseEpubOcr.find_toc_pages tess n image_files max_pages = []) ∧
  (∀ n image_files,
     ParseEpubOcr.scan_all_pages_for_chapters tess n image_files = []).
Proof.
  intros Hfail.
  assert (Hocr : ∀ n p, ocr_image tess n p = [])
    by (intros n p; apply ocr_image_failed, Hfail).
  split; [|split; [|split; [|split]]].
  - intros n image_files max_pages. unfold ExtractToc.scan_for_toc.
    assert (∀ pages n, ExtractToc.scan_loop tess n pages [] = []) as ->; [|done].
    induction pages as [|[p img] rest IH]; intros k; simpl; [done|].
    rewrite Hocr. apply IH.
  - intros n image_files. revert n.
    induction image_files as [|[p img] rest IH]; intros n; simpl; [done|].
    rewrite Hocr. apply IH.
  - intros n image_files max_pages.
    unfold ParseEpubOcrV2.find_toc_and_extract_chapters.
    assert (∀ pages n, ParseEpubOcrV2.scan_loop tess n pages [] = []) as ->;
      [|done].
    induction pages as [|img rest IH]; intros k; simpl; [done|].
    rewrite Hocr. apply IH.
  - intros n image_files max_pages. unfold ParseEpubOcr.find_toc_pages.
    generalize (take max_pages image_files). intros pages. revert n.
    induction pages as [|img rest IH]; intros k; simpl; [done|].
    rewrite Hocr. apply IH.
  - intros n image_files. unfold ParseEpubOcr.scan_all_pages_for_chapters.
    generalize 0%N. revert n.
    induction image_files as [|img rest IH]; intros k i; simpl; [done|].
    rewrite Hocr. apply IH.
Qed.

Lemma failed_recognition_finds_nothing_witness :
  ExtractToc.scan_for_toc Sample.failing 0 [(1%N, Sample.img_path)] 20 = [].
Proof.
  apply (failed_recognition_finds_nothing Sample.failing). done.
Defined.

(** ** Which members are extracted, and under which number *)

Lemma word_matches l : l ≠ [] → ∀ pos w rest, matches (word l) pos w rest ↔ w = l.
Proof.
  induction l as [|c l IH]; [done|]. intros _ pos w rest.
  destruct l as [|c2 l].
  - unfold word. simpl. split.
    + intros (c' & -> & H). apply N.eqb_eq in H. by subst.
    + intros ->. exists c. split; [done|apply N.eqb_refl].
  - change (word (c :: c2 :: l)) with (Seq (chr c) (word (c2 :: l))).
    unfold chr at 1. rewrite cls_seq_matches. split.
    + intros (c' & w' & -> & H & Hw). apply N.eqb_eq in H. subst c'.
      apply IH in Hw; [|done]. by subst.
    + intros ->. exists c, (c2 :: l). split; [done|].
      split; [apply N.eqb_refl|]. by apply IH.
Qed.

Lemma index_re_matches pos w rest :
  matches index_re pos w rest ↔
  ∃ ds, w = index_word ++ ds ∧ ds ≠ [] ∧ forallb is_digit ds = true.
Proof.
  unfold index_re.
  change (matches (Seq ?a ?b) pos w rest)
    with (∃ w1 w2, w = w1 ++ w2 ∧ matches a pos w1 (w2 ++ rest) ∧
                   matches b (pos + length w1) w2 rest).
  split.
  - intros (w1 & ds & -> & Hw1 & Hds & Hlen & _).
    apply word_matches in Hw1; [|done]. subst w1. exists ds.
    split; [done|]. split; [|done]. intros ->. simpl in Hlen. lia.
  - intros (ds & -> & Hne & Hds). exists index_word, ds. split; [done|].
    split; [by apply word_matches|]. split; [done|].
    split; [|done]. destruct ds; [done|]. simpl. lia.
Qed.

Lemma run_split (p : char → bool) s :
  ∃ d rest, s = d ++ rest ∧ forallb p d = true ∧
            from_option p false (head rest) = false.
Proof.
  induction s as [|c s (d & rest & -> & Hd & Hrest)].
  - by exists [], [].
  - destruct (p c) eqn:Hc.
    + exists (c :: d), rest. simpl. by rewrite Hc, Hd.
    + exists [], (c :: d ++ rest). by simpl.
Qed.

Lemma rep_no_run {A} p lo pos s (k : nat → str → option A) :
  from_option p false (head s) = false →
  rep true p (S lo) None pos s k = None.
Proof. destruct s as [|c s]; simpl; [done|]. by intros ->. Qed.

Lemma match_at_index pos d rest :
  forallb is_digit d = true → from_option is_digit false (head rest) = false →
  match_at index_re pos (index_word ++ d ++ rest)
    = match d with [] => None | _ => Some (pos + 6 + length d) end.
Proof.
  intros Hd Hrest. unfold match_at, index_re, word, plus, index_word. simpl.
  destruct d as [|c d].
  - by apply rep_no_run.
  - rewrite rep_greedy_run; [|done|done|simpl; lia]. f_equal. lia.
Qed.

Lemma search_from_found r s : ∀ pos p w,
  search_from r pos s = Some (p, w) →
  ∃ pre rest,
    s = pre ++ w ++ rest ∧ p = pos + length pre ∧
    match_at r p (w ++ rest) = Some (p + length w) ∧
    ∀ pre' w' rest', s = pre' ++ w' ++ rest' →
                     matches r (pos + length pre') w' rest' →
                     length pre ≤ length pre'.
Proof.
  induction s as [|c s IH]; intros pos p w; simpl.
  - destruct (match_at r pos []) as [e|] eqn:Hm; [|done].
    intros [= <- <-]. pose proof Hm as Hm'.
    apply match_at_sound in Hm' as (w & rest & Heq & Hw & ->).
    symmetry in Heq. apply app_eq_nil in Heq as [-> ->].
    exists [], []. rewrite take_nil. simpl. rewrite Nat.add_0_r in *.
    split; [done|]. split; [done|]. split; [done|]. intros; lia.
  - destruct (match_at r pos (c :: s)) as [e|] eqn:Hm.
    + intros [= <- <-]. pose proof Hm as Hm'.
      apply match_at_sound in Hm' as (w & rest & Heq & Hw & ->).
      exists [], rest. rewrite Heq in *.
      replace (pos + length w - pos) with (length w) by lia.
      rewrite take_app_length. simpl. rewrite Nat.add_0_r.
      split; [done|]. split; [done|]. split; [done|]. intros; lia.
    + intros H. apply IH in H as (pre & rest & -> & -> & Hfound & Hleft).
      exists (c :: pre), rest. simpl.
      replace (pos + S (length pre)) with (S pos + length pre) by lia.
      split; [done|]. split; [done|]. split; [done|].
      intros pre' w' rest' Heq Hw'. destruct pre' as [|c' pre'].
      * exfalso. simpl in *. rewrite Nat.add_0_r in Hw'.
        by apply (match_at_none _ _ _ Hm w' rest').
      * simpl in Heq. injection Heq as <- Heq. cbn [length] in Hw' |- *.
        apply le_n_S, (Hleft pre' w' rest' Heq).
        by replace (S pos + length pre') with (pos + S (length pre')) by lia.
Qed.

Lemma index_number_found name k :
  index_number name = Some k →
  ∃ pre ds rest,
    name = pre ++ index_word ++ ds ++ rest ∧
    ds ≠ [] ∧ forallb is_digit ds = true ∧
    from_option is_digit false (head rest) = false ∧
    k = int_of ds ∧
    ∀ pre', (∃ d post, name = pre' ++ index_word ++ d :: post ∧
                       is_digit d = true) →
            length pre ≤ length pre'.
Proof.
  unfold index_number, re_search.
  destruct (search_from index_re 0 name) as [[p w]|] eqn:Hs; [|done].
  simpl. intros [= <-].
  apply search_from_found in Hs as (pre & rest & -> & -> & Hfound & Hleft).
  pose proof Hfound as Hm.
  apply match_at_sound in Hm as (w0 & rest0 & Heq & Hw0 & _).
  apply index_re_matches in Hw0 as (ds0 & -> & _ & _).
  destruct (run_split is_digit (ds0 ++ rest0)) as (d & rest1 & Hrun & Hd & Hrest1).
  rewrite <- app_assoc, Hrun in Heq. rewrite Heq in Hfound.
  rewrite match_at_index in Hfound by done.
  destruct d as [|c d]; [done|]. injection Hfound as Hlen.
  assert (Hw : w = index_word ++ c :: d).
  { apply (f_equal (take (length w))) in Heq.
    rewrite take_app_length in Heq. rewrite Heq.
    replace (length w) with (length (index_word ++ c :: d))
      by (rewrite length_app; simpl in *; lia).
    by rewrite (app_assoc index_word), take_app_length. }
  subst w. rewrite <- !app_assoc in Heq. apply app_inv_head in Heq.
  change ((c :: d) ++ rest = (c :: d) ++ rest1) in Heq.
  apply app_inv_head in Heq. subst rest1.
  exists pre, (c :: d), rest. rewrite <- !app_assoc.
  split; [done|]. split; [done|]. split; [done|]. split; [done|].
  split; [by rewrite drop_app_length'|].
  intros pre' (d' & post & Heq & Hd').
  apply (Hleft pre' (index_word ++ [d']) post).
  - rewrite <- !app_assoc. exact Heq.
  - apply index_re_matches. exists [d']. split; [done|]. split; [done|].
    simpl. by rewrite Hd'.
Qed.

Lemma index_number_some name : is_Some (index_number name) ↔ has_index name.
Proof.
  unfold index_number, re_search. rewrite !fmap_is_Some, search_from_some.
  unfold has_index. split.
  - intros (pre & w & rest & -> & Hw).
    apply index_re_matches in Hw as (ds & -> & Hne & Hds).
    destruct ds as [|d ds]; [done|]. simpl in Hds.
    apply andb_true_iff in Hds as [Hd _].
    exists pre, d, (ds ++ rest). by rewrite <- !app_assoc.
  - intros (pre & d & post & -> & Hd).
    exists pre, (index_word ++ [d]), post. rewrite <- !app_assoc.
    split; [done|]. apply index_re_matches. exists [d].
    split; [done|]. split; [done|]. simpl. by rewrite Hd.
Qed.

(** X17.  The page number of a member is read from the first place of its
    name where [index-] is followed by a digit -- a directory part counts
    -- and it is the value of the whole run of digits that starts there;
    a name has a page number exactly when it has such a place. *)
Theorem page_number_from_first_index (name : str) :
  (is_Some (index_number name) ↔ has_index name) ∧
  ∀ k, index_number name = Some k →
    ∃ pre ds rest,
      name = pre ++ index_word ++ ds ++ rest ∧
      ds ≠ [] ∧ forallb is_digit ds = true ∧
      from_option is_digit false (head rest) = false ∧
      k = int_of ds ∧
      ∀ pre', (∃ d post, name = pre' ++ index_word ++ d :: post ∧
                         is_digit d = true) →
              length pre ≤ length pre'.
Proof. split; [apply index_number_some|apply index_number_found]. Qed.

Lemma starts_with_spec p s : starts_with p s = true ↔ ∃ t, s = p ++ t.
Proof.
  revert s. induction p as [|a p IH]; intros s; simpl.
  - split; [by exists s|done].
  - destruct s as [|b s].
    + split; [done|]. by intros (t & H).
    + rewrite andb_true_iff, N.eqb_eq, IH. split.
      * intros [-> (t & ->)]. by exists t.
      * intros (t & [= -> ->]). split; [done|]. by exists t.
Qed.

Lemma ends_with_spec suf s : ends_with suf s = true ↔ ∃ pre, s = pre ++ suf.
Proof.
  unfold ends_with. rewrite starts_with_spec. split.
  - intros (t & H). exists (reverse t).
    apply (f_equal reverse) in H. by rewrite reverse_involutive, reverse_app,
      reverse_involutive in H.
  - intros (pre & ->). exists (reverse pre). by rewrite reverse_app.
Qed.

Lemma is_image_name_spec name : is_image_name name = true ↔ has_image_suffix name.
Proof.
  unfold is_image_name, has_image_suffix. cbv zeta.
  rewrite !orb_true_iff, !ends_with_spec. split.
  - intros H.
    assert (∃ ext pre, ext ∈ [ext_png; ext_jpg; ext_jpeg] ∧
                       lower <$> name = pre ++ ext) as (ext & pre & Hin & Heq).
    { destruct H as [[(pre & H)|(pre & H)]|(pre & H)].
      - exists ext_png, pre. split; [|done]. by left.
      - exists ext_jpg, pre. split; [|done]. right. by left.
      - exists ext_jpeg, pre. split; [|done]. do 2 right. by left. }
    apply fmap_app_inv in Heq as (stem & e & _ & -> & ->). by exists stem, e.
  - intros (stem & e & -> & Hin). rewrite fmap_app.
    apply elem_of_cons in Hin as [->|Hin]; [left; left; eauto|].
    apply elem_of_cons in Hin as [->|Hin]; [left; right; eauto|].
    apply list_elem_of_singleton in Hin as ->. right. eauto.
Qed.

(** X18.  The extraction loop takes a member of the container exactly
    when its name ends in [.png], [.jpg] or [.jpeg] in any letter case and
    holds [index-] followed by a digit: such a member is written to
    [page_NNNN] with its own suffix and appended to the list; every other
    member leaves files and list as they are. *)
Theorem extract_member_selects (epub : archive) (output_dir : str)
    (st : filesystem * list (N * str)) (name : str) :
  (has_image_suffix name ∧ has_index name →
   ∃ page_num,
     index_number name = Some page_num ∧
     extract_member epub output_dir st name =
       (<[path_join output_dir (page_file page_num (suffix name))
          := zip_read epub name]> st.1,
        st.2 ++ [(page_num,
                  path_join output_dir (page_file page_num (suffix name)))])) ∧
  (¬ (has_image_suffix name ∧ has_index name) →
   extract_member epub output_dir st name = st).
Proof.
  unfold extract_member. split.
  - intros [Hs Hi]. apply is_image_name_spec in Hs.
    apply index_number_some in Hi as [page_num Hk].
    exists page_num. by rewrite Hs, Hk.
  - intros Hno. destruct (is_image_name name) eqn:Hs; [|done].
    destruct (index_number name) as [page_num|] eqn:Hk; [|done].
    exfalso. apply Hno. split; [by apply is_image_name_spec|].
    apply index_number_some. by rewrite Hk.
Qed.

(** ** The sort keeps the order of equal page numbers *)

Lemma filter_insert_page {A} (k : N) (x : N * A) l :
  filter (λ e, e.1 = k) (insert_page x l) = filter (λ e, e.1 = k) (x :: l).
Proof.
  induction l as [|y l IH]; simpl; [done|].
  destruct (y.1 <? x.1)%N eqn:E; [|done].
  apply N.ltb_lt in E. rewrite !filter_cons, IH, !filter_cons.
  destruct (decide (y.1 = k)), (decide (x.1 = k)); try done. lia.
Qed.

Lemma filter_sort_pages {A} (k : N) (l : list (N * A)) :
  filter (λ e, e.1 = k) (sort_pages l) = filter (λ e, e.1 = k) l.
Proof.
  induction l as [|x l IH]; [done|].
  change (sort_pages (x :: l)) with (insert_page x (sort_pages l)).
  by rewrite filter_insert_page, !filter_cons, IH.
Qed.

(** X19.  [image_files.sort(key=lambda x: x[0])] is stable: in the list
    an extraction returns, and in the list a resumed run rebuilds from the
    image directory, the entries of one page number stand in the order in
    which the loop appended them. *)
Theorem page_lists_keep_order_of_equal_numbers (k : N) :
  (∀ epub output_dir fs,
     filter (λ e, e.1 = k) (extract_images epub output_dir fs).2
       = filter (λ e, e.1 = k) (omap (member_target output_dir) epub.*1)) ∧
  (∀ existing,
     filter (λ e, e.1 = k) (Resume.image_files_of existing)
       = filter (λ e, e.1 = k)
           (omap (λ e, (λ page_num, (page_num, e.2)) <$> Resume.page_number e.1)
                 existing)).
Proof.
  split.
  - intros epub output_dir fs. unfold extract_images. rewrite extract_fold.
    simpl. apply filter_sort_pages.
  - intros existing. apply filter_sort_pages.
Qed.

(** ** What the truncation leaves of a title *)

Lemma trunc1_matches pos w rest :
  matches trunc1 pos w rest ↔
  ∃ dd tail, w = dd ++ tail ∧ forallb dots dd = true ∧ 1 ≤ length dd ∧
             forallb not_nl tail = true ∧ at_end false rest = true.
Proof.
  unfold trunc1, seqs, star, plus. simpl. split.
  - intros (dd & w1 & -> & (Hdd & Hlen & _) & tail & w2 & -> & (Htail & _)
            & -> & He).
    exists dd, tail. by rewrite app_nil_r.
  - intros (dd & tail & -> & Hdd & Hlen & Htail & He).
    exists dd, tail. split; [done|]. split; [done|].
    exists tail, []. rewrite app_nil_r. split; [done|].
    split; [split; [done|split; [lia|done]]|done].
Qed.

(** On a text without newline, [re.sub(r'[…\.]+.*$', '', s)] keeps the
    text up to the first ellipsis-or-dot character. *)
Lemma trunc1_cuts s : ∀ pos,
  forallb not_nl s = true → subst [] (scan trunc1 pos 0 s) = cut_dot s.
Proof.
  assert (Hnil : ∀ pos, match_at trunc1 pos [] = None).
  { intros pos. destruct (match_at trunc1 pos []) eqn:Hm; [|done]. exfalso.
    apply match_at_sound in Hm as (w & rest & Heq & Hw & _).
    apply trunc1_matches in Hw as (dd & tail & -> & _ & Hlen & _).
    symmetry in Heq. apply app_eq_nil in Heq as [Heq _].
    apply app_eq_nil in Heq as [-> _]. simpl in Hlen. lia. }
  induction s as [|c s IH]; intros pos Hs.
  - by rewrite scan_nil.
  - pose proof Hs as Hs'. simpl in Hs'. apply andb_true_iff in Hs' as [Hc Hs'].
    destruct (match_at trunc1 pos (c :: s)) as [e|] eqn:Hm.
    + pose proof Hm as Hm'.
      apply match_at_sound in Hm' as (w & rest & Heq & Hw & ->).
      apply trunc1_matches in Hw as (dd & tail & -> & Hdd & Hlen & Htail & He).
      assert (rest = []) as ->.
      { apply at_end_false in He as [-> | ->]; [done|]. exfalso.
        apply (not_nl_no_nl _ Hs). rewrite Heq. apply elem_of_app. right.
        by left. }
      rewrite app_nil_r in Heq.
      rewrite (scan_match _ _ _ _ _ Hm).
      * replace (pos + length (dd ++ tail) - pos) with (length (c :: s))
          by (rewrite Heq; lia).
        rewrite drop_all, scan_nil by done. simpl.
        destruct dd as [|d1 dd]; [simpl in Hlen; lia|].
        simpl in Heq. injection Heq as -> ->. simpl in Hdd.
        apply andb_true_iff in Hdd as [H1 _]. by rewrite H1.
      * rewrite length_app. lia.
      * rewrite <- Heq. simpl. lia.
    + rewrite scan_no_match by done. simpl subst. rewrite IH by done.
      simpl. destruct (dots c) eqn:Hd; [|done]. exfalso.
      apply (match_at_none _ _ _ Hm (c :: s) []); [by rewrite app_nil_r|].
      apply trunc1_matches. exists [c], s. simpl. rewrite Hd.
      split; [done|]. split; [done|]. split; [lia|]. by split.
Qed.

Lemma cut_dot_no_dots s : forallb (λ c, negb (dots c)) (cut_dot s) = true.
Proof.
  induction s as [|c s IH]; [done|]. simpl.
  destruct (dots c) eqn:Hd; [done|]. simpl. by rewrite Hd, IH.
Qed.

Lemma lstrip_suffix s : ∃ sp, s = sp ++ lstrip s.
Proof. destruct (lstrip_spec s) as (sp & H & _). eauto. Qed.

Lemma rstrip_prefix s : ∃ sp, s = rstrip s ++ sp.
Proof. destruct (rstrip_spec s) as (sp & H & _). eauto. Qed.

(** [strip] returns a part of its argument. *)
Lemma strip_infix s : ∃ a b, s = a ++ strip s ++ b.
Proof.
  unfold strip. destruct (lstrip_suffix s) as (a & Ha).
  destruct (rstrip_prefix (lstrip s)) as (b & Hb).
  exists a, b. by rewrite <- Hb.
Qed.

Lemma forallb_strip (p : char → bool) s :
  forallb p s = true → forallb p (strip s) = true.
Proof.
  destruct (strip_infix s) as (a & b & Heq). intros H. rewrite Heq in H.
  apply forallb_app_true in H as [_ H]. by apply forallb_app_true in H as [H _].
Qed.

Lemma extract_chapters_no_dots texts :
  Forall (λ t : str, forallb (λ c, negb (dots c)) t = true)
         (ExtractChapters.extract_chapters_from_ocr texts).
Proof.
  unfold ExtractChapters.extract_chapters_from_ocr.
  apply fold_left_Forall; [|constructor]. intros acc text Hacc.
  unfold ExtractChapters.add_file. apply fold_left_Forall; [|done].
  intros acc' m Hacc'. unfold ExtractChapters.add_match.
  destruct (negb (str_eqb _ []) && (3 <? _) && negb (in_list _ acc')); [|done].
  destruct (negb (mem Ch.bar _) && (_ <? 50)); [|done].
  apply Forall_app. split; [done|]. apply Forall_singleton.
  unfold ExtractChapters.clean. apply forallb_strip.
  unfold re_sub at 1. rewrite trunc1_cuts by apply ws_collapse_no_nl.
  apply cut_dot_no_dots.
Qed.

(** X20.  No title kept by [extract_chapters_from_ocr] holds a full stop
    or an ellipsis character: the truncation step cuts a cleaned match at
    the first such character, whatever follows it. *)
Theorem extract_chapters_titles_without_dots (texts : list str) (t : str)
    (c : char) :
  t ∈ ExtractChapters.extract_chapters_from_ocr texts → c ∈ t →
  c ≠ Ch.dot ∧ c ≠ Ch.ellipsis.
Proof.
  intros Ht Hc. pose proof (extract_chapters_no_dots texts) as H.
  rewrite Forall_forall in H. apply H in Ht.
  rewrite forallb_forall in Ht. apply list_elem_of_In, Ht in Hc.
  apply negb_true_iff in Hc. split; intros ->; by vm_compute in Hc.
Qed.

Lemma extract_chapters_titles_without_dots_witness :
  78%N ≠ Ch.dot ∧ 78%N ≠ Ch.ellipsis.
Proof.
  apply (extract_chapters_titles_without_dots [Sample.dotted_title]
           Sample.dotted_title_cut 78%N).
  - vm_compute. by left.
  - vm_compute. do 4 right. by left.
Defined.

Lemma cut_dots_head c s :
  cut_dots (c :: s) = [] ∨ ∃ t, cut_dots (c :: s) = c :: t.
Proof.
  destruct s as [|c2 s]; [right; by exists []|].
  change (cut_dots (c :: c2 :: s))
    with (if dots c && dots c2 then [] else c :: cut_dots (c2 :: s)).
  destruct (dots c && dots c2); [by left|right; eauto].
Qed.

Lemma cut_dots_no_run s : no_dot_run (cut_dots s).
Proof.
  induction s as [|c s IH]; intros pre c1 c2 post Heq.
  - by destruct pre.
  - destruct s as [|c3 s]; [by destruct pre as [|? [|? ?]]|].
    change (cut_dots (c :: c3 :: s))
      with (if dots c && dots c3 then [] else c :: cut_dots (c3 :: s)) in Heq.
    destruct (dots c && dots c3) eqn:Hd; [by destruct pre|].
    destruct pre as [|x pre].
    + cbn [app] in Heq.
      destruct (cut_dots_head c3 s) as [H|(t & H)]; rewrite H in Heq; [done|].
      by injection Heq as <- <- _.
    + cbn [app] in Heq. apply (IH pre c1 c2 post). congruence.
Qed.

Lemma no_dot_run_infix a t b : no_dot_run (a ++ t ++ b) → no_dot_run t.
Proof.
  intros H pre c1 c2 post ->. apply (H (a ++ pre) c1 c2 (post ++ b)).
  by rewrite <- !app_assoc.
Qed.

Lemma no_dot_run_strip t : no_dot_run t → no_dot_run (strip t).
Proof.
  intros H. destruct (strip_infix t) as (a & b & Heq). rewrite Heq in H.
  by apply no_dot_run_infix in H.
Qed.

(** A pattern that ends in [$] and matches no empty text: on a text without
    newline the substitution of the empty string leaves a prefix. *)
Lemma sub_anchored_prefix r :
  (∀ pos w rest, matches r pos w rest → at_end false rest = true ∧ w ≠ []) →
  ∀ s pos, forallb not_nl s = true →
           ∃ post, s = subst [] (scan r pos 0 s) ++ post.
Proof.
  intros Hr.
  assert (Hnil : ∀ pos, match_at r pos [] = None).
  { intros pos. destruct (match_at r pos []) eqn:Hm; [|done]. exfalso.
    apply match_at_sound in Hm as (w & rest & Heq & Hw & _).
    apply Hr in Hw as [_ Hw]. symmetry in Heq.
    by apply app_eq_nil in Heq as [-> _]. }
  induction s as [|c s IH]; intros pos Hs.
  - exists []. by rewrite scan_nil.
  - pose proof Hs as Hs'. simpl in Hs'. apply andb_true_iff in Hs' as [Hc Hs'].
    destruct (match_at r pos (c :: s)) as [e|] eqn:Hm.
    + pose proof Hm as Hm'.
      apply match_at_sound in Hm' as (w & rest & Heq & Hw & ->).
      apply Hr in Hw as [He Hw].
      assert (rest = []) as ->.
      { apply at_end_false in He as [-> | ->]; [done|]. exfalso.
        apply (not_nl_no_nl _ Hs). rewrite Heq. apply elem_of_app. right.
        by left. }
      rewrite app_nil_r in Heq. exists (c :: s).
      rewrite (scan_match _ _ _ _ _ Hm).
      * replace (pos + length w - pos) with (length (c :: s))
          by (rewrite Heq; lia).
        by rewrite drop_all, scan_nil.
      * destruct w; [done|]. simpl. lia.
      * rewrite <- Heq. simpl. lia.
    + rewrite scan_no_match by done. destruct (IH (S pos) Hs') as [post Hpost].
      exists post. simpl. by rewrite <- Hpost.
Qed.

Lemma page_suffix_anchored pos w rest :
  matches ParseEpubOcrV2.page_suffix pos w rest →
  at_end false rest = true ∧ w ≠ [].
Proof.
  intros Hw.
  apply cls_seq_matches in Hw as (c & w1 & -> & _ & ds & w2 & -> & _ & Hw).
  apply cls_seq_matches in Hw as (c' & w3 & -> & _ & -> & He).
  done.
Qed.

Lemma cut_dots_no_nl s : forallb not_nl s = true → forallb not_nl (cut_dots s) = true.
Proof.
  intros H. destruct (cut_dots_prefix s) as (post & Heq & _).
  rewrite Heq in H. by apply forallb_app_true in H as [H _].
Qed.

Lemma v2_clean_no_run m : no_dot_run (ParseEpubOcrV2.clean m).
Proof.
  unfold ParseEpubOcrV2.clean. apply no_dot_run_strip.
  unfold re_sub at 2. rewrite trunc2_cuts by apply ws_collapse_no_nl.
  destruct (sub_anchored_prefix _ page_suffix_anchored
              (cut_dots (re_sub ws_run [Ch.space] (strip m))) 0) as [post Hpost].
  { apply cut_dots_no_nl, ws_collapse_no_nl. }
  apply (no_dot_run_infix [] _ post). simpl. unfold re_sub at 1.
  rewrite <- Hpost. apply cut_dots_no_run.
Qed.

Lemma v2_titles_no_run text :
  Forall no_dot_run (ParseEpubOcrV2.extract_chapter_titles_clean text).
Proof.
  unfold ParseEpubOcrV2.extract_chapter_titles_clean.
  apply fold_left_Forall; [|constructor]. intros acc m Hacc.
  unfold ParseEpubOcrV2.add_match.
  destruct ((3 <? _) && negb (in_list _ acc)); [|done].
  apply Forall_app. split; [done|]. apply Forall_singleton, v2_clean_no_run.
Qed.

Lemma v2_scan_loop_no_run tess pages : ∀ n acc,
  Forall no_dot_run acc →
  Forall no_dot_run (ParseEpubOcrV2.scan_loop tess n pages acc).
Proof.
  induction pages as [|img_path rest IH]; intros n acc Hacc; simpl; [done|].
  apply IH, Forall_app. split; [done|]. apply v2_titles_no_run.
Qed.

(** X21.  A title recorded by scan_chapters.py or returned by
    parse_epub_ocr_v2.py never holds two adjacent full stops or ellipsis
    characters: the cleaned match is cut where the first such pair
    starts. *)
Theorem titles_without_dot_runs :
  (∀ text title, ScanChapters.extract_chapter_from_page text = Some title →
                 no_dot_run title) ∧
  (∀ tess n image_files page_num title,
     (page_num, title) ∈ ScanChapters.scan_all_pages tess n image_files →
     no_dot_run title) ∧
  (∀ tess n image_files max_pages t,
     t ∈ ParseEpubOcrV2.find_toc_and_extract_chapters tess n image_files
           max_pages →
     no_dot_run t).
Proof.
  assert (H1 : ∀ text title,
            ScanChapters.extract_chapter_from_page text = Some title →
            no_dot_run title).
  { intros text title. unfold ScanChapters.extract_chapter_from_page.
    destruct (re_search ScanChapters.pattern _) as [m|]; [|done].
    intros [= <-]. apply no_dot_run_strip.
    unfold re_sub at 1. rewrite trunc2_cuts by apply ws_collapse_no_nl.
    apply cut_dots_no_run. }
  split; [exact H1|]. split.
  - intros tess n image_files page_num title H.
    apply scan_all_pages_origin in H as (i & img & _ & H). by apply H1 in H.
  - intros tess n image_files max_pages t.
    unfold ParseEpubOcrV2.find_toc_and_extract_chapters. intros Ht.
    apply (proj1 (unique_elem _ _)) in Ht.
    pose proof (v2_scan_loop_no_run tess (take max_pages image_files) n []
                  (Forall_nil_2 _)) as H.
    rewrite Forall_forall in H. by apply H.
Qed.

(** ** The literal TOC markers *)

Lemma contains_spec p s : contains p s = true ↔ ∃ pre post, s = pre ++ p ++ post.
Proof.
  induction s as [|c s IH]; simpl.
  - rewrite orb_false_r, starts_with_spec. split.
    + intros (t & H). by exists [], t.
    + intros (pre & post & H). symmetry in H.
      apply app_eq_nil in H as [-> H]. by exists post.
  - rewrite orb_true_iff, starts_with_spec, IH. split.
    + intros [(t & ->)|(pre & post & ->)]; [by exists [], t|].
      by exists (c :: pre), post.
    + intros (pre & post & H). destruct pre as [|x pre].
      * left. by exists post.
      * right. injection H as -> ->. by exists pre, post.
Qed.

(** X22.  The literal markers parse_epub_ocr.py and parse_epub_ocr_v2.py
    look for are TOC markers for extract_toc.py as well: a page text that
    holds one of them is classified as a TOC page by [is_toc_page]. *)
Theorem literal_marker_is_toc_page (text : str) :
  contains [Ch.mu; Ch.lu] text || contains [Ch.mu; Ch.space; Ch.lu] text = true ∨
  ParseEpubOcrV2.is_toc text = true →
  ExtractToc.is_toc_page text = true.
Proof.
  intros H. unfold ExtractToc.is_toc_page. apply orb_true_iff. left.
  apply has_toc_marker_spec.
  assert (∃ p ws last, contains p text = true ∧ p = Ch.mu :: ws ++ [last] ∧
            forallb is_space ws = true ∧ (last = Ch.lu ∨ last = Ch.ci))
    as (p & ws & last & Hc & -> & Hws & Hlast).
  { unfold ParseEpubOcrV2.is_toc in H. rewrite !orb_true_iff in H.
    destruct H as [[H|H]|[[H|H]|H]].
    - exists [Ch.mu; Ch.lu], [], Ch.lu. auto.
    - exists [Ch.mu; Ch.space; Ch.lu], [Ch.space], Ch.lu. auto.
    - exists [Ch.mu; Ch.lu], [], Ch.lu. auto.
    - exists [Ch.mu; Ch.space; Ch.lu], [Ch.space], Ch.lu. auto.
    - exists [Ch.mu; Ch.space; Ch.ci], [Ch.space], Ch.ci. auto. }
  apply contains_spec in Hc as (pre & post & ->).
  exists pre, (Ch.mu :: ws ++ [last]), post. split; [done|]. left.
  exists ws. split; [done|]. destruct Hlast as [-> | ->]; auto.
Qed.

Lemma literal_marker_is_toc_page_witness :
  ExtractToc.is_toc_page SpecExample.toc_page = true.
Proof.
  apply literal_marker_is_toc_page. left. by vm_compute.
Defined.
